(** * Capacitated k-center on trees: the solver of k_center_tree_uniform_cap.cpp

    A shallow embedding of [tree<weight_type>], of its member function
    [k_centers] and of [usage_example] and [main], followed by the
    properties of the solver.

    Conventions of the embedding.
    - Vertex identifiers and vector indices are C++ [int]s that are only
      ever used as indices; they are [nat] here, and the parent sentinel
      [-1] of [dfs] is [None].
    - The other [int]s ([k], [C], the entries of [D]) are [Z], and their
      operations are those of the integers. Signed overflow is undefined
      in C++, so the embedding describes the executions in which no [int]
      operation overflows; the statements that depend on the values say
      which calls these are ([distances_fit], [call_fits]).
    - [weight_type] is a parameter, with the conversions to and from [int]
      that the C++ type checker inserts written out.
    - Vectors are lists. A read outside a vector yields a default and a
      store outside it changes nothing; the places where the program
      really leaves a container are singled out as [Undefined] outcomes
      or studied with the recorded stores ([f_stores]). In particular
      [check] stores [f[n]] past the end of [f] on every tree when the
      radius is not negative, and never reads [f]: a result [Returns] of
      [check] or [k_centers] describes the executions in which that
      store does no harm. *)

From Stdlib Require Import ZArith Lia.
From stdpp Require Import base numbers list sorting strings pretty.

Local Open Scope Z_scope.

(** * The program *)

(** ** Outcomes of a call *)

Inductive ub : Type :=
| EmptySetBegin      (* [*st.begin()] on an empty [std::set] *)
| VectorIndex.       (* [distances[i]] with [i] outside the vector *)

Inductive outcome (A : Type) : Type :=
| Returns (a : A)
| AssertFailed       (* [assert(k * C >= n)] aborts the process *)
| Undefined (u : ub)
| Diverges.          (* the recursion of [dfs] does not end *)

Arguments Returns {A} a.
Arguments AssertFailed {A}.
Arguments Undefined {A} u.
Arguments Diverges {A}.

#[export] Instance outcome_bind : MBind outcome := λ A B f m,
  match m with
  | Returns a => f a
  | AssertFailed => AssertFailed
  | Undefined u => Undefined u
  | Diverges => Diverges
  end.

(** ** The weight type and [std::sort] *)

(** The operations of [weight_type] that [k_centers] uses. [w_of_int] and
    [w_to_int] are the implicit conversions between [int] and
    [weight_type]. *)
Class WeightType (W : Type) : Type := {
  w_of_int : Z → W;
  w_to_int : W → Z;
  w_add : W → W → W;
  w_sub : W → W → W;
  w_leb : W → W → bool;
  w_ltb : W → W → bool;
}.

(** [std::sort(first, last, comp)]: the standard promises an ordered
    rearrangement of the range and nothing about the relative order of
    equivalent elements. *)
Definition ordered_by {A} (comp : A → A → bool) : list A → Prop :=
  StronglySorted (λ x y, comp y x = false).

Definition strict_weak {A} (comp : A → A → bool) : Prop :=
  (∀ x, comp x x = false) ∧
  (∀ x y z, comp x y = true → comp y z = true → comp x z = true) ∧
  (∀ x y z, comp x y = false → comp y z = false → comp x z = false).

Class StdSort : Type := {
  std_sort : ∀ {A}, (A → A → bool) → list A → list A;
  std_sort_perm : ∀ A (comp : A → A → bool) l, std_sort comp l ≡ₚ l;
  std_sort_ordered : ∀ A (comp : A → A → bool) l,
    strict_weak comp → ordered_by comp (std_sort comp l);
}.

(** ** Containers *)

(** [v[i]] for a vector [v]. *)
Definition at_ {A} (d : A) (v : list A) (i : nat) : A := default d (v !! i).

(** [m[i][j]] for a vector of vectors of [int]. *)
Definition at2 (m : list (list Z)) (i j : nat) : Z := at_ 0 (at_ [] m i) j.

(** [std::set<int>]: kept as the ascending list of its elements. *)
Fixpoint set_insert (x : nat) (s : list nat) : list nat :=
  match s with
  | [] => [x]
  | y :: s' =>
      if (x <? y)%nat then x :: s
      else if (x =? y)%nat then s
      else y :: set_insert x s'
  end.

Definition set_erase (x : nat) (s : list nat) : list nat :=
  filter (λ y, y ≠ x) s.

Section Solver.
Context {W : Type} {WT : WeightType W} {SS : StdSort}.

(** [operator<] of [pair<weight_type, int>]. *)
Definition pair_ltb (a b : W * nat) : bool :=
  w_ltb a.1 b.1 || (negb (w_ltb b.1 a.1) && (a.2 <? b.2)%nat).

(** [std::set<pair<weight_type, int>>::insert]. *)
Fixpoint pset_insert (x : W * nat) (s : list (W * nat)) : list (W * nat) :=
  match s with
  | [] => [x]
  | y :: s' =>
      if pair_ltb x y then x :: s
      else if pair_ltb y x then y :: pset_insert x s'
      else s
  end.

(** ** The tree store *)

Record tree : Type := Tree {
  n : nat;                          (* number of vertices *)
  con : list (list (nat * W));      (* adjacency list *)
}.

(** [tree(int n): n(n), con(n + 1)]. *)
Definition new_tree (n : nat) : tree := Tree n (replicate (S n) []).

Definition add_edge (t : tree) (node1 node2 : nat) (w : W) : tree :=
  let con1 := alter (λ l, l ++ [(node2, w)]) node1 (con t) in
  let con2 := alter (λ l, l ++ [(node1, w)]) node2 con1 in
  Tree (n t) con2.

(** ** Distance precomputation *)

Definition root : nat := 1.

Record tables : Type := Tables {
  D : list (list Z);                (* [vector<vector<int>> D] *)
  ancestors : list (list nat);
  distances : list W;
}.

(** The body of [dfs] before its loop over the neighbours. *)
Definition dfs_visit (beg s : nat) (p : option nat) (d : W) (σ : tables)
    : tables :=
  let D1 := alter (λ row, <[s := w_to_int d]> row) beg (D σ) in
  let anc1 :=
    if (beg =? root)%nat then
      let anc0 :=
        match p with
        | Some p => <[s := at_ [] (ancestors σ) p]> (ancestors σ)
        | None => ancestors σ
        end in
      alter (λ l, l ++ [s]) s anc0
    else ancestors σ in
  let dist1 :=
    if (beg <? s)%nat then distances σ ++ [d] else distances σ in
  Tables D1 anc1 dist1.

(** [dfs] is a [std::function<void(int, int, int, int)>]: the fourth
    argument [d + v.snd] of the recursive call is converted to [int] on
    the way in and back to [weight_type] for the lambda's parameter. *)
Definition through_int (d : W) : W := w_of_int (w_to_int d).

(** The loop of [dfs] over the neighbours [l] of [s]; [call] is the
    recursive call [dfs(beg, ., ., .)]. *)
Fixpoint dfs_neighbours
    (call : nat → option nat → W → tables → outcome tables)
    (s : nat) (p : option nat) (d : W) (l : list (nat * W)) (σ : tables)
    : outcome tables :=
  match l with
  | [] => Returns σ
  | v :: l =>
      if decide (Some v.1 ≠ p) then
        σ' ← call v.1 (Some s) (through_int (w_add d v.2)) σ;
        dfs_neighbours call s p d l σ'
      else dfs_neighbours call s p d l σ
  end.

(** [dfs(beg, s, p, d)]; [fuel] bounds the depth of the recursion. *)
Fixpoint dfs (t : tree) (fuel : nat) (beg s : nat) (p : option nat) (d : W)
    (σ : tables) : outcome tables :=
  match fuel with
  | O => Diverges
  | S fuel =>
      dfs_neighbours (dfs t fuel beg) s p d (at_ [] (con t) s)
        (dfs_visit beg s p d σ)
  end.

(** The depth that the recursion of [dfs] reaches only when it does not
    end: a call is determined by its vertex and its parent, so a chain of
    more calls than there are entries in the adjacency lists holds a call
    that has made itself again ([dfs_depth_bound] below). *)
Definition depth_bound (t : tree) : nat :=
  S (n t) + length (concat (con t)).

(** [for(int i = 1; i <= n; i++){ D[i].resize(n + 1); dfs(i, i, -1, 0); }] *)
Fixpoint dfs_all (t : tree) (starts : list nat) (σ : tables)
    : outcome tables :=
  match starts with
  | [] => Returns σ
  | i :: starts =>
      let σ1 := Tables (alter (resize (S (n t)) 0) i (D σ))
                       (ancestors σ) (distances σ) in
      σ2 ← dfs t (depth_bound t) i i None (w_of_int 0) σ1;
      dfs_all t starts σ2
  end.

(** The tables when the loop over the start vertices is done. *)
Definition raw_tables (t : tree) : outcome tables :=
  dfs_all t (seq 1 (n t))
    (Tables (replicate (S (n t)) []) (replicate (S (n t)) []) []).

(** ... and after [sort(distances.begin(), distances.end())]. *)
Definition precompute (t : tree) : outcome tables :=
  σ ← raw_tables t;
  Returns (Tables (D σ) (ancestors σ) (std_sort w_ltb (distances σ))).

(** ** The feasibility oracle *)

(** The members that [check] overwrites on every call. *)
Record answer : Type := Answer {
  centers : list nat;
  assignment : list nat;
}.

Section Check.
Variables (t : tree) (σ : tables) (C k : Z) (radius : W).

(** The test of the scan of [ancestors[i]]. *)
Definition covers (i it : nat) : bool :=
  w_leb (w_sub (w_of_int (at2 (D σ) root i)) (w_of_int (at2 (D σ) root it)))
        radius.

(** The first ancestor of [i], from the root, that covers [i]. *)
Definition first_cover (i : nat) : option nat :=
  find (covers i) (at_ [] (ancestors σ) i).

(** The first loop of [check]: fills [U], [f] and [st]. [f] has the
    indices [0 .. n - 1], and the store [f[i] = it] for [i = n] is outside
    it: undefined behaviour, which [<[i := it]>] passes over and
    [f_stores] records. Nothing reads [f]. *)
Definition check_init_step (acc : list nat * list nat * list (W * nat))
    (i : nat) : list nat * list nat * list (W * nat) :=
  let '(U, f, st) := acc in
  let U := set_insert i U in
  match first_cover i with
  | Some it =>
      (U, <[i := it]> f,
       pset_insert (w_of_int (- at2 (D σ) root it), i) st)
  | None => (U, f, st)
  end.

(** [vector<int> f(n)]. *)
Definition f_init : list nat := replicate (n t) 0%nat.

Definition check_init : list nat * list nat * list (W * nat) :=
  foldl check_init_step ([], f_init, []) (seq 1 (n t)).

(** The indices [i] of the stores [f[i] = it], in program order. *)
Definition f_stores : list nat :=
  filter (λ i, is_Some (first_cover i)) (seq 1 (n t)).

(** [D[center][it] <= radius], the test of the collection loop. *)
Definition within (center it : nat) : bool :=
  w_leb (w_of_int (at2 (D σ) center it)) radius.

(** The comparator of the [sort]: [D[root][i] > D[root][j]]. *)
Definition deeper (i j : nat) : bool :=
  at2 (D σ) root i >? at2 (D σ) root j.

(** [reachable] after the collection loop and the [sort]. *)
Definition reachable_sorted (center : nat) (U : list nat) : list nat :=
  std_sort deeper (filter (λ it, within center it = true) U).

(** [if(reachable.size() > C) reachable.resize(C);] the comparison and
    the call convert the [int] [C] to the 64-bit [size_t]. *)
Definition to_size_t (z : Z) : Z := if z <? 0 then z + 2 ^ 64 else z.

Definition cap (reachable : list nat) : list nat :=
  if Z.of_nat (length reachable) >? to_size_t C
  then take (Z.to_nat (to_size_t C)) reachable
  else reachable.

(** The last loop of an iteration. *)
Definition assign_all (center : nat) (reachable : list nat)
    (a : list nat) (U : list nat) : list nat * list nat :=
  foldl (λ '(a, U) it, (<[it := center]> a, set_erase it U))
        (a, U) reachable.

(** The greedy loop; [rounds] counts the iterations that [iter < k]
    still allows. *)
Fixpoint greedy (rounds : nat) (U : list nat) (st : list (W * nat))
    (cs a : list nat) : outcome (list nat * answer) :=
  match rounds with
  | O => Returns (U, Answer cs a)
  | S rounds =>
      match U with
      | [] => Returns (U, Answer cs a)
      | _ :: _ =>
          match st with
          | [] => Undefined EmptySetBegin
          | top :: st =>
              let center := top.2 in
              let reachable := cap (reachable_sorted center U) in
              let '(a, U) := assign_all center reachable a U in
              greedy rounds U st (cs ++ [center]) a
          end
      end
  end.

(** [check(radius)], with [centers] and [assignment] as the call finds
    them in [ans]; [centers.clear()] is the [[]] given to the loop. *)
Definition check (ans : answer) : outcome (bool * answer) :=
  let '(U, _, st) := check_init in
  '(U, ans) ← greedy (Z.to_nat k) U st [] (assignment ans);
  Returns (bool_decide (U = []), ans).

End Check.

(** ** The radius search *)

(** [distances[i]] for an [int] index. *)
Definition dist_at (σ : tables) (i : Z) : outcome W :=
  if i <? 0 then Undefined VectorIndex
  else match distances σ !! Z.to_nat i with
       | Some r => Returns r
       | None => Undefined VectorIndex
       end.

(** The [while(lo < hi)] loop; every iteration shrinks [hi - lo], and
    [fuel] bounds their number. *)
Fixpoint search (t : tree) (σ : tables) (C k : Z) (fuel : nat) (lo hi : Z)
    (ans : answer) : outcome (Z * answer) :=
  if lo <? hi then
    match fuel with
    | O => Diverges
    | S fuel =>
        let mid := Z.shiftr (lo + hi) 1 in
        r ← dist_at σ mid;
        '(ok, ans) ← check t σ C k r ans;
        if ok : bool then search t σ C k fuel lo mid ans
        else search t σ C k fuel (mid + 1) hi ans
    end
  else Returns (lo, ans).

(** [k_centers(C, k)]: the radius, the centers and the assignment. The
    product [k * C] and the sum [lo + hi] of [search] are those of the
    integers, which are the program's when [call_fits] holds. *)
Definition k_centers (t : tree) (C k : Z)
    : outcome (W * list nat * list nat) :=
  if k * C <? Z.of_nat (n t) then AssertFailed
  else
    σ ← precompute t;
    let ans := Answer [] (replicate (S (n t)) 0%nat) in
    let hi := Z.of_nat (length (distances σ)) - 1 in
    '(lo, ans) ← search t σ C k (length (distances σ)) 0 hi ans;
    r ← dist_at σ lo;
    '(_, ans) ← check t σ C k r ans;
    Returns (r, centers ans, assignment ans).

End Solver.

Arguments tree W : clear implicits.

(** ** Weight types *)

(** [tree<int>], with the operations of the integers: these are the
    program's as long as no sum leaves the range of [int], which
    [distances_fit] says of a tree. *)
#[export] Instance int_weight : WeightType Z := {
  w_of_int z := z;
  w_to_int z := z;
  w_add := Z.add;
  w_sub := Z.sub;
  w_leb := Z.leb;
  w_ltb := Z.ltb;
}.

(** The 32-bit [int] with the low 32 bits of [z]. *)
Definition wrap32 (z : Z) : Z := (z + 2 ^ 31) mod 2 ^ 32 - 2 ^ 31.

(** [tree<long long>], for values below 2^63 in magnitude: the
    conversion to the 32-bit [int] keeps the low 32 bits. *)
Definition long_long_weight : WeightType Z := {|
  w_of_int z := z;
  w_to_int := wrap32;
  w_add := Z.add;
  w_sub := Z.sub;
  w_leb := Z.leb;
  w_ltb := Z.ltb;
|}.

(** [tree<int>] on a machine where a sum or a difference that leaves
    [int] wraps around. The C++ standard leaves these overflows
    undefined; this is what the compiled program does with them. *)
Definition int_wraps : WeightType Z := {|
  w_of_int z := z;
  w_to_int z := z;
  w_add a b := wrap32 (a + b);
  w_sub a b := wrap32 (a - b);
  w_leb := Z.leb;
  w_ltb := Z.ltb;
|}.

(** [tree<double>] on the weights that are multiples of 0.5 and of
    magnitude below 2^31. On these IEEE-754 addition, subtraction and
    comparison are exact, the conversion to [int] drops the fraction and
    the conversion from [int] is exact; from 2^31 on the conversion to
    [int] is undefined. A weight is kept as twice its value. *)
Record half : Type := Half { twice : Z }.

#[export] Instance half_weight : WeightType half := {
  w_of_int z := Half (2 * z);
  w_to_int h := Z.quot (twice h) 2;
  w_add a b := Half (twice a + twice b);
  w_sub a b := Half (twice a - twice b);
  w_leb a b := twice a <=? twice b;
  w_ltb a b := twice a <? twice b;
}.

(** ** Sorts *)

(** Insertion sort, which keeps equivalent elements in their order. *)
Fixpoint insert_sorted {A} (comp : A → A → bool) (x : A) (l : list A)
    : list A :=
  match l with
  | [] => [x]
  | y :: l' => if comp y x then y :: insert_sorted comp x l' else x :: l
  end.

Definition insertion_sort {A} (comp : A → A → bool) (l : list A) : list A :=
  foldr (insert_sorted comp) [] l.

(** An insertion sort that puts an element behind the elements equivalent
    to it: equivalent elements end up in the reverse of their order. *)
Fixpoint insert_behind {A} (comp : A → A → bool) (x : A) (l : list A)
    : list A :=
  match l with
  | [] => [x]
  | y :: l' => if comp x y then x :: l else y :: insert_behind comp x l'
  end.

Definition reversing_sort {A} (comp : A → A → bool) (l : list A) : list A :=
  foldr (insert_behind comp) [] l.

(** ** The example *)

(** The output of [usage_example]: what was written to [cout] and to
    [cerr]. *)
Record output : Type := Output { cout : string; cerr : string }.

Definition endl : string := String (Ascii.ascii_of_nat 10) EmptyString.

(** [usage_example()]. *)
Definition usage_example {SS : StdSort} : outcome output :=
  let T := add_edge (add_edge (add_edge (new_tree 4) 1 2 1) 1 3 3) 1 4 1 in
  '(radius, centers, assignment) ← k_centers T 3 2;
  Returns (Output
    ("radius : " +:+ pretty radius +:+ endl +:+
     "centers : " +:+
     foldr (λ it s, pretty it +:+ " " +:+ s) "" centers +:+ endl +:+
     "assignment : ")
    (foldr (λ i s, pretty (at_ 0%nat assignment i) +:+ " " +:+ s) ""
       (seq 1 (n T)) +:+ endl)).

(** [main()]: the exit status when [usage_example] returns. *)
Definition main {SS : StdSort} : outcome Z := _ ← usage_example; Returns 0.

(** * The vocabulary of the properties *)

(** ** Solutions of the capacitated k-center problem *)

(** The number of vertices that the assignment [a] gives to [c]. *)
Definition load (m : nat) (a : list nat) (c : nat) : nat :=
  length (filter (λ v, at_ 0%nat a v = c) (seq 1 m)).

(** [cs] and [a] solve the problem for radius [r]: at most [k] centers,
    every vertex assigned to a center within [r], at most [C] vertices per
    center. Distances are read from the precomputed table. *)
Definition is_cover (D : list (list Z)) (m : nat) (C k r : Z)
    (cs a : list nat) : Prop :=
  Z.of_nat (length cs) ≤ k ∧
  Forall (λ v, at_ 0%nat a v ∈ cs ∧ at2 D (at_ 0%nat a v) v ≤ r) (seq 1 m) ∧
  Forall (λ c, Z.of_nat (load m a c) ≤ C) cs.

#[export] Instance is_cover_dec D m C k r cs a :
  Decision (is_cover D m C k r cs a).
Proof. unfold is_cover. apply _. Defined.

(** ** The order of [reachable] *)

(** Vertices at the same distance from the root appear by ascending
    identifier. *)
Definition ties_ascending (D : list (list Z)) (l : list nat) : Prop :=
  ∀ i j x y, l !! i = Some x → l !! j = Some y → (i < j)%nat →
    at2 D root x = at2 D root y → (x < y)%nat.

(** No two vertices are at the same distance from the root. *)
Definition tie_free (D : list (list Z)) (m : nat) : Prop :=
  NoDup (at2 D root <$> seq 1 m).

(** [operator<] of the weight type is a strict total order. *)
Definition total_ltb {W} (ltb : W → W → bool) : Prop :=
  strict_weak ltb ∧ ∀ x y, ltb x y = false → ltb y x = false → x = y.

Definition tie_free_tree {W} {WT : WeightType W} (t : tree W) : Prop :=
  match raw_tables t with
  | Returns σ => tie_free (D σ) (n t)
  | _ => True
  end.

#[export] Instance tie_free_tree_dec {W} {WT : WeightType W} (t : tree W) :
  Decision (tie_free_tree t).
Proof.
  unfold tie_free_tree, tie_free. destruct (raw_tables t); apply _.
Defined.

(** ** Trees *)

(** The neighbours of [s] with the weights of the edges. *)
Definition adj (t : tree Z) (s : nat) : list (nat * Z) := at_ [] (con t) s.

(** [walk t l d]: [l] lists the vertices of a walk that never turns back
    on the edge it arrived by, from its last element to its head, and [d]
    is the sum of the weights along it. These are the walks that [dfs]
    follows. *)
Inductive walk (t : tree Z) : list nat → Z → Prop :=
| walk_start a : walk t [a] 0
| walk_step v w s l d :
    walk t (s :: l) d → (v, w) ∈ adj t s → head l ≠ Some v →
    walk t (v :: s :: l) (d + w).

(** A tree on the vertices [1 .. n] with non-negative weights: the
    adjacency lists are symmetric and name an edge once, any two vertices
    are joined by a walk, and no walk returns to its start. *)
Record well_formed (t : tree Z) : Prop := {
  wf_edge : ∀ s v w, (v, w) ∈ adj t s →
    s ∈ seq 1 (n t) ∧ v ∈ seq 1 (n t) ∧ 0 ≤ w ∧ (s, w) ∈ adj t v;
  wf_simple : ∀ s, NoDup (adj t s).*1;
  wf_connected : ∀ a v, a ∈ seq 1 (n t) → v ∈ seq 1 (n t) →
    ∃ l d, walk t (v :: l) d ∧ last (v :: l) = Some a;
  wf_acyclic : ∀ l d, walk t l d → head l = last l → length l = 1%nat;
}.

(** [dist t a v d]: the walk from [a] to [v] has weight [d], which is the
    distance between [a] and [v] in the tree. *)
Definition dist (t : tree Z) (a v : nat) (d : Z) : Prop :=
  ∃ l, walk t (v :: l) d ∧ last (v :: l) = Some a.

Record tables_ok (t : tree Z) (σ : tables (W := Z)) : Prop := {
  t_dist : ∀ a x d, a ∈ seq 1 (n t) → dist t a x d → at2 (D σ) a x = d;
  t_universe : ∀ a x d, a ∈ seq 1 (n t) → (a < x)%nat → dist t a x d →
    d ∈ distances σ;
  t_nonneg : ∀ y, y ∈ distances σ → 0 ≤ y;
  t_chain : ∀ x, x ∈ seq 1 (n t) → last (at_ [] (ancestors σ) x) = Some x;
}.

(** ** Recognising a tree *)

(** The directed edges [(s, v, w)] of the adjacency lists. *)
Definition edges (t : tree Z) : list (nat * nat * Z) :=
  flat_map (λ s, (λ e : nat * Z, (s, e.1, e.2)) <$> adj t s)
    (seq 0 (length (con t))).

(** The walks that continue [l] by one edge. *)
Definition extend (t : tree Z) (l : list nat) : list (list nat) :=
  match l with
  | [] => []
  | s :: rest =>
      (λ e : nat * Z, e.1 :: l)
        <$> filter (λ e : nat * Z, head rest ≠ Some e.1) (adj t s)
  end.

(** The walks of [k + 2] vertices. *)
Fixpoint walks (t : tree Z) (k : nat) : list (list nat) :=
  match k with
  | O => (λ e : nat * nat * Z, [e.1.2; e.1.1]) <$> edges t
  | S k => flat_map (extend t) (walks t k)
  end.

(** A test that a tree passes: the edges are in range, symmetric and of
    non-negative weight, no adjacency list names a vertex twice, no walk
    has [n + 2] vertices, no shorter walk is closed, and any two vertices
    are the ends of a walk. *)
Definition tree_check (t : tree Z) : Prop :=
  Forall (λ e : nat * nat * Z,
            e.1.1 ∈ seq 1 (n t) ∧ e.1.2 ∈ seq 1 (n t) ∧ 0 ≤ e.2 ∧
            (e.1.2, e.1.1, e.2) ∈ edges t) (edges t) ∧
  Forall (λ s, NoDup (adj t s).*1) (seq 0 (length (con t))) ∧
  walks t (n t) = [] ∧
  Forall (λ k, Forall (λ l, head l ≠ last l) (walks t k)) (seq 0 (n t)) ∧
  Forall (λ a, Forall (λ v, a = v ∨
            Exists (λ k, Exists (λ l, head l = Some v ∧ last l = Some a)
                           (walks t k)) (seq 0 (n t)))
            (seq 1 (n t))) (seq 1 (n t)).

#[export] Instance tree_check_dec t : Decision (tree_check t).
Proof. unfold tree_check. apply _. Defined.

(** ** Small trees *)

(** The tree of [usage_example]. *)
Definition star : tree Z :=
  add_edge (add_edge (add_edge (new_tree 4) 1 2 1) 1 3 3) 1 4 1.

Definition star_tables : tables := {|
  D := [[]; [0; 0; 1; 3; 1]; [0; 1; 0; 4; 2]; [0; 3; 4; 0; 4];
        [0; 1; 2; 4; 0]];
  ancestors := [[]; [1]; [1; 2]; [1; 3]; [1; 4]]%nat;
  distances := [1; 1; 2; 3; 4; 4];
|}.

(** A path [1 - 2 - 3] with unit weights. *)
Definition path3 : tree Z := add_edge (add_edge (new_tree 3) 1 2 1) 2 3 1.

(** Two vertices joined by an edge of weight 2. *)
Definition pair2 : tree Z := add_edge (new_tree 2) 1 2 2.

(** [1 - 2] of weight 3, [1 - 3] of weight 2, [2 - 4] of weight 1. *)
Definition fork4 : tree Z :=
  add_edge (add_edge (add_edge (new_tree 4) 1 2 3) 1 3 2) 2 4 1.

Definition fork4_tables : tables := {|
  D := [[]; [0; 0; 3; 2; 4]; [0; 3; 0; 5; 1]; [0; 2; 5; 0; 6];
        [0; 4; 1; 6; 0]];
  ancestors := [[]; [1]; [1; 2]; [1; 3]; [1; 2; 4]]%nat;
  distances := [1; 2; 3; 4; 5; 6];
|}.

(** [1 - 2], [1 - 3], [2 - 4], [2 - 5], all of weight 1. *)
Definition bush5 : tree Z :=
  add_edge (add_edge (add_edge (add_edge (new_tree 5) 1 2 1) 1 3 1) 2 4 1)
    2 5 1.

(** One edge of weight 1.5, and one of weight 2^32 + 1. *)
Definition half_edge : tree half := add_edge (new_tree 2) 1 2 (Half 3).

Definition wide_edge : tree Z := add_edge (new_tree 2) 1 2 (2 ^ 32 + 1).

(** ** Built graphs, cycles and pairs *)

(** The calls [add_edge(e.1.1, e.1.2, e.2)] for the edges [e] of a list,
    in the order of the list. *)
Definition add_edges {W} (t : tree W) (es : list (nat * nat * W)) : tree W :=
  foldl (λ t e, add_edge t e.1.1 e.1.2 e.2) t es.

(** What the edge [e] appends to the adjacency list of [s]. *)
Definition ends_at {W} (s : nat) (e : nat * nat * W) : list (nat * W) :=
  (if decide (e.1.1 = s) then [(e.1.2, e.2)] else []) ++
  (if decide (e.1.2 = s) then [(e.1.1, e.2)] else []).

(** [route t l]: [l] lists the vertices of a walk that never turns back on
    the edge it arrived by, from its last element to its head, whatever
    the weights are. *)
Inductive route {W} (t : tree W) : list nat → Prop :=
| route_start a : route t [a]
| route_step v s l :
    route t (s :: l) → v ∈ (at_ [] (con t) s).*1 → head l ≠ Some v →
    route t (v :: s :: l).

(** Some route from [beg] takes the same edge in the same direction
    twice. *)
Definition cycles {W} (t : tree W) (beg : nat) : Prop :=
  ∃ a b l1 l2,
    route t (b :: a :: l1 ++ b :: a :: l2) ∧
    last (b :: a :: l2) = Some beg.



(** The pairs [ (a, x) ] with [1 <= a < x <= m]. *)
Definition pairs (m : nat) : list (nat * nat) :=
  flat_map (λ a, (λ x, (a, x)) <$> seq (S a) (m - a)) (seq 1 m).

(** Two vertices joined by an edge, and a vertex on its own. *)
Definition apart3 : tree Z := add_edge (new_tree 3) 1 2 5.

(** An edge and a loop: not a tree, and the recursion of [dfs] ends. *)
Definition looped2 : tree Z := add_edge (add_edge (new_tree 2) 1 2 1) 2 2 1.

(** ** The range of [int] *)

(** The values of the 32-bit [int]. *)
Definition int_range (z : Z) : Prop := - 2 ^ 31 ≤ z < 2 ^ 31.

(** Every distance between two vertices fits [int]. The weights of a
    tree are not negative, so that every sum that [dfs] forms on the way
    is at most a distance, and fits as well. *)
Definition distances_fit (t : tree Z) : Prop :=
  ∀ a x d, a ∈ seq 1 (n t) → x ∈ seq 1 (n t) → dist t a x d → d < 2 ^ 31.

(** The other [int]s of a call of [k_centers] on [m] vertices: [k], [C],
    the product [k * C] of the assertion, and the sums [lo + hi] of two
    indices of [distances], which has [m (m - 1) / 2] elements. *)
Definition call_fits (m : nat) (C k : Z) : Prop :=
  int_range k ∧ int_range C ∧ int_range (k * C) ∧
  Z.of_nat m * Z.of_nat m < 2 ^ 31.

(** ** Trees whose distances leave [D] *)

(** A [tree<long long>]: [1 - 2] of weight 2^32 - 2, [2 - 4] and [3 - 4]
    of weight 2^32 - 1. *)
Definition wide4 : tree Z :=
  add_edge (add_edge (add_edge (new_tree 4) 1 2 (2 ^ 32 - 2))
              2 4 (2 ^ 32 - 1)) 3 4 (2 ^ 32 - 1).

(** A [tree<long long>]: the path [1 - 2 - 3] with weights 2^30. *)
Definition big3 : tree Z :=
  add_edge (add_edge (new_tree 3) 1 2 (2 ^ 30)) 2 3 (2 ^ 30).

(** A [tree<double>]: the path [1 - 2 - 3] with weights 1.5. *)
Definition half_path : tree half :=
  add_edge (add_edge (new_tree 3) 1 2 (Half 3)) 2 3 (Half 3).

(** A [tree<double>] with every weight doubled, which makes the weights
    integers: the distances of [in_halves t] are twice those of [t]. *)
Definition in_halves (t : tree half) : tree Z :=
  @Tree Z (n t)
    ((λ nb : list (nat * half), (λ e, (e.1, twice e.2)) <$> nb) <$> con t).

(** * Lemmas *)

(** ** Tactics *)

Ltac step_bind := unfold mbind, outcome_bind; cbv beta iota.

Ltac by_decide := apply (bool_decide_unpack _); vm_compute; exact I.

(** ** The two sorts meet the contract of [std::sort] *)

Lemma insert_sorted_perm {A} (comp : A → A → bool) x l :
  insert_sorted comp x l ≡ₚ x :: l.
Proof.
  induction l as [|y l IH]; simpl; [done|].
  destruct (comp y x); [|done].
  rewrite IH. apply Permutation_swap.
Qed.

Lemma insertion_sort_perm {A} (comp : A → A → bool) l :
  insertion_sort comp l ≡ₚ l.
Proof.
  induction l as [|x l IH]; simpl; [done|].
  by rewrite insert_sorted_perm, IH.
Qed.

Lemma strict_weak_asym {A} (comp : A → A → bool) x y :
  strict_weak comp → comp x y = true → comp y x = false.
Proof.
  intros (Hirr & Htr & _) Hxy.
  destruct (comp y x) eqn:Hyx; [|done].
  by rewrite <- (Hirr x), (Htr x y x).
Qed.

Lemma insert_sorted_ordered {A} (comp : A → A → bool) x l :
  strict_weak comp → ordered_by comp l →
  ordered_by comp (insert_sorted comp x l).
Proof.
  intros Hsw. unfold ordered_by.
  induction 1 as [|y l Hl IH Hy]; simpl.
  { repeat constructor. }
  destruct (comp y x) eqn:Hyx.
  - constructor; [done|].
    rewrite insert_sorted_perm. constructor; [|done].
    by apply strict_weak_asym.
  - constructor; [by constructor|].
    constructor; [done|].
    destruct Hsw as (_ & _ & Hneg).
    eapply Forall_impl; [exact Hy|].
    intros z Hz. by apply (Hneg z y x).
Qed.

Lemma insertion_sort_ordered {A} (comp : A → A → bool) l :
  strict_weak comp → ordered_by comp (insertion_sort comp l).
Proof.
  intros Hsw. induction l as [|x l IH]; simpl.
  - constructor.
  - by apply insert_sorted_ordered.
Qed.

#[export] Instance insertion_std_sort : StdSort := {
  std_sort := @insertion_sort;
  std_sort_perm := @insertion_sort_perm;
  std_sort_ordered := @insertion_sort_ordered;
}.

Lemma insert_behind_perm {A} (comp : A → A → bool) x l :
  insert_behind comp x l ≡ₚ x :: l.
Proof.
  induction l as [|y l IH]; simpl; [done|].
  destruct (comp x y); [done|].
  rewrite IH. apply Permutation_swap.
Qed.

Lemma reversing_sort_perm {A} (comp : A → A → bool) l :
  reversing_sort comp l ≡ₚ l.
Proof.
  induction l as [|x l IH]; simpl; [done|].
  by rewrite insert_behind_perm, IH.
Qed.

Lemma insert_behind_ordered {A} (comp : A → A → bool) x l :
  strict_weak comp → ordered_by comp l →
  ordered_by comp (insert_behind comp x l).
Proof.
  intros Hsw. unfold ordered_by.
  induction 1 as [|y l Hl IH Hy]; simpl.
  { repeat constructor. }
  destruct (comp x y) eqn:Hxy.
  - constructor; [by constructor|].
    constructor; [by apply strict_weak_asym|].
    eapply Forall_impl; [exact Hy|].
    intros z Hz. simpl in Hz.
    destruct (comp z x) eqn:Hzx; [|done].
    destruct Hsw as (_ & Htr & _). by rewrite (Htr z x y) in Hz.
  - constructor; [done|].
    rewrite insert_behind_perm. by constructor.
Qed.

Lemma reversing_sort_ordered {A} (comp : A → A → bool) l :
  strict_weak comp → ordered_by comp (reversing_sort comp l).
Proof.
  intros Hsw. induction l as [|x l IH]; simpl.
  - constructor.
  - by apply insert_behind_ordered.
Qed.

Definition reversing_std_sort : StdSort := {|
  std_sort := @reversing_sort;
  std_sort_perm := @reversing_sort_perm;
  std_sort_ordered := @reversing_sort_ordered;
|}.

(** Where no two elements are equivalent, the contract fixes the result. *)
Lemma std_sort_unique (S1 S2 : StdSort) {A} (comp : A → A → bool) l :
  strict_weak comp →
  (∀ x y, x ∈ l → y ∈ l → comp x y = false → comp y x = false → x = y) →
  @std_sort S1 A comp l = @std_sort S2 A comp l.
Proof.
  intros Hsw Htot.
  apply (StronglySorted_unique_strong (λ x y, comp y x = false)).
  - intros x y Hx Hy Hyx Hxy.
    rewrite (@std_sort_perm S1) in Hx. rewrite (@std_sort_perm S2) in Hy.
    by apply Htot.
  - by apply std_sort_ordered.
  - by apply std_sort_ordered.
  - by rewrite !std_sort_perm.
Qed.

Lemma ordered_by_impl {A} (comp : A → A → bool) (R : A → A → Prop) l :
  ordered_by comp l → (∀ x y, comp y x = false → R x y) →
  StronglySorted R l.
Proof.
  intros Hord Himpl. unfold ordered_by in Hord.
  induction Hord as [|x l Hl IH Hx]; constructor; [done|].
  eapply Forall_impl; [exact Hx|]. intros y. apply Himpl.
Qed.

Lemma std_sort_nil (S1 : StdSort) {A} (comp : A → A → bool) :
  std_sort comp [] = [].
Proof. apply Permutation_nil. symmetry. apply std_sort_perm. Qed.

(** ** Reasoning about outcomes *)

Lemma bind_Returns {A B} (m : outcome A) (f : A → outcome B) b :
  m ≫= f = Returns b → ∃ a, m = Returns a ∧ f a = Returns b.
Proof. destruct m; simpl; [eauto|done..]. Qed.

Ltac returns H :=
  let a := fresh "r" in
  let H1 := fresh H in
  apply bind_Returns in H as (a & H1 & H).

(** ** The candidate queue *)

Section Queue.
Context {W : Type} {WT : WeightType W}.

Lemma pset_insert_split (x : W * nat) s :
  pset_insert x s = s ∨
  ∃ s1 s2, s = s1 ++ s2 ∧ pset_insert x s = s1 ++ x :: s2.
Proof.
  induction s as [|y s IH]; simpl.
  { right. by exists [], []. }
  destruct (pair_ltb x y).
  { right. by exists [], (y :: s). }
  destruct (pair_ltb y x); [|by left].
  destruct IH as [->|(s1 & s2 & -> & ->)]; [by left|].
  right. by exists (y :: s1), s2.
Qed.

Lemma pset_insert_NoDup_snd (x : W * nat) s :
  x.2 ∉ s.*2 → NoDup s.*2 → NoDup (pset_insert x s).*2.
Proof.
  intros Hx Hs.
  destruct (pset_insert_split x s) as [->|(s1 & s2 & -> & ->)]; [done|].
  rewrite fmap_app, fmap_cons. rewrite fmap_app in Hx, Hs.
  apply NoDup_app in Hs as (H1 & H12 & H2).
  apply NoDup_app. split_and!; [done| |].
  - intros y Hy [->|Hy2]%elem_of_cons; [|by eapply H12].
    apply Hx, elem_of_app. by left.
  - constructor; [|done]. intros Hin. apply Hx, elem_of_app. by right.
Qed.

Lemma pset_insert_snd_elem (x : W * nat) s i :
  i ∈ (pset_insert x s).*2 → i = x.2 ∨ i ∈ s.*2.
Proof.
  destruct (pset_insert_split x s) as [->|(s1 & s2 & -> & ->)]; [by right|].
  rewrite !fmap_app, fmap_cons, !elem_of_app, elem_of_cons. tauto.
Qed.

End Queue.

(** ** The first loop of [check] *)

Section CheckInit.
Context {W : Type} {WT : WeightType W}.
Variables (t : tree W) (σ : tables (W := W)) (radius : W).

Definition st_step (st : list (W * nat)) (i : nat) : list (W * nat) :=
  match first_cover σ radius i with
  | Some it => pset_insert (w_of_int (- at2 (D σ) root it), i) st
  | None => st
  end.

Lemma check_init_fold l U f st :
  ∃ f', foldl (check_init_step σ radius) (U, f, st) l
        = (foldl (λ U i, set_insert i U) U l, f', foldl st_step st l).
Proof.
  revert U f st. induction l as [|i l IH]; intros U f st; simpl.
  { by exists f. }
  unfold st_step at 2. destruct (first_cover σ radius i); apply IH.
Qed.

Lemma st_fold_snd l st :
  NoDup l → NoDup st.*2 → (∀ i, i ∈ st.*2 → i ∉ l) →
  NoDup (foldl st_step st l).*2 ∧
  ∀ i, i ∈ (foldl st_step st l).*2 → i ∈ st.*2 ∨ i ∈ l.
Proof.
  revert st. induction l as [|j l IH]; intros st Hl Hst Hfresh; simpl.
  { split; [done|]. by left. }
  apply NoDup_cons in Hl as [Hj Hl].
  assert (NoDup (st_step st j).*2 ∧
          ∀ i, i ∈ (st_step st j).*2 → i = j ∨ i ∈ st.*2) as [Hnd Hel].
  { unfold st_step. destruct (first_cover σ radius j).
    - split.
      + apply pset_insert_NoDup_snd; [|done].
        intros Hin. apply (Hfresh _ Hin). by left.
      + intros i Hi. by apply pset_insert_snd_elem in Hi.
    - split; [done|]. by right. }
  destruct (IH (st_step st j)) as [IH1 IH2]; [done..| |].
  { intros i [->|Hi]%Hel; [done|].
    intros Hil. apply (Hfresh _ Hi). by right. }
  split; [done|].
  intros i [[->|Hi]%Hel|Hi]%IH2.
  - right. by left.
  - by left.
  - right. by right.
Qed.

Lemma set_insert_fresh x s :
  Forall (λ y, (y < x)%nat) s → set_insert x s = s ++ [x].
Proof.
  induction 1 as [|y s Hy Hs IH]; simpl; [done|].
  destruct (Nat.ltb_spec x y); [lia|].
  destruct (Nat.eqb_spec x y); [lia|].
  by rewrite IH.
Qed.

Lemma set_insert_seq a m :
  foldl (λ U i, set_insert i U) (seq a 0) (seq a m) = seq a m.
Proof.
  assert (∀ m j, foldl (λ U i, set_insert i U) (seq a j) (seq (a + j) m)
                 = seq a (j + m)) as H.
  { clear. intros m. induction m as [|m IH]; intros j; simpl.
    { by rewrite Nat.add_0_r. }
    rewrite set_insert_fresh.
    - replace (seq a j ++ [(a + j)%nat]) with (seq a (S j))
        by (by rewrite seq_S).
      replace (S (a + j)) with (a + S j)%nat by lia.
      rewrite IH. f_equal. lia.
    - apply Forall_forall. intros y Hy%elem_of_seq. lia. }
  specialize (H m 0%nat). by rewrite Nat.add_0_r in H.
Qed.

(** After the first loop [U] is [{1, ..., n}] and the queue holds at
    most one entry per vertex. *)
Lemma check_init_spec :
  ∃ f st, check_init t σ radius = (seq 1 (n t), f, st) ∧
    NoDup st.*2 ∧ ∀ i, i ∈ st.*2 → i ∈ seq 1 (n t).
Proof.
  unfold check_init.
  destruct (check_init_fold (seq 1 (n t)) [] (f_init t) []) as [f ->].
  exists f, (foldl st_step [] (seq 1 (n t))).
  split.
  { f_equal. f_equal. apply (set_insert_seq 1). }
  destruct (st_fold_snd (seq 1 (n t)) []) as [H1 H2].
  - apply NoDup_seq.
  - constructor.
  - intros i Hi. by apply elem_of_nil in Hi.
  - split; [done|]. intros i [Hi|Hi]%H2; [|done].
    by apply elem_of_nil in Hi.
Qed.

End CheckInit.

(** ** The greedy loop *)

Lemma filter_ext_elem {A} (P1 P2 : A → Prop)
    `{!∀ x, Decision (P1 x), !∀ x, Decision (P2 x)} (l : list A) :
  (∀ x, x ∈ l → P1 x ↔ P2 x) → filter P1 l = filter P2 l.
Proof.
  induction l as [|x l IH]; intros Hiff; [done|].
  rewrite !filter_cons.
  assert (P1 x ↔ P2 x) as Hx by (apply Hiff; by left).
  rewrite IH by (intros y Hy; apply Hiff; by right).
  repeat case_decide; tauto.
Qed.

Lemma assign_all_spec center R a U :
  ∃ a', assign_all center R a U = (a', filter (λ y, y ∉ R) U) ∧
    length a' = length a ∧
    (∀ v, v ∈ R → (v < length a)%nat → at_ 0%nat a' v = center) ∧
    (∀ v, v ∉ R → at_ 0%nat a' v = at_ 0%nat a v).
Proof.
  unfold assign_all. revert a U.
  induction R as [|x R IH]; intros a U; simpl.
  - exists a. split_and!; [|done| |done].
    + f_equal. induction U as [|y U IHU]; [done|].
      rewrite filter_cons_True; [by f_equal|]. apply not_elem_of_nil.
    + intros v Hv. by apply elem_of_nil in Hv.
  - destruct (IH (<[x:=center]> a) (set_erase x U))
      as (a' & -> & Hlen & Hin & Hout).
    rewrite length_insert in Hlen, Hin.
    exists a'. split_and!; [|done| |].
    + f_equal. unfold set_erase. rewrite list_filter_filter.
      apply list_filter_iff. intros y. rewrite elem_of_cons. tauto.
    + intros v Hv Hlt. destruct (decide (v ∈ R)) as [HR|HR]; [by apply Hin|].
      apply elem_of_cons in Hv as [->|?]; [|done].
      rewrite Hout by done. unfold at_.
      by rewrite list_lookup_insert_eq.
    + intros v [Hvx HvR]%not_elem_of_cons.
      rewrite Hout by done. unfold at_.
      by rewrite list_lookup_insert_ne.
Qed.

Section Greedy.
Context {W : Type} {WT : WeightType W} {SS : StdSort}.
Variables (σ : tables (W := W)) (C : Z) (radius : W).

Lemma deeper_strict_weak : strict_weak (deeper σ).
Proof.
  unfold deeper. split_and!; intros *; rewrite ?Z.gtb_ltb, ?Z.ltb_lt,
    ?Z.ltb_ge; lia.
Qed.

Lemma reachable_sorted_perm center U :
  reachable_sorted σ radius center U
    ≡ₚ filter (λ it, within σ radius center it = true) U.
Proof. apply std_sort_perm. Qed.

Lemma cap_take R : ∃ m, cap C R = take m R.
Proof.
  unfold cap. destruct (_ >? _); [by eexists|].
  exists (length R). by rewrite firstn_all.
Qed.

Lemma cap_length R : 0 ≤ C → Z.of_nat (length (cap C R)) ≤ C.
Proof.
  intros HC. unfold cap, to_size_t.
  destruct (Z.ltb_spec C 0); [lia|].
  destruct (Z.gtb_spec (Z.of_nat (length R)) C).
  - rewrite length_take. lia.
  - lia.
Qed.

(** What one iteration hands to the assignment loop. *)
Definition served (center : nat) (U : list nat) : list nat :=
  cap C (reachable_sorted σ radius center U).

Lemma served_spec center U :
  NoDup U →
  NoDup (served center U) ∧
  ∀ v, v ∈ served center U → v ∈ U ∧ within σ radius center v = true.
Proof.
  intros HU. unfold served.
  destruct (cap_take (reachable_sorted σ radius center U)) as [m ->].
  split.
  - eapply sublist_NoDup; [|apply sublist_take].
    rewrite reachable_sorted_perm. by apply NoDup_filter.
  - intros v Hv. apply elem_of_take in Hv as (i & Hv & _).
    apply list_elem_of_lookup_2 in Hv.
    rewrite reachable_sorted_perm in Hv.
    by apply list_elem_of_filter in Hv as [? ?].
Qed.

(** The state that the loop keeps between iterations, for a tree of [m]
    vertices: no center is opened twice, and every vertex that has left
    [U] is served by an opened center within [radius], no center serving
    more than [C] vertices. *)
Record greedy_inv (m : nat) (U : list nat) (st : list (W * nat))
    (cs a : list nat) : Prop := {
  gi_centers : NoDup (cs ++ st.*2);
  gi_centers_range : ∀ c, c ∈ cs ++ st.*2 → c ∈ seq 1 m;
  gi_U : NoDup U;
  gi_U_range : ∀ v, v ∈ U → v ∈ seq 1 m;
  gi_length : length a = S m;
  gi_served : ∀ v, v ∈ seq 1 m → v ∉ U →
    at_ 0%nat a v ∈ cs ∧ within σ radius (at_ 0%nat a v) v = true;
  gi_load : 0 ≤ C → ∀ c,
    Z.of_nat (length (filter (λ v, (v ∉ U) ∧ at_ 0%nat a v = c) (seq 1 m)))
    ≤ C;
}.

Lemma greedy_inv_step m U top st cs a a' :
  greedy_inv m U (top :: st) cs a →
  assign_all top.2 (served top.2 U) a U
    = (a', filter (λ y, y ∉ served top.2 U) U) →
  length a' = length a →
  (∀ v, v ∈ served top.2 U → (v < length a)%nat → at_ 0%nat a' v = top.2) →
  (∀ v, v ∉ served top.2 U → at_ 0%nat a' v = at_ 0%nat a v) →
  greedy_inv m (filter (λ y, y ∉ served top.2 U) U) st (cs ++ [top.2]) a'.
Proof.
  intros [Hcs Hcr HU Hrange Hlen Hserved Hload] _ Hlen' Hin Hout.
  destruct (served_spec top.2 U HU) as [HR HRU].
  set (R := served top.2 U) in *.
  assert (top.2 ∉ cs) as Hfresh.
  { apply NoDup_app in Hcs as (_ & Hcs & _). intros Hc.
    apply (Hcs _ Hc). simpl. by left. }
  assert (∀ v, v ∈ seq 1 m → v ∉ filter (λ y, y ∉ R) U →
               v ∈ R ∨ ((v ∉ R) ∧ v ∉ U)) as Hleft.
  { intros v _ Hv. destruct (decide (v ∈ R)); [by left|right].
    split; [done|]. intros HvU. apply Hv. by apply list_elem_of_filter. }
  split.
  - simpl in Hcs. by rewrite <- (assoc_L (++)).
  - intros c Hc. apply Hcr. by rewrite <- (assoc_L (++)) in Hc.
  - by apply NoDup_filter.
  - intros v [_ Hv]%list_elem_of_filter. by apply Hrange.
  - congruence.
  - intros v Hv Hnot. destruct (Hleft v Hv Hnot) as [HvR|[HvR HvU]].
    + rewrite Hin; [| done |].
      * split; [apply elem_of_app; right; by left|by apply HRU].
      * rewrite Hlen. apply elem_of_seq in Hv. lia.
    + rewrite Hout by done. destruct (Hserved v Hv HvU) as [? ?].
      split; [apply elem_of_app; by left|done].
  - intros HC c. destruct (decide (c = top.2)) as [->|Hc].
    + transitivity (Z.of_nat (length R)); [|by apply cap_length].
      apply inj_le, submseteq_length, NoDup_submseteq.
      { apply NoDup_filter, NoDup_seq. }
      intros v [[Hnot Hv] Hseq]%list_elem_of_filter.
      destruct (Hleft v Hseq Hnot) as [HvR|[HvR HvU]]; [done|].
      rewrite Hout in Hv by done.
      destruct (Hserved v Hseq HvU) as [Hcs' _]. congruence.
    + etransitivity; [|apply (Hload HC c)].
      apply inj_le, Nat.eq_le_incl. f_equal.
      apply filter_ext_elem. intros v Hseq. split.
      * intros [Hnot Hv]. destruct (Hleft v Hseq Hnot) as [HvR|[HvR HvU]].
        -- rewrite Hin in Hv; [congruence|done|].
           rewrite Hlen. apply elem_of_seq in Hseq. lia.
        -- rewrite Hout in Hv by done. done.
      * intros [HvU Hv].
        assert (v ∉ R) as HvR by (intros HvR; by apply HRU in HvR as [? _]).
        rewrite Hout by done. split; [|done].
        intros [_ ?]%list_elem_of_filter. done.
Qed.

Lemma greedy_inv_final m rounds U st cs a U' ans :
  greedy_inv m U st cs a →
  greedy σ C radius rounds U st cs a = Returns (U', ans) →
  ∃ st', greedy_inv m U' st' (centers ans) (assignment ans) ∧
    (length (centers ans) ≤ length cs + rounds)%nat.
Proof.
  revert U st cs a.
  induction rounds as [|rounds IH]; intros U st cs a Hinv Hrun; simpl in Hrun.
  { injection Hrun as <- <-. exists st. split; [done|simpl; lia]. }
  destruct U as [|u U].
  { injection Hrun as <- <-. exists st. split; [done|simpl; lia]. }
  destruct st as [|top st]; [done|].
  fold (served top.2 (u :: U)) in Hrun.
  destruct (assign_all_spec top.2 (served top.2 (u :: U)) a (u :: U))
    as (a' & Heq & Hlen & Hin & Hout).
  rewrite Heq in Hrun.
  apply IH in Hrun as (st' & Hinv' & Hlen').
  - exists st'. split; [done|]. rewrite length_app in Hlen'. simpl in Hlen'.
    lia.
  - by eapply greedy_inv_step.
Qed.

Lemma check_spec (t : tree W) k ans b ans' :
  length (assignment ans) = S (n t) →
  check t σ C k radius ans = Returns (b, ans') →
  NoDup (centers ans') ∧
  (length (centers ans') ≤ Z.to_nat k)%nat ∧
  (∀ c, c ∈ centers ans' → c ∈ seq 1 (n t)) ∧
  length (assignment ans') = S (n t) ∧
  (b = true →
   (∀ v, v ∈ seq 1 (n t) →
      at_ 0%nat (assignment ans') v ∈ centers ans' ∧
      within σ radius (at_ 0%nat (assignment ans') v) v = true) ∧
   (0 ≤ C → ∀ c, Z.of_nat (load (n t) (assignment ans') c) ≤ C)).
Proof.
  intros Hlen Hrun. unfold check in Hrun.
  destruct (check_init_spec t σ radius) as (f & st & Hinit & Hst & Hrange).
  rewrite Hinit in Hrun. returns Hrun. destruct r as [U' ans'']. injection Hrun as <- <-.
  apply (greedy_inv_final (n t)) in Hrun0 as (st' & Hinv & Hk).
  - destruct Hinv as [Hcs Hcr HU HUr Hlen' Hserved Hload].
    split_and!; [by apply NoDup_app in Hcs as (? & _)|done| |done|].
    { intros c Hc. apply Hcr, elem_of_app. by left. }
    intros ->%bool_decide_eq_true. split.
    + intros v Hv. apply Hserved; [done|apply not_elem_of_nil].
    + intros HC c. etransitivity; [|apply (Hload HC c)].
      apply inj_le, Nat.eq_le_incl. unfold load. f_equal.
      apply list_filter_iff. intros v. split; [|by intros [_ ?]].
      intros ?. split; [apply not_elem_of_nil|done].
  - split; simpl; [done|done|apply NoDup_seq|done|done| |].
    + intros v Hv Hnot. done.
    + intros HC c. rewrite (filter_ext_elem _ (λ _, False)) by tauto.
      clear -HC. induction (seq 1 (n t)) as [|x l IH]; [simpl; lia|].
      rewrite filter_cons_False; [done|tauto].
Qed.

End Greedy.

(** ** The radius search *)

Section Search.
Context {W : Type} {WT : WeightType W} {SS : StdSort}.
Variables (t : tree W) (σ : tables (W := W)) (C k : Z).

Lemma dist_at_Returns i r :
  dist_at σ i = Returns r →
  0 ≤ i ∧ distances σ !! Z.to_nat i = Some r.
Proof.
  unfold dist_at. destruct (Z.ltb_spec i 0); [done|].
  destruct (distances σ !! Z.to_nat i); [|done].
  intros [= ->]. by split.
Qed.

Lemma search_length fuel lo hi ans lo' ans' :
  length (assignment ans) = S (n t) →
  search t σ C k fuel lo hi ans = Returns (lo', ans') →
  length (assignment ans') = S (n t).
Proof.
  revert lo hi ans.
  induction fuel as [|fuel IH]; intros lo hi ans Hlen Hrun; simpl in Hrun.
  - destruct (lo <? hi); [done|]. by injection Hrun as <- <-.
  - destruct (lo <? hi); [|by injection Hrun as <- <-].
    returns Hrun. returns Hrun. destruct r0 as [ok ans1].
    apply check_spec in Hrun1 as (_ & _ & _ & Hlen1 & _); [|done].
    destruct ok; eapply IH; eauto.
Qed.

End Search.

(** What a returning call of [k_centers] went through: the tables, the
    index the search stopped at, and the last call of [check]. *)
Lemma k_centers_Returns {W} {WT : WeightType W} {SS : StdSort}
    (t : tree W) C k r cs a :
  k_centers t C k = Returns (r, cs, a) →
  ∃ σ lo ans0 ok ans,
    Z.of_nat (n t) ≤ k * C ∧
    precompute t = Returns σ ∧
    search t σ C k (length (distances σ)) 0
      (Z.of_nat (length (distances σ)) - 1)
      (Answer [] (replicate (S (n t)) 0%nat)) = Returns (lo, ans0) ∧
    length (assignment ans0) = S (n t) ∧
    dist_at σ lo = Returns r ∧
    check t σ C k r ans0 = Returns (ok, ans) ∧
    cs = centers ans ∧ a = assignment ans.
Proof.
  unfold k_centers. intros Hrun.
  destruct (Z.ltb_spec (k * C) (Z.of_nat (n t))); [done|].
  returns Hrun. rename r0 into σ.
  returns Hrun. destruct r0 as [lo ans0].
  returns Hrun. returns Hrun. destruct r1 as [ok ans].
  injection Hrun as <- <- <-.
  exists σ, lo, ans0, ok, ans. split_and!; try done.
  eapply search_length; [|done]. simpl. by rewrite length_replicate.
Qed.

(** ** Trees on which the result does not depend on the sort *)

Lemma NoDup_fmap_inj_on {A B} (f : A → B) l x y :
  NoDup (f <$> l) → x ∈ l → y ∈ l → f x = f y → x = y.
Proof.
  induction l as [|z l IH]; simpl; intros Hnd Hx Hy Hxy.
  { by apply elem_of_nil in Hx. }
  apply NoDup_cons in Hnd as [Hz Hnd].
  apply elem_of_cons in Hx as [->|Hx]; apply elem_of_cons in Hy as [->|Hy].
  - done.
  - exfalso. apply Hz. rewrite Hxy. by apply list_elem_of_fmap_2.
  - exfalso. apply Hz. rewrite <- Hxy. by apply list_elem_of_fmap_2.
  - by apply IH.
Qed.

Section AnySort.
Context {W : Type} {WT : WeightType W}.
Variables (S1 S2 : StdSort) (σ : tables (W := W)) (C : Z).
Variable m : nat.
Hypothesis Htie : tie_free (D σ) m.

Lemma reachable_any_sort radius center U :
  (∀ v, v ∈ U → v ∈ seq 1 m) →
  @reachable_sorted W WT S1 σ radius center U
  = @reachable_sorted W WT S2 σ radius center U.
Proof.
  intros HU. unfold reachable_sorted.
  apply std_sort_unique; [apply deeper_strict_weak|].
  intros x y [_ Hx%HU]%list_elem_of_filter [_ Hy%HU]%list_elem_of_filter.
  unfold deeper. rewrite !Z.gtb_ltb, !Z.ltb_ge. intros H1 H2.
  apply (NoDup_fmap_inj_on (at2 (D σ) root) (seq 1 m)); [done..|lia].
Qed.

Lemma greedy_any_sort radius rounds U st cs a :
  (∀ v, v ∈ U → v ∈ seq 1 m) →
  @greedy W WT S1 σ C radius rounds U st cs a
  = @greedy W WT S2 σ C radius rounds U st cs a.
Proof.
  revert U st cs a.
  induction rounds as [|rounds IH]; intros U st cs a HU; simpl; [done|].
  destruct U as [|u U]; [done|]. destruct st as [|top st]; [done|].
  rewrite (reachable_any_sort radius top.2 (u :: U) HU).
  destruct (assign_all_spec top.2
    (cap C (@reachable_sorted W WT S2 σ radius top.2 (u :: U))) a (u :: U))
    as (a' & -> & _).
  apply IH. intros v [_ Hv]%list_elem_of_filter. by apply HU.
Qed.

Lemma check_any_sort (t : tree W) k radius ans :
  n t = m →
  @check W WT S1 t σ C k radius ans = @check W WT S2 t σ C k radius ans.
Proof.
  intros Hn. unfold check.
  destruct (check_init_spec t σ radius) as (f & st & -> & _ & _).
  rewrite greedy_any_sort; [done|]. by rewrite Hn.
Qed.

Lemma search_any_sort (t : tree W) k fuel lo hi ans :
  n t = m →
  @search W WT S1 t σ C k fuel lo hi ans
  = @search W WT S2 t σ C k fuel lo hi ans.
Proof.
  intros Hn. revert lo hi ans.
  induction fuel as [|fuel IH]; intros lo hi ans; simpl; [done|].
  destruct (lo <? hi); [|done].
  destruct (dist_at σ _) as [r| | |]; simpl; [|done..].
  rewrite (check_any_sort t k r ans Hn).
  destruct (@check W WT S2 t σ C k r ans) as [[[] ans']| | |]; simpl;
    by rewrite ?IH.
Qed.

End AnySort.

Lemma k_centers_any_sort {W} {WT : WeightType W} (S1 S2 : StdSort)
    (t : tree W) C k :
  total_ltb (w_ltb (W := W)) → tie_free_tree t →
  @k_centers W WT S1 t C k = @k_centers W WT S2 t C k.
Proof.
  intros [Hsw Hanti] Htie. unfold k_centers, precompute.
  destruct (_ <? _); [done|].
  unfold tie_free_tree in Htie.
  destruct (raw_tables t) as [σ| | |]; simpl; [|done..].
  rewrite (std_sort_unique S1 S2 w_ltb (distances σ) Hsw)
    by (intros; by apply Hanti).
  set (σ' := Tables (D σ) (ancestors σ) (@std_sort S2 _ w_ltb (distances σ))).
  rewrite (search_any_sort S1 S2 σ' C (n t) Htie t k _ _ _ _ eq_refl).
  destruct (@search W WT S2 t σ' C k _ _ _ _) as [[lo ans]| | |]; simpl;
    [|done..].
  destruct (dist_at σ' lo) as [r| | |]; simpl; [|done..].
  by rewrite (check_any_sort S1 S2 σ' C (n t) Htie t k r ans eq_refl).
Qed.

Lemma int_total_ltb : total_ltb (w_ltb (W := Z)).
Proof.
  split; [split_and!|]; simpl; intros *; rewrite ?Z.ltb_lt, ?Z.ltb_ge; lia.
Qed.

Lemma precompute_any_sort {W} {WT : WeightType W} (S1 S2 : StdSort)
    (t : tree W) :
  total_ltb (w_ltb (W := W)) →
  @precompute W WT S1 t = @precompute W WT S2 t.
Proof.
  intros [Hsw Hanti]. unfold precompute.
  destruct (raw_tables t) as [σ| | |]; simpl; [|done..].
  by rewrite (std_sort_unique S1 S2 w_ltb (distances σ) Hsw)
    by (intros; by apply Hanti).
Qed.

Lemma half_total_ltb : total_ltb (w_ltb (W := half)).
Proof.
  split; [split_and!|]; simpl.
  - intros x. apply Z.ltb_irrefl.
  - intros x y z. rewrite !Z.ltb_lt. lia.
  - intros x y z. rewrite !Z.ltb_ge. lia.
  - intros [x] [y]. simpl. rewrite !Z.ltb_ge. intros. f_equal. lia.
Qed.

Lemma long_long_total_ltb : total_ltb (@w_ltb Z long_long_weight).
Proof. exact int_total_ltb. Qed.

Ltac any_sort lawful :=
  match goal with
  | SS : StdSort |- _ =>
      first [ rewrite (k_centers_any_sort SS insertion_std_sort)
                by (first [exact lawful | by_decide])
            | rewrite (precompute_any_sort SS insertion_std_sort)
                by exact lawful ]
  end.

(** ** The tables of the small trees *)

Lemma fork4_precompute (SS : StdSort) :
  precompute fork4 = Returns fork4_tables.
Proof. any_sort int_total_ltb. vm_compute. reflexivity. Qed.

Lemma fork4_tie_free : tie_free (D fork4_tables) 4.
Proof. by_decide. Qed.

Lemma star_precompute (SS : StdSort) : precompute star = Returns star_tables.
Proof. any_sort int_total_ltb. vm_compute. reflexivity. Qed.

(** ** Walks of a tree *)

Lemma head_rev_last {A} (l : list A) : head (rev l) = last l.
Proof.
  induction l as [|x l IH] using rev_ind; [done|].
  by rewrite rev_unit, last_snoc.
Qed.

Lemma head_app_rev_last {A} (q l : list A) x :
  head (rev (x :: q) ++ l) = last (x :: q).
Proof.
  rewrite <- head_rev_last. destruct (rev (x :: q)) eqn:E; [|done].
  apply (f_equal length) in E. by rewrite length_rev in E.
Qed.

Section Walks.
Variable t : tree Z.
Hypothesis WF : well_formed t.

Lemma walk_nonempty l d : walk t l d → l ≠ [].
Proof. by destruct 1. Qed.

Lemma walk_nonneg l d : walk t l d → 0 ≤ d.
Proof.
  induction 1 as [|v w s l d _ IH Hvw _]; [done|].
  apply (wf_edge t WF) in Hvw as (_ & _ & ? & _). lia.
Qed.

Lemma walk_range l d a :
  walk t l d → last l = Some a → a ∈ seq 1 (n t) →
  ∀ x, x ∈ l → x ∈ seq 1 (n t).
Proof.
  induction 1 as [b|v w s l d _ IH Hvw _]; intros Ha Hrange x Hx.
  - apply list_elem_of_singleton in Hx as ->. by injection Ha as ->.
  - apply elem_of_cons in Hx as [->|Hx].
    + by apply (wf_edge t WF) in Hvw as (_ & ? & _).
    + by apply IH.
Qed.

(** The first part of a walk is a walk, and so is the last part. *)
Lemma walk_suffix pre l d :
  walk t (pre ++ l) d → l ≠ [] → ∃ d', walk t l d'.
Proof.
  revert d. induction pre as [|x pre IH]; intros d Hw Hl; [by exists d|].
  inversion Hw as [a Heq|v w s l' d' Hw' Hvw Hnb [Hv Heq]]; subst.
  - destruct pre, l; done.
  - apply (IH d'); [|done]. by rewrite <- Heq.
Qed.

Lemma walk_drop_start l l2 d :
  l ≠ [] → walk t (l ++ l2) d → ∃ d', walk t l d'.
Proof.
  revert d. induction l as [|x l IH]; intros d Hl Hw; [done|].
  destruct l as [|y l].
  { exists 0. constructor. }
  inversion Hw as [|v w s l' d0 Hw' Hvw Hnb]; subst.
  destruct (IH d0) as [d' Hd']; [done|done|].
  exists (d' + w). constructor; [done..|].
  by destruct l.
Qed.

(** A walk can be walked back from its end. *)
Lemma walk_back q : ∀ v l d d',
  walk t (v :: q) d' → walk t (v :: l) d →
  (q = [] ∨ head q ≠ head l) →
  walk t (rev q ++ v :: l) (d + d').
Proof.
  induction q as [|s q IH]; intros v l d d' Hq Hl Hne.
  - inversion Hq; subst. simpl. by rewrite Z.add_0_r.
  - inversion Hq as [|v' w s' q' d0 Hq' Hvw Hnb]; subst.
    apply (wf_edge t WF) in Hvw as (_ & _ & _ & Hsym).
    simpl. rewrite <- (assoc_L (++)). simpl.
    replace (d + (d0 + w)) with ((d + w) + d0) by lia.
    apply IH; [done| |].
    + constructor; [done..|].
      destruct Hne as [?|Hne]; [done|]. intros Heq. by rewrite Heq in Hne.
    + destruct q; [by left|right]. simpl in *. congruence.
Qed.

Lemma walk_rev l d : walk t l d → walk t (rev l) d.
Proof.
  intros Hw. destruct l as [|v q]; [by apply walk_nonempty in Hw|].
  simpl. change (rev q ++ [v]) with (rev q ++ v :: []).
  replace d with (0 + d) by lia.
  apply walk_back; [done|constructor|].
  destruct q; [by left|by right].
Qed.

(** Two walks with the same ends are the same walk. *)
Lemma walk_unique_list l d :
  walk t l d → ∀ l' d', walk t l' d' →
  head l = head l' → last l = last l' → l = l'.
Proof.
  induction 1 as [a|v w s l d Hw IH Hvw Hnb]; intros l' d' Hw' Hhead Hlast.
  - assert (length l' = 1%nat) as Hlen.
    { apply (wf_acyclic t WF l' d' Hw'). by rewrite <- Hhead, <- Hlast. }
    destruct l' as [|b [|]]; simplify_eq/=. done.
  - pose proof (walk_step t _ _ _ _ _ Hw Hvw Hnb) as Hwl.
    destruct l' as [|v' [|s' l0]]; [done| |].
    + exfalso. injection Hhead as <-.
      assert (length (v :: s :: l) = 1%nat) as Hlen; [|done].
      apply (wf_acyclic t WF _ _ Hwl). by rewrite Hlast.
    + injection Hhead as <-.
      destruct (decide (s = s')) as [<-|Hne].
      { f_equal. inversion Hw'; subst. by eapply IH. }
      exfalso.
      assert (walk t (rev (s' :: l0) ++ v :: s :: l) (d + w + d')) as Hc.
      { apply walk_back; [done..|]. right. simpl. congruence. }
      apply (wf_acyclic t WF) in Hc.
      * rewrite length_app, length_rev in Hc. simpl in Hc. lia.
      * rewrite head_app_rev_last, last_app_cons. done.
Qed.

Lemma walk_weight_unique l d d' : walk t l d → walk t l d' → d = d'.
Proof.
  intros Hw. revert d'.
  induction Hw as [a|v w s l d Hw IH Hvw Hnb]; intros d' Hw'.
  - by inversion Hw'.
  - inversion Hw' as [|v' w' s' l' d0 Hw0 Hvw' Hnb']; subst.
    rewrite (IH d0 Hw0). f_equal.
    assert ((v, w) = (v, w')) as [=]; [|done].
    by apply (NoDup_fmap_inj_on fst (adj t s)); [apply (wf_simple t WF)|..].
Qed.

Lemma walk_unique l d l' d' :
  walk t l d → walk t l' d' → head l = head l' → last l = last l' →
  l = l' ∧ d = d'.
Proof.
  intros Hw Hw' Hhead Hlast.
  assert (l = l') as <- by (by eapply walk_unique_list).
  split; [done|]. by eapply walk_weight_unique.
Qed.

(** A walk visits no vertex twice, so it has at most [n] vertices. *)
Lemma walk_NoDup l d : walk t l d → NoDup l.
Proof.
  induction 1 as [a|v w s l d Hw IH Hvw Hnb].
  { apply NoDup_singleton. }
  constructor; [|done]. intros Hin.
  apply list_elem_of_split in Hin as (l1 & l2 & Heq).
  pose proof (walk_step t _ _ _ _ _ Hw Hvw Hnb) as Hwl.
  rewrite Heq in Hwl.
  destruct (walk_drop_start (v :: l1 ++ [v]) l2 (d + w)) as [d' Hc]; [done| |].
  { by rewrite <- app_comm_cons, <- (assoc_L (++)). }
  apply (wf_acyclic t WF) in Hc.
  - simpl in Hc. rewrite length_app in Hc. simpl in Hc. lia.
  - simpl. by rewrite last_cons, last_snoc.
Qed.

Lemma walk_length l d a :
  walk t l d → last l = Some a → a ∈ seq 1 (n t) → (length l ≤ n t)%nat.
Proof.
  intros Hw Ha Hrange.
  rewrite <- (length_seq (n t) 1).
  apply submseteq_length, NoDup_submseteq; [by eapply walk_NoDup|].
  by eapply walk_range.
Qed.

Lemma dist_refl a : dist t a a 0.
Proof. exists []. split; [constructor|done]. Qed.

Lemma dist_unique a v d d' : dist t a v d → dist t a v d' → d = d'.
Proof.
  intros (l & Hw & Hl) (l' & Hw' & Hl').
  destruct (walk_unique _ _ _ _ Hw Hw') as [_ ?]; [done|congruence|done].
Qed.

Lemma dist_sym a v d : dist t a v d → dist t v a d.
Proof.
  intros (l & Hw & Hl). apply walk_rev in Hw.
  destruct (rev (v :: l)) as [|x l'] eqn:Hrev.
  { by apply walk_nonempty in Hw. }
  assert (x = a) as ->.
  { assert (head (rev (v :: l)) = Some a) as Hh
      by (by rewrite head_rev_last).
    rewrite Hrev in Hh. by injection Hh. }
  exists l'. split; [done|].
  rewrite <- Hrev, <- head_rev_last, rev_involutive. done.
Qed.

Lemma dist_nonneg a v d : dist t a v d → 0 ≤ d.
Proof. intros (l & Hw & _). by eapply walk_nonneg. Qed.

Lemma dist_total a v :
  a ∈ seq 1 (n t) → v ∈ seq 1 (n t) → ∃ d, dist t a v d.
Proof.
  intros Ha Hv. destruct (wf_connected t WF a v Ha Hv) as (l & d & ? & ?).
  exists d, l. done.
Qed.

End Walks.

(** ** The traversal on a tree *)

Section Traversal.
Variable t : tree Z.
Hypothesis WF : well_formed t.
Variable beg : nat.

(** [s :: l] is the path from [beg] to the vertex [s] that [dfs] is
    called on, and [d] its weight. *)
Definition on_path (s : nat) (l : list nat) (d : Z) : Prop :=
  walk t (s :: l) d ∧ last (s :: l) = Some beg.

(** [x] lies below the path [s :: l]. *)
Definition below (s : nat) (l : list nat) (x : nat) : Prop :=
  ∃ pre d, walk t (pre ++ s :: l) d ∧ head (pre ++ s :: l) = Some x.

Lemma below_self s l d : walk t (s :: l) d → below s l s.
Proof. intros Hw. by exists [], d. Qed.

Lemma below_child s l v x : below v (s :: l) x → below s l x.
Proof.
  intros (pre & d & Hw & Hx). exists (pre ++ [v]), d.
  by rewrite <- (assoc_L (++)).
Qed.

Lemma below_cases s l x :
  below s l x →
  x = s ∨ ∃ v w, (v, w) ∈ adj t s ∧ Some v ≠ head l ∧ below v (s :: l) x.
Proof.
  intros (pre & d & Hw & Hx).
  destruct pre as [|y pre _] using rev_ind.
  { left. simpl in Hx. by injection Hx. }
  right. rewrite <- (assoc_L (++)) in Hw, Hx. simpl in Hw, Hx.
  destruct (walk_suffix t pre (y :: s :: l) d Hw) as [d' Hw']; [done|].
  inversion Hw' as [|v w s' l' d0 Hw0 Hvw Hnb]; subst.
  exists y, w. split_and!; [done|congruence|by exists pre, d].
Qed.

(** An invariant [I] of the tables that every visit keeps, and a
    property [J x] that the visit of [x] establishes and every visit
    keeps: [dfs] keeps [I] and establishes [J] below its path. *)
Section Generic.
Variables (I : tables (W := Z) → Prop) (J : nat → tables (W := Z) → Prop).
Hypothesis visit : ∀ s l d σ,
  on_path s l d → I σ →
  I (dfs_visit beg s (head l) d σ) ∧
  J s (dfs_visit beg s (head l) d σ) ∧
  ∀ x, J x σ → J x (dfs_visit beg s (head l) d σ).

Lemma dfs_generic fuel : ∀ s l d σ σ',
  on_path s l d → I σ →
  dfs t fuel beg s (head l) d σ = Returns σ' →
  I σ' ∧ (∀ x, J x σ → J x σ') ∧ (∀ x, below s l x → J x σ').
Proof.
  induction fuel as [|fuel IH]; intros s l d σ σ' Hpath HI Hrun; [done|].
  simpl in Hrun.
  destruct (visit s l d σ Hpath HI) as (HI1 & HJs & HJ1).
  set (σ1 := dfs_visit beg s (head l) d σ) in *.
  assert (∀ nb σa σb,
    (∀ e, e ∈ nb → e ∈ adj t s) → I σa →
    dfs_neighbours (dfs t fuel beg) s (head l) d nb σa = Returns σb →
    I σb ∧ (∀ x, J x σa → J x σb) ∧
    (∀ v w x, (v, w) ∈ nb → Some v ≠ head l → below v (s :: l) x → J x σb))
    as Hloop.
  { clear Hrun. induction nb as [|[v w] nb IHnb]; intros σa σb Hnb HIa Hrun.
    { injection Hrun as <-. split_and!; [done..|].
      intros v w x H. by apply elem_of_nil in H. }
    simpl in Hrun.
    assert (∀ e, e ∈ nb → e ∈ adj t s) as Hnb'
      by (intros e He; apply Hnb; by right).
    destruct (decide (Some v ≠ head l)) as [Hvp|Hvp].
    - returns Hrun. rename r into σc.
      destruct (IH v (s :: l) (d + w) σa σc) as (HIc & HJc & Hbelow);
        [|done|done|].
      { destruct Hpath as [Hw Hlast]. split; [|done].
        constructor; [done|apply Hnb; by left|congruence]. }
      destruct (IHnb σc σb Hnb' HIc Hrun) as (HIb & HJb & Hrest).
      split_and!; [done|by auto|].
      intros v' w' x [[= -> ->]|Hin]%elem_of_cons Hne Hx.
      + by apply HJb, Hbelow.
      + by eapply Hrest.
    - destruct (IHnb σa σb Hnb' HIa Hrun) as (HIb & HJb & Hrest).
      split_and!; [done..|].
      intros v' w' x [[= -> ->]|Hin]%elem_of_cons Hne Hx; [done|].
      by eapply Hrest. }
  destruct (Hloop (adj t s) σ1 σ') as (HI' & HJ' & Hcov); [done..|].
  split_and!; [done|by auto|].
  intros x [->|(v & w & Hvw & Hne & Hx)]%below_cases; [by apply HJ'|].
  by eapply Hcov.
Qed.

End Generic.

Hypothesis Hbeg : beg ∈ seq 1 (n t).

Lemma on_path_range s l d : on_path s l d → s ∈ seq 1 (n t).
Proof.
  intros [Hw Hlast]. eapply walk_range; [done..|]. by left.
Qed.

Lemma on_path_dist s l d : on_path s l d → dist t beg s d.
Proof. intros [Hw Hlast]. by exists l. Qed.

Lemma dist_below x d : dist t beg x d → below beg [] x.
Proof.
  intros (l & Hw & Hlast).
  apply last_Some in Hlast as [pre Heq].
  exists pre, d. by rewrite <- Heq.
Qed.

(** What the traversal from [beg] keeps: the shape of the tables, the
    rows of the other start vertices, the distances recorded so far. *)
Record keeps (σ0 σ : tables (W := Z)) : Prop := {
  k_rows : length (D σ) = S (n t);
  k_row : length (at_ [] (D σ) beg) = S (n t);
  k_chains : length (ancestors σ) = S (n t);
  k_others : ∀ a, a ≠ beg → at_ [] (D σ) a = at_ [] (D σ0) a;
  k_distances : ∀ y, y ∈ distances σ0 → y ∈ distances σ;
  k_nonneg : ∀ y, y ∈ distances σ → y ∈ distances σ0 ∨ 0 ≤ y;
  k_ancestors : beg ≠ root → ancestors σ = ancestors σ0;
}.

(** What the visit of [x] leaves in the tables. *)
Record visited (x : nat) (σ : tables (W := Z)) : Prop := {
  v_row : ∀ d, dist t beg x d → at2 (D σ) beg x = d;
  v_distance : ∀ d, (beg < x)%nat → dist t beg x d → d ∈ distances σ;
  v_chain : beg = root → last (at_ [] (ancestors σ) x) = Some x;
}.

Lemma at_alter {A} (f : A → A) (d : A) (l : list A) i j :
  (i < length l)%nat →
  at_ d (alter f i l) j = if decide (i = j) then f (at_ d l i) else at_ d l j.
Proof.
  intros Hi. unfold at_. case_decide as Hij.
  - subst j. rewrite list_lookup_alter_eq.
    destruct (lookup_lt_is_Some_2 l i Hi) as [x ->]. done.
  - by rewrite list_lookup_alter_ne.
Qed.

Lemma at_insert {A} (d x : A) (l : list A) i j :
  (i < length l)%nat →
  at_ d (<[i := x]> l) j = if decide (i = j) then x else at_ d l j.
Proof.
  intros Hi. unfold at_. case_decide as Hij.
  - subst j. by rewrite list_lookup_insert_eq.
  - by rewrite list_lookup_insert_ne.
Qed.

Lemma visit_keeps σ0 s l d σ :
  on_path s l d → keeps σ0 σ →
  keeps σ0 (dfs_visit beg s (head l) d σ) ∧
  visited s (dfs_visit beg s (head l) d σ) ∧
  ∀ x, visited x σ → visited x (dfs_visit beg s (head l) d σ).
Proof.
  intros Hpath [Hrows Hrow Hch Hoth Hdist Hnn Hanc].
  pose proof (on_path_range _ _ _ Hpath) as Hs%elem_of_seq.
  pose proof (on_path_dist _ _ _ Hpath) as Hd.
  apply elem_of_seq in Hbeg as Hb.
  assert (∀ x, at2 (D (dfs_visit beg s (head l) d σ)) beg x
               = if decide (s = x) then d else at2 (D σ) beg x) as HD.
  { intros x. unfold at2. simpl. rewrite at_alter by lia.
    rewrite decide_True by done. apply at_insert. lia. }
  assert (∀ x, x ≠ s →
    at_ [] (ancestors (dfs_visit beg s (head l) d σ)) x
    = at_ [] (ancestors σ) x) as Hanc_other.
  { intros x Hx. simpl. destruct (beg =? root)%nat; [|done].
    destruct (head l) as [p|].
    - rewrite at_alter by (rewrite length_insert; lia).
      rewrite decide_False by done. rewrite at_insert by lia.
      by rewrite decide_False.
    - rewrite at_alter by lia. by rewrite decide_False. }
  split_and!.
  - split; simpl.
    + by rewrite length_alter.
    + rewrite at_alter by lia. rewrite decide_True by done.
      by rewrite length_insert.
    + destruct (beg =? root)%nat; [|done]. rewrite length_alter.
      destruct (head l); [by rewrite length_insert|done].
    + intros a Ha. rewrite at_alter by lia. rewrite decide_False by done.
      by apply Hoth.
    + intros y Hy%Hdist. destruct (beg <? s)%nat; [|done].
      apply elem_of_app. by left.
    + intros y Hy. destruct (beg <? s)%nat; [|by apply Hnn].
      apply elem_of_app in Hy as [Hy|Hy%list_elem_of_singleton].
      * by apply Hnn.
      * right. subst y. by eapply dist_nonneg.
    + intros Hne. rewrite <- (Hanc Hne).
      apply Nat.eqb_neq in Hne. by rewrite Hne.
  - split.
    + intros d' Hd'. rewrite HD, decide_True by done.
      by eapply dist_unique.
    + intros d' Hlt Hd'. simpl. apply Nat.ltb_lt in Hlt. rewrite Hlt.
      apply elem_of_app. right. apply list_elem_of_singleton.
      by eapply dist_unique.
    + intros Hroot%Nat.eqb_eq. simpl. rewrite Hroot.
      rewrite at_alter
        by (destruct (head l); rewrite ?length_insert; lia).
      rewrite decide_True by done. apply last_snoc.
  - intros x [Hx1 Hx2 Hx3]. split.
    + intros d' Hd'. rewrite HD. case_decide as Hsx; [|by apply Hx1].
      subst x. by eapply dist_unique.
    + intros d' Hlt Hd'. simpl. destruct (beg <? s)%nat; [|by apply Hx2].
      apply elem_of_app. left. by apply Hx2.
    + intros Hroot. destruct (decide (x = s)) as [->|Hxs].
      * apply Nat.eqb_eq in Hroot. simpl. rewrite Hroot.
        rewrite at_alter
          by (destruct (head l); rewrite ?length_insert; lia).
        rewrite decide_True by done. apply last_snoc.
      * rewrite Hanc_other by done. by apply Hx3.
Qed.

(** On a tree the recursion ends: a path has at most [n] vertices. *)
Lemma dfs_terminates fuel : ∀ s l d σ,
  on_path s l d → (n t < fuel + length (s :: l))%nat →
  ∃ σ', dfs t fuel beg s (head l) d σ = Returns σ'.
Proof.
  induction fuel as [|fuel IH]; intros s l d σ Hpath Hfuel.
  { destruct Hpath as [Hw Hlast].
    pose proof (walk_length t WF _ _ _ Hw Hlast Hbeg). simpl in *. lia. }
  simpl.
  assert (∀ nb σa, (∀ e, e ∈ nb → e ∈ adj t s) →
    ∃ σ', dfs_neighbours (dfs t fuel beg) s (head l) d nb σa = Returns σ')
    as Hloop; [|by apply Hloop].
  induction nb as [|[v w] nb IHnb]; intros σa Hnb; simpl; [by eexists|].
  assert (∀ e, e ∈ nb → e ∈ adj t s) as Hnb'
    by (intros e He; apply Hnb; by right).
  destruct (decide (Some v ≠ head l)) as [Hvp|Hvp]; [|by apply IHnb].
  destruct (IH v (s :: l) (d + w) σa) as [σc Hc]; [|simpl in *; lia|].
  { destruct Hpath as [Hw Hlast]. split; [|done].
    constructor; [done|apply Hnb; by left|congruence]. }
  simpl in Hc. unfold through_int. simpl. rewrite Hc. simpl. by apply IHnb.
Qed.

(** The traversal from [beg], after [D[beg].resize(n + 1)]. *)
Lemma dfs_from_spec fuel σ σ' :
  length (D σ) = S (n t) → length (ancestors σ) = S (n t) →
  dfs t fuel beg beg None 0
    (Tables (alter (resize (S (n t)) 0) beg (D σ)) (ancestors σ)
            (distances σ)) = Returns σ' →
  keeps σ σ' ∧ ∀ x d, dist t beg x d → visited x σ'.
Proof.
  intros HD Hanc Hrun.
  apply elem_of_seq in Hbeg as Hb.
  set (σ1 := Tables _ _ _) in Hrun.
  destruct (dfs_generic (keeps σ1) visited (visit_keeps σ1)
              fuel beg [] 0 σ1 σ') as (Hk & _ & Hv); [| |done|].
  { split; [constructor|done]. }
  { split; simpl; [|  |done|done|done|by left|done].
    - by rewrite length_alter.
    - rewrite at_alter by lia. rewrite decide_True by done.
      apply length_resize. }
  split.
  - destruct Hk as [? ? ? Hoth ? ? ?]. split; try done.
    intros a Ha. rewrite Hoth by done. simpl.
    rewrite at_alter by lia. by rewrite decide_False.
  - intros x d Hd. by eapply Hv, dist_below.
Qed.

End Traversal.

(** ** The precomputed tables of a tree *)

Section Precompute.
Variable t : tree Z.
Hypothesis WF : well_formed t.

Lemma dfs_all_spec starts : ∀ σ σ',
  NoDup starts → (∀ a, a ∈ starts → a ∈ seq 1 (n t)) →
  length (D σ) = S (n t) → length (ancestors σ) = S (n t) →
  dfs_all t starts σ = Returns σ' →
  length (D σ') = S (n t) ∧ length (ancestors σ') = S (n t) ∧
  (∀ a, a ∉ starts → at_ [] (D σ') a = at_ [] (D σ) a) ∧
  (∀ a x d, a ∈ starts → dist t a x d →
     at2 (D σ') a x = d ∧ ((a < x)%nat → d ∈ distances σ')) ∧
  (∀ y, y ∈ distances σ → y ∈ distances σ') ∧
  (∀ y, y ∈ distances σ' → y ∈ distances σ ∨ 0 ≤ y) ∧
  (root ∉ starts → ancestors σ' = ancestors σ) ∧
  (root ∈ starts → ∀ x d, dist t root x d →
     last (at_ [] (ancestors σ') x) = Some x).
Proof.
  induction starts as [|i starts IH]; intros σ σ' Hnd Hrange HD Hanc Hrun.
  { injection Hrun as <-. split_and!; try done.
    - intros a x d H. by apply elem_of_nil in H.
    - by left.
    - intros H. by apply elem_of_nil in H. }
  simpl in Hrun. returns Hrun. rename r into σ2.
  apply NoDup_cons in Hnd as [Hi Hnd].
  assert (i ∈ seq 1 (n t)) as Hir by (apply Hrange; by left).
  destruct (dfs_from_spec t WF i Hir (depth_bound t) _ _ HD Hanc Hrun0) as [Hk Hv].
  destruct Hk as [Hrows _ Hch Hoth Hdist Hnn Hanc2].
  destruct (IH σ2 σ' Hnd) as (HD' & Hanc' & Hrows' & Hok & Hmono & Hnn' &
    Hanc_same & Hchain); [intros a Ha; apply Hrange; by right|done..|].
  split_and!; [done|done|..].
  - intros a [Hai Ha]%not_elem_of_cons. rewrite Hrows' by done.
    by apply Hoth.
  - intros a x d [->|Ha]%elem_of_cons Hd; [|by apply Hok].
    destruct (Hv x d Hd) as [Hrow Hu _]. split.
    + unfold at2. rewrite Hrows' by done. by apply Hrow.
    + intros Hlt. by apply Hmono, Hu.
  - intros y Hy. by apply Hmono, Hdist.
  - intros y [Hy|Hy]%Hnn'; [|by right]. by apply Hnn.
  - intros [Hri Hr]%not_elem_of_cons. rewrite Hanc_same by done.
    by apply Hanc2.
  - intros [<-|Hr]%elem_of_cons x d Hd; [|by eapply Hchain].
    rewrite Hanc_same by done.
    by destruct (Hv x d Hd) as [_ _ Hc]; apply Hc.
Qed.

Lemma raw_tables_ok σ :
  raw_tables t = Returns σ → tables_ok t σ.
Proof.
  intros Hrun. unfold raw_tables in Hrun.
  apply dfs_all_spec in Hrun as (_ & _ & _ & Hok & _ & Hnn & _ & Hchain);
    [|apply NoDup_seq|done|simpl; by rewrite length_replicate..].
  split.
  - intros a x d Ha Hd. by apply Hok.
  - intros a x d Ha Hlt Hd. by apply (Hok a x d Ha Hd).
  - intros y [Hy|Hy]%Hnn; [|done]. by apply elem_of_nil in Hy.
  - intros x Hx.
    assert (root ∈ seq 1 (n t)) as Hroot.
    { apply elem_of_seq in Hx. apply elem_of_seq. unfold root. lia. }
    destruct (dist_total t WF root x Hroot Hx) as [d Hd].
    by eapply Hchain.
Qed.

Lemma raw_tables_Returns : ∃ σ, raw_tables t = Returns σ.
Proof.
  unfold raw_tables.
  assert (∀ starts σ, (∀ a, a ∈ starts → a ∈ seq 1 (n t)) →
    ∃ σ', dfs_all t starts σ = Returns σ') as Hall; [|by apply Hall].
  induction starts as [|i starts IH]; intros σ Hrange; simpl; [by eexists|].
  assert (i ∈ seq 1 (n t)) as Hir by (apply Hrange; by left).
  destruct (dfs_terminates t WF i Hir (depth_bound t) i [] 0
    (Tables (alter (resize (S (n t)) 0) i (D σ)) (ancestors σ)
            (distances σ))) as [σ2 Hrun]; [|simpl; lia|].
  { split; [constructor|done]. }
  simpl in Hrun. rewrite Hrun. simpl.
  apply IH. intros a Ha. apply Hrange. by right.
Qed.

End Precompute.

(** ** A radius within which every vertex reaches every vertex *)

Section FullReach.
Context {W : Type} {WT : WeightType W} {SS : StdSort}.
Variables (σ : tables (W := W)) (C : Z) (radius : W).
Hypothesis HC : 0 ≤ C.

Lemma filter_all {A} (P : A → Prop) `{!∀ x, Decision (P x)} (l : list A) :
  (∀ x, x ∈ l → P x) → filter P l = l.
Proof.
  induction l as [|x l IH]; intros Hall; [done|].
  rewrite filter_cons_True by (apply Hall; by left).
  f_equal. apply IH. intros y Hy. apply Hall. by right.
Qed.

Lemma filter_none {A} (P : A → Prop) `{!∀ x, Decision (P x)} (l : list A) :
  (∀ x, x ∈ l → ¬ P x) → filter P l = [].
Proof.
  induction l as [|x l IH]; intros Hall; [done|].
  rewrite filter_cons_False by (apply Hall; by left).
  apply IH. intros y Hy. apply Hall. by right.
Qed.

Lemma length_filter_out (R U : list nat) :
  NoDup R → (∀ v, v ∈ R → v ∈ U) →
  (length (filter (λ y, y ∉ R) U) + length R ≤ length U)%nat.
Proof.
  intros HR HRU.
  rewrite <- (filter_app_complement (λ y, y ∈ R) U) at 2.
  rewrite length_app.
  assert (length R ≤ length (filter (λ y, y ∈ R) U))%nat; [|lia].
  apply submseteq_length, NoDup_submseteq; [done|].
  intros v Hv. apply list_elem_of_filter. split; [done|by apply HRU].
Qed.

Lemma cap_cases (R : list nat) :
  cap C R = R ∨ Z.of_nat (length (cap C R)) = C.
Proof.
  unfold cap, to_size_t. destruct (Z.ltb_spec C 0); [lia|].
  destruct (Z.gtb_spec (Z.of_nat (length R)) C); [right|by left].
  rewrite length_take. lia.
Qed.

(** One iteration serves [C] vertices or empties [U]. *)
Lemma served_full center U :
  NoDup U → (∀ v, v ∈ U → within σ radius center v = true) →
  filter (λ y, y ∉ served σ C radius center U) U = [] ∨
  Z.of_nat (length (filter (λ y, y ∉ served σ C radius center U) U)) + C
  ≤ Z.of_nat (length U).
Proof.
  intros HU Hall.
  destruct (served_spec σ C radius center U HU) as [HR HRU].
  pose proof (reachable_sorted_perm σ radius center U) as Hperm.
  rewrite (filter_all _ U Hall) in Hperm.
  destruct (cap_cases (reachable_sorted σ radius center U)) as [Heq|Hlen].
  - left. apply filter_none. intros v Hv Hnot. apply Hnot.
    unfold served. by rewrite Heq, Hperm.
  - right.
    pose proof (length_filter_out _ U HR (λ v Hv, proj1 (HRU v Hv))).
    unfold served in *. lia.
Qed.

Lemma greedy_full rounds : ∀ U st cs a U' ans,
  NoDup U →
  (∀ c v, c ∈ st.*2 → v ∈ U → within σ radius c v = true) →
  greedy σ C radius rounds U st cs a = Returns (U', ans) →
  U' = [] ∨
  Z.of_nat (length U') + Z.of_nat rounds * C ≤ Z.of_nat (length U).
Proof.
  induction rounds as [|rounds IH]; intros U st cs a U' ans HU Hall Hrun;
    simpl in Hrun.
  { injection Hrun as <- <-. right. lia. }
  destruct U as [|u U]; [injection Hrun as <- <-; by left|].
  destruct st as [|top st]; [done|].
  fold (served σ C radius top.2 (u :: U)) in Hrun.
  destruct (assign_all_spec top.2 (served σ C radius top.2 (u :: U)) a
              (u :: U)) as (a' & Heq & _).
  rewrite Heq in Hrun.
  apply IH in Hrun as [->|Hrun]; [by left| | |].
  - destruct (served_full top.2 (u :: U) HU) as [Hnil|Hlen].
    { intros v Hv. apply Hall; [by left|done]. }
    + rewrite Hnil in Hrun. simpl in Hrun. left.
      destruct U'; [done|simpl in Hrun; lia].
    + right. lia.
  - by apply NoDup_filter.
  - intros c v Hc [_ Hv]%list_elem_of_filter. apply Hall; [by right|done].
Qed.

Lemma check_full (t : tree W) k ans ok ans' :
  0 < k → Z.of_nat (n t) ≤ k * C →
  (∀ c v, c ∈ seq 1 (n t) → v ∈ seq 1 (n t) → within σ radius c v = true) →
  check t σ C k radius ans = Returns (ok, ans') → ok = true.
Proof.
  intros Hk HkC Hall Hrun. unfold check in Hrun.
  destruct (check_init_spec t σ radius) as (f & st & Hinit & Hst & Hrange).
  rewrite Hinit in Hrun. returns Hrun. destruct r as [U' ans''].
  injection Hrun as <- <-.
  apply greedy_full in Hrun0 as [->|Hlen]; [done|..].
  - rewrite length_seq, Z2Nat.id in Hlen by lia.
    destruct U'; [done|simpl in Hlen; lia].
  - apply NoDup_seq.
  - intros c v Hc Hv. apply Hall; [by apply Hrange|done].
Qed.

(** The outcome of [check] does not depend on the assignment that the
    previous call left. *)
Lemma greedy_same_U rounds : ∀ U st cs a1 a2 U1 ans1 U2 ans2,
  greedy σ C radius rounds U st cs a1 = Returns (U1, ans1) →
  greedy σ C radius rounds U st cs a2 = Returns (U2, ans2) →
  U1 = U2.
Proof.
  induction rounds as [|rounds IH]; intros U st cs a1 a2 U1 ans1 U2 ans2 H1 H2;
    simpl in H1, H2.
  { by simplify_eq. }
  destruct U as [|u U]; [by simplify_eq|].
  destruct st as [|top st]; [done|].
  fold (served σ C radius top.2 (u :: U)) in H1, H2.
  destruct (assign_all_spec top.2 (served σ C radius top.2 (u :: U)) a1
              (u :: U)) as (a1' & Heq1 & _).
  destruct (assign_all_spec top.2 (served σ C radius top.2 (u :: U)) a2
              (u :: U)) as (a2' & Heq2 & _).
  rewrite Heq1 in H1. rewrite Heq2 in H2. by eapply IH.
Qed.

Lemma check_same_result (t : tree W) k ans1 ans2 ok1 ok2 ans1' ans2' :
  check t σ C k radius ans1 = Returns (ok1, ans1') →
  check t σ C k radius ans2 = Returns (ok2, ans2') →
  ok1 = ok2.
Proof.
  unfold check. intros H1 H2.
  destruct (check_init t σ radius) as [[U f] st].
  returns H1. returns H2. destruct r as [U1 b1], r0 as [U2 b2].
  injection H1 as <- <-. injection H2 as <- <-.
  by rewrite (greedy_same_U _ _ _ _ _ _ _ _ _ _ H0 H3).
Qed.

End FullReach.

(** ** Where the search stops *)

Section SearchSpec.
Context {W : Type} {WT : WeightType W} {SS : StdSort}.
Variables (t : tree W) (σ : tables (W := W)) (C k : Z).

(** Some call of [check] has accepted [distances[i]]. *)
Definition accepted (i : Z) : Prop :=
  ∃ r ans ans', dist_at σ i = Returns r ∧
    check t σ C k r ans = Returns (true, ans').

Lemma shiftr_1_bounds lo hi :
  lo < hi → lo ≤ Z.shiftr (lo + hi) 1 < hi.
Proof.
  intros Hlt. rewrite Z.shiftr_div_pow2 by done.
  change (2 ^ 1) with 2.
  pose proof (Z.div_mod (lo + hi) 2).
  pose proof (Z.mod_pos_bound (lo + hi) 2). lia.
Qed.

(** The search stops at an index that was accepted, or at the upper end
    it started from. *)
Lemma search_spec (top : Z) fuel : ∀ lo hi ans lo' ans',
  0 ≤ lo ≤ hi → accepted hi ∨ hi = top →
  search t σ C k fuel lo hi ans = Returns (lo', ans') →
  0 ≤ lo' ≤ hi ∧ (accepted lo' ∨ lo' = top).
Proof.
  induction fuel as [|fuel IH]; intros lo hi ans lo' ans' Hlo Hhi Hrun;
    simpl in Hrun.
  - destruct (Z.ltb_spec lo hi); [done|]. injection Hrun as <- <-.
    replace lo with hi by lia. split; [lia|done].
  - destruct (Z.ltb_spec lo hi) as [Hlt|Hge].
    2: { injection Hrun as <- <-. replace lo with hi by lia.
         split; [lia|done]. }
    pose proof (shiftr_1_bounds lo hi Hlt) as Hmid.
    returns Hrun. returns Hrun. destruct r0 as [[] ans1].
    + apply IH in Hrun as [? ?]; [split; [lia|done]|lia|].
      left. by exists r, ans, ans1.
    + apply IH in Hrun as [? ?]; [split; [lia|done]|lia|done].
Qed.

(** The search returns when every call of [check] does. *)
Lemma search_Returns fuel : ∀ lo hi ans,
  0 ≤ lo → hi < Z.of_nat (length (distances σ)) →
  hi - lo ≤ Z.of_nat fuel →
  (∀ r ans, r ∈ distances σ → ∃ res, check t σ C k r ans = Returns res) →
  ∃ res, search t σ C k fuel lo hi ans = Returns res.
Proof.
  induction fuel as [|fuel IH]; intros lo hi ans Hlo Hhi Hfuel Hcheck; simpl.
  { destruct (Z.ltb_spec lo hi); [lia|by eexists]. }
  destruct (Z.ltb_spec lo hi) as [Hlt|Hge]; [|by eexists].
  pose proof (shiftr_1_bounds lo hi Hlt) as Hmid.
  unfold dist_at. destruct (Z.ltb_spec (Z.shiftr (lo + hi) 1) 0); [lia|].
  destruct (lookup_lt_is_Some_2 (distances σ) (Z.to_nat (Z.shiftr (lo + hi) 1)))
    as [r Hr]; [lia|].
  rewrite Hr. simpl.
  destruct (Hcheck r ans) as [[ok ans1] Hc];
    [by eapply list_elem_of_lookup_2|].
  rewrite Hc. simpl. destruct ok; apply IH; try done; lia.
Qed.

End SearchSpec.

(** ** The solver on a tree *)

Section Sound.
Context {SS : StdSort}.
Variable t : tree Z.
Hypothesis WF : well_formed t.

Lemma precompute_ok σ :
  precompute t = Returns σ →
  tables_ok t σ ∧ StronglySorted Z.le (distances σ).
Proof.
  unfold precompute. intros Hrun. returns Hrun. injection Hrun as <-.
  apply (raw_tables_ok t WF) in Hrun0 as [Hd Hu Hnn Hch].
  split; [split; simpl|simpl].
  - done.
  - intros a x d Ha Hlt Hdist. rewrite std_sort_perm. by eapply Hu.
  - intros y Hy. rewrite std_sort_perm in Hy. by apply Hnn.
  - done.
  - eapply ordered_by_impl;
      [apply std_sort_ordered, (proj1 int_total_ltb)|].
    simpl. intros x y. rewrite Z.ltb_ge. lia.
Qed.

Lemma sorted_last_max (l : list Z) r :
  StronglySorted Z.le l → last l = Some r → ∀ y, y ∈ l → y ≤ r.
Proof.
  intros Hl [l' ->]%last_Some y Hy.
  apply elem_of_app in Hy as [Hy|Hy%list_elem_of_singleton]; [|lia].
  eapply (StronglySorted_app_1_elem_of Z.le); [done..|by left].
Qed.

(** Within the largest distance every vertex reaches every vertex. *)
Lemma within_largest σ r :
  tables_ok t σ → r ∈ distances σ → (∀ y, y ∈ distances σ → y ≤ r) →
  ∀ c v, c ∈ seq 1 (n t) → v ∈ seq 1 (n t) → within σ r c v = true.
Proof.
  intros [Hd Hu Hnn _] Hr Hmax c v Hc Hv.
  unfold within. simpl. apply Z.leb_le.
  destruct (dist_total t WF c v Hc Hv) as [d Hdist].
  rewrite (Hd c v d Hc Hdist).
  destruct (lt_eq_lt_dec c v) as [[Hlt| ->]|Hgt].
  - apply Hmax. by apply (Hu c v d).
  - rewrite (dist_unique t WF v v d 0 Hdist (dist_refl t v)). by apply Hnn.
  - apply Hmax. apply (Hu v c d); [done..|]. by apply dist_sym.
Qed.

(** What a returning call of [k_centers] hands back. *)
Lemma k_centers_sound C k r cs a :
  0 < k → Z.of_nat (n t) ≤ k * C →
  k_centers t C k = Returns (r, cs, a) →
  ∃ σ, precompute t = Returns σ ∧ r ∈ distances σ ∧
    (length cs ≤ Z.to_nat k)%nat ∧
    (∀ v, v ∈ seq 1 (n t) →
       at_ 0%nat a v ∈ seq 1 (n t) ∧ at_ 0%nat a v ∈ cs ∧
       at2 (D σ) (at_ 0%nat a v) v ≤ r) ∧
    (∀ c, Z.of_nat (load (n t) a c) ≤ C).
Proof.
  intros Hk HkC (σ & lo & ans0 & ok & ans & _ & Hpre & Hsearch & Hlen & Hr &
    Hcheck & -> & ->)%k_centers_Returns.
  destruct (precompute_ok σ Hpre) as [Hok Hsorted].
  apply dist_at_Returns in Hr as Hlo. destruct Hlo as [Hlo0 Hlo].
  assert (r ∈ distances σ) as Hrin by (by eapply list_elem_of_lookup_2).
  assert (ok = true) as ->.
  { apply (search_spec t σ C k (Z.of_nat (length (distances σ)) - 1))
      in Hsearch as [_ [(r' & ans1 & ans2 & Hr' & Hacc)|Htop]].
    - rewrite Hr in Hr'. injection Hr' as <-.
      eapply (check_same_result (W := Z)); [exact Hcheck|exact Hacc].
    - eapply (check_full σ C r); [lia|done..| |done].
      apply within_largest; [done..|].
      apply sorted_last_max; [done|].
      rewrite last_lookup, <- Hlo. f_equal. lia.
    - apply lookup_lt_Some in Hlo. lia.
    - by right. }
  apply check_spec in Hcheck as (_ & Hcs & Hrange & _ & Hserved); [|done].
  destruct (Hserved eq_refl) as [Hall Hload].
  exists σ. split_and!; [done..| |apply Hload; nia].
  intros v Hv. destruct (Hall v Hv) as [Hin Hw].
  split_and!; [by apply Hrange|done|].
  unfold within in Hw. simpl in Hw. by apply Z.leb_le.
Qed.

End Sound.

(** ** The solver returns *)

Section Total.
Context {SS : StdSort}.
Variable t : tree Z.
Hypothesis WF : well_formed t.

Lemma pset_insert_length (x : Z * nat) s :
  x.2 ∉ s.*2 → length (pset_insert x s) = S (length s).
Proof.
  induction s as [|y s IH]; intros Hx; simpl; [done|].
  apply not_elem_of_cons in Hx as [Hxy Hx].
  destruct (pair_ltb x y) eqn:H1; [done|].
  destruct (pair_ltb y x) eqn:H2; [simpl; by rewrite IH|].
  exfalso. unfold pair_ltb in H1, H2. simpl in H1, H2.
  apply orb_false_iff in H1 as [H1 H1'], H2 as [H2 H2'].
  rewrite H1 in H2'. rewrite H2 in H1'. simpl in *.
  apply Nat.ltb_ge in H1', H2'. apply Hxy. lia.
Qed.

Lemma st_fold_length (σ : tables (W := Z)) r l st :
  NoDup l → (∀ i, i ∈ st.*2 → i ∉ l) →
  (∀ i, i ∈ l → is_Some (first_cover σ r i)) →
  length (foldl (st_step σ r) st l) = (length st + length l)%nat.
Proof.
  revert st. induction l as [|j l IH]; intros st Hl Hfresh Hcover; simpl.
  { lia. }
  apply NoDup_cons in Hl as [Hj Hl].
  destruct (Hcover j) as [it Hit]; [by left|].
  rewrite IH; [|done| |intros i Hi; apply Hcover; by right].
  - unfold st_step. rewrite Hit, pset_insert_length; [lia|].
    simpl. intros Hin. apply (Hfresh _ Hin). by left.
  - unfold st_step. rewrite Hit.
    intros i [->|Hi]%pset_insert_snd_elem; [done|].
    intros Hil. apply (Hfresh _ Hi). by right.
Qed.

Lemma check_init_queue (σ : tables (W := Z)) r :
  (check_init t σ r).2 = foldl (st_step σ r) [] (seq 1 (n t)).
Proof.
  unfold check_init.
  by destruct (check_init_fold σ r (seq 1 (n t)) [] (f_init t) []) as [f ->].
Qed.

Lemma first_cover_is_Some σ r i :
  tables_ok t σ → 0 ≤ r → i ∈ seq 1 (n t) →
  is_Some (first_cover σ r i).
Proof.
  intros [_ _ _ Hch] Hr Hi. unfold first_cover.
  destruct (find _ _) eqn:Hfind; [by eexists|].
  assert (covers σ r i i = false) as Hf.
  { apply (find_none _ _ Hfind i).
    apply list_elem_of_In. eapply last_Some_elem_of, Hch. done. }
  unfold covers in Hf. simpl in Hf. apply Z.leb_gt in Hf. lia.
Qed.

Lemma greedy_Returns (σ : tables (W := Z)) C r rounds : ∀ U st cs a,
  (rounds ≤ length st)%nat →
  ∃ res, greedy σ C r rounds U st cs a = Returns res.
Proof.
  induction rounds as [|rounds IH]; intros U st cs a Hlen; simpl.
  { by eexists. }
  destruct U as [|u U]; [by eexists|].
  destruct st as [|top st]; [simpl in Hlen; lia|].
  destruct (assign_all _ _ _ _) as [a' U']. apply IH. simpl in Hlen. lia.
Qed.

Lemma check_Returns σ C k r ans :
  tables_ok t σ → 0 ≤ r → k ≤ Z.of_nat (n t) →
  ∃ res, check t σ C k r ans = Returns res.
Proof.
  intros Hok Hr Hk. unfold check.
  pose proof (check_init_queue σ r) as Hq.
  destruct (check_init t σ r) as [[U f] st]. simpl in Hq. subst st.
  destruct (greedy_Returns σ C r (Z.to_nat k) U
              (foldl (st_step σ r) [] (seq 1 (n t))) [] (assignment ans))
    as [[U' ans'] ->].
  - rewrite st_fold_length; [rewrite length_seq; simpl; lia|apply NoDup_seq| |].
    + intros i Hi. by apply elem_of_nil in Hi.
    + intros i Hi. by apply first_cover_is_Some.
  - simpl. by eexists.
Qed.

(** On a tree of at least two vertices, with at most [n] centers, the
    embedding of [k_centers] returns: the statements about what a call
    returns are about these calls among others. *)
Lemma k_centers_Returns_total C k :
  (2 ≤ n t)%nat → k ≤ Z.of_nat (n t) → Z.of_nat (n t) ≤ k * C →
  ∃ res, k_centers t C k = Returns res.
Proof.
  intros Hn Hk HkC. unfold k_centers.
  destruct (Z.ltb_spec (k * C) (Z.of_nat (n t))); [lia|].
  destruct (raw_tables_Returns t WF) as [raw Hraw].
  assert (∃ σ, precompute t = Returns σ) as [σ Hpre].
  { unfold precompute. rewrite Hraw. by eexists. }
  rewrite Hpre. step_bind.
  destruct (precompute_ok t WF σ Hpre) as [Hok Hsorted].
  assert (0 < length (distances σ))%nat as Hlen.
  { assert ((1:nat) ∈ seq 1 (n t)) as H1 by (apply elem_of_seq; lia).
    assert ((2:nat) ∈ seq 1 (n t)) as H2 by (apply elem_of_seq; lia).
    destruct (dist_total t WF 1 2 H1 H2) as [d Hd].
    pose proof (t_universe t σ Hok 1%nat 2%nat d H1 ltac:(lia) Hd) as Hin.
    destruct (distances σ); [by apply elem_of_nil in Hin|simpl; lia]. }
  assert (∀ r ans, r ∈ distances σ →
            ∃ res, check t σ C k r ans = Returns res) as Hcheck.
  { intros r ans Hr. apply check_Returns; [done| |done].
    by apply (t_nonneg t σ Hok). }
  destruct (search_Returns t σ C k (length (distances σ)) 0
              (Z.of_nat (length (distances σ)) - 1)
              (Answer [] (replicate (S (n t)) 0%nat)))
    as [[lo ans0] Hsearch]; [lia..|done|].
  rewrite Hsearch. step_bind.
  apply (search_spec t σ C k (Z.of_nat (length (distances σ)) - 1))
    in Hsearch as [Hlo _]; [|lia|by right].
  unfold dist_at. destruct (Z.ltb_spec lo 0); [lia|].
  destruct (lookup_lt_is_Some_2 (distances σ) (Z.to_nat lo)) as [r Hr]; [lia|].
  rewrite Hr. step_bind.
  destruct (Hcheck r ans0) as [[ok ans] ->]; [by eapply list_elem_of_lookup_2|].
  step_bind. by eexists.
Qed.

End Total.

(** ** The test recognises trees *)

Section TreeCheck.
Variable t : tree Z.

Lemma elem_of_edges s v w : (s, v, w) ∈ edges t ↔ (v, w) ∈ adj t s.
Proof.
  unfold edges. rewrite list_elem_of_In, in_flat_map. split.
  - intros (s' & _ & Hin). apply list_elem_of_In in Hin.
    apply list_elem_of_fmap in Hin as ([v' w'] & [= -> -> ->] & Hin). done.
  - intros Hin. exists s. split.
    + apply list_elem_of_In, elem_of_seq. split; [lia|]. simpl.
      unfold adj, at_ in Hin.
      destruct (con t !! s) eqn:Hs; [by eapply lookup_lt_Some|].
      by apply elem_of_nil in Hin.
    + apply list_elem_of_In, list_elem_of_fmap. by exists (v, w).
Qed.

Lemma walks_complete l d :
  walk t l d → ∀ k, length l = (k + 2)%nat → l ∈ walks t k.
Proof.
  induction 1 as [a|v w s l d Hw IH Hvw Hnb]; intros k Hlen;
    [simpl in Hlen; lia|].
  destruct k as [|k]; simpl.
  - destruct l; [|simpl in Hlen; lia].
    apply list_elem_of_fmap. exists (s, v, w). split; [done|].
    by apply elem_of_edges.
  - apply list_elem_of_In, in_flat_map. exists (s :: l). split.
    + apply list_elem_of_In, IH. simpl in *. lia.
    + apply list_elem_of_In. simpl. apply list_elem_of_fmap.
      exists (v, w). split; [done|]. by apply list_elem_of_filter.
Qed.

Lemma walks_sound k : ∀ l,
  l ∈ walks t k → ∃ d, walk t l d ∧ length l = (k + 2)%nat.
Proof.
  induction k as [|k IH]; intros l Hl; simpl in Hl.
  - apply list_elem_of_fmap in Hl as ([[s v] w] & -> & He%elem_of_edges).
    exists (0 + w). split; [|done]. constructor; [constructor|done..].
  - apply list_elem_of_In, in_flat_map in Hl as (l0 & Hl0 & Hl).
    apply list_elem_of_In, IH in Hl0 as (d & Hw & Hlen).
    apply list_elem_of_In in Hl. destruct l0 as [|s rest]; simpl in Hl.
    { by apply elem_of_nil in Hl. }
    apply list_elem_of_fmap in Hl as ([v w] & -> & [Hnb Hvw]%list_elem_of_filter).
    exists (d + w). split; [by constructor|]. simpl in *. lia.
Qed.

Lemma tree_check_well_formed : tree_check t → well_formed t.
Proof.
  intros (Hedges & Hsimple & Hlong & Hclosed & Hconn).
  rewrite Forall_forall in Hedges. rewrite Forall_forall in Hsimple.
  rewrite Forall_forall in Hclosed. rewrite Forall_forall in Hconn.
  split.
  - intros s v w Hin%elem_of_edges.
    destruct (Hedges _ Hin) as (? & ? & ? & ?%elem_of_edges). done.
  - intros s. destruct (decide (s < length (con t))%nat) as [Hs|Hs].
    + apply Hsimple, elem_of_seq. lia.
    + unfold adj, at_. rewrite lookup_ge_None_2 by lia. constructor.
  - intros a v Ha Hv.
    pose proof (Hconn a Ha) as Hav. rewrite Forall_forall in Hav.
    destruct (Hav v Hv) as [->|Hex].
    { exists [], 0. split; [constructor|done]. }
    apply Exists_exists in Hex as (k & _ & Hex).
    apply Exists_exists in Hex as (l & Hl & Hhead & Hlast).
    apply walks_sound in Hl as (d & Hw & _).
    destruct l as [|x l]; [done|]. injection Hhead as ->. by exists l, d.
  - intros l d Hw Heq.
    destruct (decide (length l = 1%nat)) as [|Hlen]; [done|exfalso].
    assert (∃ k, length l = (k + 2)%nat) as [k Hk].
    { apply walk_nonempty in Hw. destruct l as [|? [|? ?]]; [done..|].
      exists (length l). simpl. lia. }
    destruct (decide (k < n t)%nat) as [Hlt|Hge].
    + pose proof (Hclosed k) as Hk'. rewrite Forall_forall in Hk'.
      apply (Hk' ltac:(apply elem_of_seq; lia) l); [|done].
      by eapply walks_complete.
    + rewrite <- (take_drop (k - n t) l) in Hw.
      apply walk_suffix in Hw as [d' Hw'].
      * apply walks_complete with (k := n t) in Hw'.
        -- rewrite Hlong in Hw'. by apply elem_of_nil in Hw'.
        -- rewrite length_drop. lia.
      * intros Hnil. apply (f_equal length) in Hnil.
        rewrite length_drop in Hnil. simpl in Hnil. lia.
Qed.

End TreeCheck.

(** The tree of [usage_example] is a tree. *)
Lemma star_well_formed : well_formed star.
Proof. apply tree_check_well_formed. by_decide. Qed.

(** No walk ends at a vertex that no edge names. *)
Lemma dist_outside (t : tree Z) (a x : nat) (d : Z) :
  Forall (λ e : nat * nat * Z, e.1.2 ≠ x) (edges t) → a ≠ x →
  ¬ dist t a x d.
Proof.
  intros Hedges Ha (l & Hw & Hlast).
  inversion Hw as [b|v w s l' d' Hw' Hvw Hnb]; subst.
  - by injection Hlast.
  - apply elem_of_edges in Hvw. rewrite Forall_forall in Hedges.
    by apply (Hedges _ Hvw).
Qed.

(** ** Building a graph with [add_edge] *)

Lemma new_tree_at {W} (m s : nat) : at_ [] (con (new_tree (W := W) m)) s = [].
Proof.
  unfold at_, new_tree, con.
  destruct (replicate (S m) [] !! s) eqn:Hr; [|done].
  by apply lookup_replicate in Hr as [-> _].
Qed.

Lemma add_edge_at {W} (t : tree W) (a b : nat) (w : W) (s : nat) :
  (a < length (con t))%nat → (b < length (con t))%nat →
  at_ [] (con (add_edge t a b w)) s = at_ [] (con t) s ++ ends_at s (a, b, w).
Proof.
  intros Ha Hb. unfold add_edge, ends_at. simpl.
  rewrite at_alter by (by rewrite length_alter).
  rewrite !at_alter by done.
  repeat case_decide; subst; try done; rewrite ?app_nil_r; try done.
  by rewrite <- app_assoc.
Qed.

Lemma add_edge_length {W} (t : tree W) (a b : nat) (w : W) :
  length (con (add_edge t a b w)) = length (con t).
Proof. unfold add_edge. simpl. by rewrite !length_alter. Qed.

Lemma add_edges_at {W} (es : list (nat * nat * W)) : ∀ (t : tree W) s,
  Forall (λ e, (e.1.1 < length (con t))%nat ∧ (e.1.2 < length (con t))%nat)
    es →
  at_ [] (con (add_edges t es)) s = at_ [] (con t) s ++ flat_map (ends_at s) es
  ∧ n (add_edges t es) = n t
  ∧ length (con (add_edges t es)) = length (con t).
Proof.
  induction es as [|e es IH]; intros t s Hes; simpl.
  { by rewrite app_nil_r. }
  apply Forall_cons in Hes as [[Ha Hb] Hes].
  destruct (IH (add_edge t e.1.1 e.1.2 e.2) s) as (-> & -> & ->).
  { rewrite add_edge_length. done. }
  rewrite add_edge_at, add_edge_length by done.
  split_and!; [|done..].
  rewrite <- app_assoc. by destruct e as [[a b] w].
Qed.

Lemma elem_of_ends_at {W} (s v : nat) (w : W) (e : nat * nat * W) :
  (v, w) ∈ ends_at s e ↔
  e.2 = w ∧ ((e.1.1 = s ∧ e.1.2 = v) ∨ (e.1.2 = s ∧ e.1.1 = v)).
Proof.
  unfold ends_at. destruct e as [[a b] x]. simpl. rewrite elem_of_app.
  repeat case_decide; rewrite ?elem_of_nil, ?list_elem_of_singleton;
    intuition congruence.
Qed.

(** ** [check] without rounds *)

(** With [k <= 0] the loop of [check] is not entered. *)
Lemma check_no_rounds {W} {WT : WeightType W} {SS : StdSort}
    (t : tree W) (σ : tables) (C k : Z) (radius : W) (ans : answer) :
  k ≤ 0 →
  check t σ C k radius ans
  = Returns (bool_decide (n t = 0%nat), Answer [] (assignment ans)).
Proof.
  intros Hk. unfold check.
  destruct (check_init_spec t σ radius) as (f & st & -> & _).
  replace (Z.to_nat k) with 0%nat by lia. simpl. step_bind.
  do 2 f_equal. destruct (n t); [done|].
  rewrite !bool_decide_eq_false_2; done.
Qed.

(** ** A graph without edges *)

Section NoEdges.
Context {W : Type} {WT : WeightType W} {SS : StdSort}.
Variable m : nat.

Lemma dfs_new_tree fuel beg s p (d : W) σ :
  dfs (new_tree m) (S fuel) beg s p d σ = Returns (dfs_visit beg s p d σ).
Proof. cbn [dfs]. by rewrite new_tree_at. Qed.

Lemma dfs_all_new_tree starts : ∀ σ,
  distances σ = [] →
  ∃ σ', dfs_all (new_tree m) starts σ = Returns σ' ∧ distances σ' = [].
Proof.
  induction starts as [|i starts IH]; intros σ Hd; cbn [dfs_all].
  { by exists σ. }
  unfold depth_bound. rewrite Nat.add_succ_l, dfs_new_tree.
  step_bind. apply IH. simpl.
  by rewrite Nat.ltb_irrefl.
Qed.

Lemma precompute_new_tree :
  ∃ σ, precompute (new_tree m) = Returns σ ∧ distances σ = [].
Proof.
  unfold precompute, raw_tables.
  destruct (dfs_all_new_tree (seq 1 m)
              (Tables (replicate (S m) []) (replicate (S m) []) []))
    as (σ & Hrun & Hd); [done|].
  change (n (new_tree m)) with m. rewrite Hrun.
  step_bind. eexists. split; [done|]. simpl. rewrite Hd.
  apply std_sort_nil.
Qed.

End NoEdges.

(** ** What [check] writes *)

Section Frame.
Context {W : Type} {WT : WeightType W} {SS : StdSort}.
Variables (σ : tables (W := W)) (C : Z) (radius : W).

Lemma greedy_inv_init (t : tree W) (a : list nat) :
  length a = S (n t) →
  greedy_inv σ C radius (n t) (seq 1 (n t)) (check_init t σ radius).2 [] a.
Proof.
  intros Hlen.
  destruct (check_init_spec t σ radius) as (f & st & -> & Hst & Hrange).
  split; simpl; [done|done|apply NoDup_seq|done|done| |].
  - intros v Hv Hnot. done.
  - intros HC c. rewrite (filter_ext_elem _ (λ _, False)) by tauto.
    clear -HC. induction (seq 1 (n t)) as [|x l IH]; [simpl; lia|].
    rewrite filter_cons_False; [done|tauto].
Qed.

(** An entry of [assignment] that the loop changes belongs to a vertex
    and receives a vertex. *)
Lemma greedy_frame m rounds : ∀ U st cs a U' ans,
  greedy_inv σ C radius m U st cs a →
  greedy σ C radius rounds U st cs a = Returns (U', ans) →
  ∀ v, at_ 0%nat (assignment ans) v = at_ 0%nat a v ∨
       (v ∈ seq 1 m ∧ at_ 0%nat (assignment ans) v ∈ seq 1 m).
Proof.
  induction rounds as [|rounds IH]; intros U st cs a U' ans Hinv Hrun v;
    simpl in Hrun.
  { injection Hrun as <- <-. by left. }
  destruct U as [|u U].
  { injection Hrun as <- <-. by left. }
  destruct st as [|top st]; [done|].
  fold (served σ C radius top.2 (u :: U)) in Hrun.
  destruct (assign_all_spec top.2 (served σ C radius top.2 (u :: U)) a
              (u :: U)) as (a' & Heq & Hlen & Hin & Hout).
  rewrite Heq in Hrun.
  assert (greedy_inv σ C radius m
            (filter (λ y, y ∉ served σ C radius top.2 (u :: U)) (u :: U)) st
            (cs ++ [top.2]) a') as Hinv' by (by eapply greedy_inv_step).
  destruct (IH _ _ _ _ _ _ Hinv' Hrun v) as [Hsame|Hnew]; [|by right].
  rewrite Hsame.
  destruct (decide (v ∈ served σ C radius top.2 (u :: U))) as [Hv|Hv].
  - right.
    destruct (served_spec σ C radius top.2 (u :: U)) as [_ Hsub];
      [apply Hinv|].
    destruct (Hsub v Hv) as [HvU _].
    assert (v ∈ seq 1 m) as Hrange by (eapply gi_U_range; [exact Hinv|done]).
    split; [done|]. rewrite Hin; [|done|].
    + eapply gi_centers_range; [exact Hinv|].
      apply elem_of_app. right. by left.
    + erewrite gi_length by exact Hinv.
      apply elem_of_seq in Hrange. lia.
  - left. by apply Hout.
Qed.

Lemma check_frame (t : tree W) k ans b ans' :
  length (assignment ans) = S (n t) →
  check t σ C k radius ans = Returns (b, ans') →
  ∀ v, at_ 0%nat (assignment ans') v = at_ 0%nat (assignment ans) v ∨
       (v ∈ seq 1 (n t) ∧ at_ 0%nat (assignment ans') v ∈ seq 1 (n t)).
Proof.
  intros Hlen Hrun. unfold check in Hrun.
  pose proof (greedy_inv_init t _ Hlen) as Hinv.
  destruct (check_init_spec t σ radius) as (f & st & Hinit & _).
  rewrite Hinit in Hrun, Hinv. simpl in Hinv.
  returns Hrun. destruct r as [U' ans'']. injection Hrun as <- <-.
  by eapply greedy_frame.
Qed.

End Frame.

(** The vector [assignment] between two calls of [check]: entry 0 is 0
    and every entry is 0 or a vertex. *)
Definition shaped (m : nat) (a : list nat) : Prop :=
  length a = S m ∧ at_ 0%nat a 0 = 0%nat ∧
  ∀ v, at_ 0%nat a v = 0%nat ∨ at_ 0%nat a v ∈ seq 1 m.

Section Shape.
Context {W : Type} {WT : WeightType W} {SS : StdSort}.
Variables (t : tree W) (σ : tables (W := W)) (C k : Z).

Lemma shaped_initial : shaped (n t) (replicate (S (n t)) 0%nat).
Proof.
  assert (∀ v, at_ 0%nat (replicate (S (n t)) 0%nat) v = 0%nat) as Hz.
  { intros v. unfold at_.
    destruct (replicate (S (n t)) 0%nat !! v) eqn:Hr; [|done].
    by apply lookup_replicate in Hr as [-> _]. }
  split_and!; [apply length_replicate|apply Hz|]. intros v. left. apply Hz.
Qed.

Lemma check_shaped radius ans b ans' :
  shaped (n t) (assignment ans) →
  check t σ C k radius ans = Returns (b, ans') →
  shaped (n t) (assignment ans').
Proof.
  intros (Hlen & H0 & Hall) Hrun.
  pose proof (check_frame σ C radius t k ans b ans' Hlen Hrun) as Hframe.
  destruct (check_spec σ C radius t k ans b ans' Hlen Hrun)
    as (_ & _ & _ & Hlen' & _).
  split_and!; [done| |].
  - destruct (Hframe 0%nat) as [->|[Hin _]]; [done|].
    apply elem_of_seq in Hin. lia.
  - intros v. destruct (Hframe v) as [->|[_ Hin]]; [apply Hall|by right].
Qed.

Lemma search_shaped fuel : ∀ lo hi ans lo' ans',
  shaped (n t) (assignment ans) →
  search t σ C k fuel lo hi ans = Returns (lo', ans') →
  shaped (n t) (assignment ans').
Proof.
  induction fuel as [|fuel IH]; intros lo hi ans lo' ans' Hs Hrun;
    simpl in Hrun; destruct (lo <? hi); try done;
    try (by injection Hrun as <- <-).
  returns Hrun. returns Hrun. destruct r0 as [ok ans1].
  apply check_shaped in Hrun1; [|done].
  destruct ok; by eapply IH.
Qed.

End Shape.

(** ** [check] and the assignment of earlier calls *)

Section Agree.
Context {W : Type} {WT : WeightType W} {SS : StdSort}.
Variables (σ : tables (W := W)) (C : Z) (radius : W).

Lemma greedy_agree rounds : ∀ U st cs a1 a2 U1 ans1 U2 ans2,
  NoDup U → length a1 = length a2 → (∀ v, v ∈ U → (v < length a1)%nat) →
  greedy σ C radius rounds U st cs a1 = Returns (U1, ans1) →
  greedy σ C radius rounds U st cs a2 = Returns (U2, ans2) →
  U1 = U2 ∧ centers ans1 = centers ans2 ∧
  ∀ v, at_ 0%nat a1 v = at_ 0%nat a2 v ∨ v ∈ U →
       at_ 0%nat (assignment ans1) v = at_ 0%nat (assignment ans2) v ∨ v ∈ U1.
Proof.
  induction rounds as [|rounds IH];
    intros U st cs a1 a2 U1 ans1 U2 ans2 HU Hlen Hlt H1 H2; simpl in H1, H2.
  { by simplify_eq. }
  destruct U as [|u U]; [by simplify_eq|].
  destruct st as [|top st]; [done|].
  fold (served σ C radius top.2 (u :: U)) in H1, H2.
  destruct (assign_all_spec top.2 (served σ C radius top.2 (u :: U)) a1
              (u :: U)) as (a1' & Heq1 & Hlen1 & Hin1 & Hout1).
  destruct (assign_all_spec top.2 (served σ C radius top.2 (u :: U)) a2
              (u :: U)) as (a2' & Heq2 & Hlen2 & Hin2 & Hout2).
  rewrite Heq1 in H1. rewrite Heq2 in H2.
  destruct (served_spec σ C radius top.2 (u :: U) HU) as [_ Hsub].
  assert (∀ v, v ∈ filter (λ y, y ∉ served σ C radius top.2 (u :: U))
                     (u :: U) → (v < length a1')%nat) as Hlt'.
  { intros v [_ Hv]%list_elem_of_filter. rewrite Hlen1. by apply Hlt. }
  destruct (IH _ _ _ _ _ _ _ _ _ (NoDup_filter _ _ HU) (eq_trans Hlen1
              (eq_trans Hlen (eq_sym Hlen2))) Hlt' H1 H2)
    as (HU' & Hcs & Hag).
  split_and!; [done..|]. intros v Hv. apply Hag.
  destruct (decide (v ∈ served σ C radius top.2 (u :: U))) as [Hs|Hs].
  - left. destruct (Hsub v Hs) as [HvU _].
    rewrite Hin1, Hin2; [done|done| |done|].
    + rewrite <- Hlen. by apply Hlt.
    + by apply Hlt.
  - rewrite Hout1, Hout2 by done. destruct Hv as [Hv|Hv]; [by left|].
    right. by apply list_elem_of_filter.
Qed.

End Agree.

(** ** The largest distance is accepted *)

Section Largest.
Context {SS : StdSort}.
Variable t : tree Z.
Hypothesis WF : well_formed t.

Lemma greedy_full_Returns (σ : tables (W := Z)) C r rounds : ∀ U st cs a,
  U = [] ∨ 1 ≤ C → NoDup U → (length U ≤ length st)%nat →
  (∀ c v, c ∈ st.*2 → v ∈ U → within σ r c v = true) →
  ∃ res, greedy σ C r rounds U st cs a = Returns res.
Proof.
  induction rounds as [|rounds IH]; intros U st cs a HC HU Hlen Hall; simpl.
  { by eexists. }
  destruct U as [|u U]; [by eexists|].
  destruct HC as [|HC]; [done|].
  destruct st as [|top st]; [simpl in Hlen; lia|].
  fold (served σ C r top.2 (u :: U)).
  destruct (assign_all_spec top.2 (served σ C r top.2 (u :: U)) a (u :: U))
    as (a' & -> & _).
  apply IH.
  - by right.
  - by apply NoDup_filter.
  - assert (∀ v, v ∈ u :: U → within σ r top.2 v = true) as Htop
      by (intros v Hv; apply Hall; [by left|done]).
    destruct (served_full σ C r ltac:(lia) top.2 (u :: U) HU Htop)
      as [Hnil|Hless].
    + rewrite Hnil. simpl. lia.
    + simpl in Hlen, Hless. lia.
  - intros c v Hc [_ Hv]%list_elem_of_filter. apply Hall; [by right|done].
Qed.

Lemma check_largest σ C k r ans :
  precompute t = Returns σ → last (distances σ) = Some r →
  0 < k → Z.of_nat (n t) ≤ k * C →
  ∃ ans', check t σ C k r ans = Returns (true, ans').
Proof.
  intros Hpre Hlast Hk HkC.
  destruct (precompute_ok t WF σ Hpre) as [Hok Hsorted].
  assert (r ∈ distances σ) as Hr by (by eapply last_Some_elem_of).
  assert (0 ≤ r) as Hr0 by (by apply (t_nonneg t σ Hok)).
  pose proof (within_largest t WF σ r Hok Hr
                (sorted_last_max _ _ Hsorted Hlast)) as Hall.
  assert (∃ res, check t σ C k r ans = Returns res) as [[ok ans'] Hrun].
  { unfold check.
    pose proof (check_init_queue t σ r) as Hq.
    destruct (check_init_spec t σ r) as (f & st & Hinit & _ & Hrange).
    rewrite Hinit in Hq |- *. simpl in Hq.
    destruct (greedy_full_Returns σ C r (Z.to_nat k) (seq 1 (n t)) st []
                (assignment ans)) as [[U' ans'] ->].
    - destruct (n t); [by left|right; nia].
    - apply NoDup_seq.
    - rewrite Hq, st_fold_length; [done|apply NoDup_seq| |].
      + intros i Hi. by apply elem_of_nil in Hi.
      + intros i Hi. by apply (first_cover_is_Some t).
    - intros c v Hc Hv. apply Hall; [by apply Hrange|done].
    - simpl. by eexists. }
  exists ans'. rewrite Hrun. do 2 f_equal.
  eapply (check_full (W := Z)); [|exact Hk|exact HkC|exact Hall|exact Hrun].
  destruct (n t); nia.
Qed.

End Largest.

(** ** A call without centers *)

Section Rejecting.
Context {W : Type} {WT : WeightType W} {SS : StdSort}.
Variables (t : tree W) (σ : tables (W := W)) (C k : Z).

(** When [check] rejects everything, the search ends at its upper end. *)
Lemma search_rejecting (a : list nat) fuel : ∀ lo hi,
  k ≤ 0 → n t ≠ 0%nat →
  0 ≤ lo ≤ hi → hi < Z.of_nat (length (distances σ)) →
  hi - lo ≤ Z.of_nat fuel →
  search t σ C k fuel lo hi (Answer [] a) = Returns (hi, Answer [] a).
Proof.
  intros lo hi Hk Hn. revert lo hi.
  induction fuel as [|fuel IH]; intros lo hi Hlo Hhi Hfuel; simpl.
  { destruct (Z.ltb_spec lo hi); [lia|]. do 2 f_equal. lia. }
  destruct (Z.ltb_spec lo hi) as [Hlt|Hge]; [|do 2 f_equal; lia].
  pose proof (shiftr_1_bounds lo hi Hlt) as Hmid.
  unfold dist_at. destruct (Z.ltb_spec (Z.shiftr (lo + hi) 1) 0); [lia|].
  destruct (lookup_lt_is_Some_2 (distances σ) (Z.to_nat (Z.shiftr (lo + hi) 1)))
    as [r Hr]; [lia|].
  rewrite Hr. step_bind.
  rewrite check_no_rounds by done.
  rewrite bool_decide_eq_false_2 by done. step_bind. simpl.
  apply IH; lia.
Qed.

End Rejecting.

Lemma distances_nonempty (t : tree Z) σ :
  well_formed t → tables_ok t σ → (2 ≤ n t)%nat → distances σ ≠ [].
Proof.
  intros WF Hok Hn Hnil.
  assert ((1:nat) ∈ seq 1 (n t)) as H1 by (apply elem_of_seq; lia).
  assert ((2:nat) ∈ seq 1 (n t)) as H2 by (apply elem_of_seq; lia).
  destruct (dist_total t WF 1 2 H1 H2) as [d Hd].
  pose proof (t_universe t σ Hok 1%nat 2%nat d H1 ltac:(lia) Hd) as Hin.
  rewrite Hnil in Hin. by apply elem_of_nil in Hin.
Qed.

(** The largest recorded distance bounds the distance of any two
    vertices. *)
Lemma last_distance_max (t : tree Z) σ r :
  well_formed t → tables_ok t σ → StronglySorted Z.le (distances σ) →
  last (distances σ) = Some r →
  ∀ a x d, a ∈ seq 1 (n t) → x ∈ seq 1 (n t) → dist t a x d → d ≤ r.
Proof.
  intros WF Hok Hsorted Hlast a x d Ha Hx Hd.
  assert (r ∈ distances σ) as Hr by (by eapply last_Some_elem_of).
  pose proof (within_largest t WF σ r Hok Hr
                (sorted_last_max _ _ Hsorted Hlast) a x Ha Hx) as Hw.
  unfold within in Hw. simpl in Hw. apply Z.leb_le in Hw.
  by rewrite (t_dist t σ Hok a x d Ha Hd) in Hw.
Qed.

(** ** The radius below the returned one *)

Section Lower.
Context {W : Type} {WT : WeightType W} {SS : StdSort}.
Variables (t : tree W) (σ : tables (W := W)) (C k : Z).

(** Some call of [check] has rejected [distances[i]]. *)
Definition rejected (i : Z) : Prop :=
  ∃ r ans ans', dist_at σ i = Returns r ∧
    check t σ C k r ans = Returns (false, ans').

(** The search stops at its lower end or just above a rejected index. *)
Lemma search_lower fuel : ∀ lo hi ans lo' ans',
  lo ≤ hi →
  search t σ C k fuel lo hi ans = Returns (lo', ans') →
  lo ≤ lo' ∧ (lo' = lo ∨ rejected (lo' - 1)).
Proof.
  induction fuel as [|fuel IH]; intros lo hi ans lo' ans' Hlo Hrun;
    simpl in Hrun.
  - destruct (Z.ltb_spec lo hi); [done|]. injection Hrun as <- <-.
    split; [lia|by left].
  - destruct (Z.ltb_spec lo hi) as [Hlt|Hge].
    2: { injection Hrun as <- <-. split; [lia|by left]. }
    pose proof (shiftr_1_bounds lo hi Hlt) as Hmid.
    returns Hrun. returns Hrun. destruct r0 as [[] ans1].
    + apply IH in Hrun; [done|lia].
    + apply IH in Hrun as [Hle [->|Hrej]]; [| |lia].
      * split; [lia|]. right. exists r, ans, ans1.
        by replace (Z.shiftr (lo + hi) 1 + 1 - 1)
          with (Z.shiftr (lo + hi) 1) by lia.
      * split; [lia|by right].
Qed.

End Lower.

Lemma sorted_lookup_le (l : list Z) : ∀ i j x y,
  StronglySorted Z.le l → (i ≤ j)%nat →
  l !! i = Some x → l !! j = Some y → x ≤ y.
Proof.
  induction l as [|z l IH]; intros i j x y Hl Hij Hi Hj; [done|].
  apply StronglySorted_inv in Hl as [Hl Hz].
  destruct i as [|i], j as [|j]; simpl in Hi, Hj; simplify_eq; try lia.
  - rewrite Forall_forall in Hz. apply Hz. by eapply list_elem_of_lookup_2.
  - eapply (IH i j); [done|lia|done..].
Qed.

Section LocallyLeast.
Context {SS : StdSort}.
Variable t : tree Z.
Hypothesis WF : well_formed t.

Lemma k_centers_accepts C k σ lo ans0 r ok ans :
  0 < k → Z.of_nat (n t) ≤ k * C →
  precompute t = Returns σ →
  search t σ C k (length (distances σ)) 0
    (Z.of_nat (length (distances σ)) - 1)
    (Answer [] (replicate (S (n t)) 0%nat)) = Returns (lo, ans0) →
  dist_at σ lo = Returns r →
  check t σ C k r ans0 = Returns (ok, ans) →
  ok = true.
Proof.
  intros Hk HkC Hpre Hsearch Hr Hcheck.
  destruct (precompute_ok t WF σ Hpre) as [Hok Hsorted].
  apply dist_at_Returns in Hr as Hlo. destruct Hlo as [Hlo0 Hlo].
  assert (r ∈ distances σ) as Hrin by (by eapply list_elem_of_lookup_2).
  apply (search_spec t σ C k (Z.of_nat (length (distances σ)) - 1))
    in Hsearch as [_ [(r' & ans1 & ans2 & Hr' & Hacc)|Htop]].
  - rewrite Hr in Hr'. injection Hr' as <-.
    eapply (check_same_result (W := Z)); [exact Hcheck|exact Hacc].
  - eapply (check_full σ C r); [lia|done..| |done].
    apply within_largest; [done..|].
    apply sorted_last_max; [done|].
    rewrite last_lookup, <- Hlo. f_equal. lia.
  - apply lookup_lt_Some in Hlo. lia.
  - by right.
Qed.

End LocallyLeast.

(** ** Graphs with a cycle *)

Section Outcomes.
Context {W : Type} {WT : WeightType W}.
Variable t : tree W.

Lemma dfs_neighbours_outcome
    (call : nat → option nat → W → tables → outcome tables) s p d l :
  (∀ v q e σ, (∃ σ', call v q e σ = Returns σ') ∨ call v q e σ = Diverges) →
  ∀ σ, (∃ σ', dfs_neighbours call s p d l σ = Returns σ') ∨
       dfs_neighbours call s p d l σ = Diverges.
Proof.
  intros Hcall. induction l as [|v l IH]; intros σ; simpl.
  { left. by eexists. }
  case_decide; [|apply IH].
  destruct (Hcall v.1 (Some s) (through_int (w_add d v.2)) σ)
    as [[σ' ->]| ->]; [apply IH|by right].
Qed.

(** [dfs] returns or recurses without end. *)
Lemma dfs_outcome fuel : ∀ beg s p d σ,
  (∃ σ', dfs t fuel beg s p d σ = Returns σ') ∨
  dfs t fuel beg s p d σ = Diverges.
Proof.
  induction fuel as [|fuel IH]; intros beg s p d σ; simpl; [by right|].
  apply dfs_neighbours_outcome. intros v q e σ1. apply IH.
Qed.

Lemma dfs_neighbours_calls
    (call : nat → option nat → W → tables → outcome tables) s p d l :
  ∀ σ σ', dfs_neighbours call s p d l σ = Returns σ' →
  ∀ v, v ∈ l → Some v.1 ≠ p →
  ∃ e σ1 σ1', call v.1 (Some s) e σ1 = Returns σ1'.
Proof.
  induction l as [|x l IH]; intros σ σ' Hrun v Hv Hp; simpl in Hrun.
  { by apply elem_of_nil in Hv. }
  case_decide as Hx.
  - returns Hrun. apply elem_of_cons in Hv as [->|Hv]; [by eauto|].
    by eapply IH.
  - apply elem_of_cons in Hv as [->|Hv]; [done|]. by eapply IH.
Qed.

End Outcomes.

Section Routes.
Context {W : Type} {WT : WeightType W}.
Variable t : tree W.

Lemma route_suffix pre l : l ≠ [] → route t (pre ++ l) → route t l.
Proof.
  intros Hl. induction pre as [|x pre IH]; intros Hr; [done|].
  inversion Hr as [a Heq|v s l' Hr' Hv Hnb [Hx Heq]]; subst.
  - destruct pre, l; done.
  - apply IH. by rewrite <- Heq.
Qed.

(** The call of [dfs] that a route ends with returns, with [fuel] levels
    of recursion left. *)
Definition route_returns (beg : nat) (fuel : nat) (l : list nat) : Prop :=
  match l with
  | [] => False
  | s :: l => ∃ d σ σ', dfs t fuel beg s (head l) d σ = Returns σ'
  end.

Lemma route_returns_step beg fuel v s l :
  route_returns beg (S fuel) (s :: l) → v ∈ (at_ [] (con t) s).*1 →
  head l ≠ Some v → route_returns beg fuel (v :: s :: l).
Proof.
  intros (d & σ & σ' & Hrun) [e [-> He]]%list_elem_of_fmap Hnb.
  simpl in Hrun.
  destruct (dfs_neighbours_calls _ _ _ _ _ _ _ Hrun e He)
    as (x & σ1 & σ1' & Hcall); [congruence|].
  by exists x, σ1, σ1'.
Qed.

Lemma route_returns_deep beg pre : ∀ s l fuel,
  route t (pre ++ s :: l) → route_returns beg fuel (s :: l) →
  (length pre ≤ fuel)%nat ∧
  route_returns beg (fuel - length pre) (pre ++ s :: l).
Proof.
  induction pre as [|x pre IH]; intros s l fuel Hr Hret; simpl.
  { rewrite Nat.sub_0_r. split; [lia|done]. }
  inversion Hr as [|v s' l' Hr' Hvw Hnb Heq]; subst.
  { by destruct pre. }
  assert (∃ s0 l0, pre ++ s :: l = s0 :: l0) as (s0 & l0 & Heq)
    by (destruct pre; simpl; eauto).
  rewrite Heq in *. simplify_eq.
  destruct (IH s l fuel) as [Hlen Hret']; [by rewrite Heq|done|].
  rewrite Heq in Hret'.
  destruct (fuel - length pre)%nat as [|f] eqn:Hf.
  { by destruct Hret' as (? & ? & ? & ?). }
  split; [lia|].
  replace (fuel - S (length pre))%nat with f by lia.
  by eapply route_returns_step.
Qed.

(** A call that can make itself again does not return. *)
Lemma dfs_cycles beg fuel d σ :
  cycles t beg → dfs t fuel beg beg None d σ = Diverges.
Proof.
  intros (a & b & l1 & l2 & Hr & Hlast).
  assert (∀ fuel, ¬ route_returns beg fuel (b :: a :: l2)) as Hnever.
  { intros f. induction (lt_wf f) as [f _ IH]. intros Hret.
    destruct (route_returns_deep beg (b :: a :: l1) b (a :: l2) f)
      as [Hlen Hret']; [done..|].
    apply (IH (f - length (b :: a :: l1))%nat); [simpl in *; lia|].
    exact Hret'. }
  destruct (dfs_outcome t fuel beg beg None d σ) as [[σ' Hrun]|]; [|done].
  exfalso.
  apply last_Some in Hlast as [pre Hpre].
  apply (route_suffix (b :: a :: l1)) in Hr; [|done].
  rewrite Hpre in Hr.
  destruct (route_returns_deep beg pre beg [] fuel Hr) as [_ Hret].
  { by exists d, σ, σ'. }
  rewrite <- Hpre in Hret. by apply Hnever in Hret.
Qed.


(** *** The depth of a recursion that ends *)

(** The edges that a route takes, each with the vertex it leads to
    first. *)
Fixpoint steps (l : list nat) : list (nat * nat) :=
  match l with
  | v :: (s :: _) as l' => (v, s) :: steps l'
  | _ => []
  end.

(** The entries of the adjacency lists from the list of [s] on. *)
Fixpoint arcs_from (s : nat) (c : list (list (nat * W)))
    : list (nat * nat) :=
  match c with
  | [] => []
  | nb :: c => ((λ e : nat * W, (e.1, s)) <$> nb) ++ arcs_from (S s) c
  end.

Lemma length_arcs_from c : ∀ s,
  length (arcs_from s c) = length (concat c).
Proof.
  induction c as [|nb c IH]; intros s; simpl; [done|].
  by rewrite !length_app, length_fmap, IH.
Qed.

Lemma elem_of_arcs_from c : ∀ s i nb e,
  c !! i = Some nb → e ∈ nb → (e.1, (s + i)%nat) ∈ arcs_from s c.
Proof.
  induction c as [|x c IH]; intros s i nb e Hi He; [done|].
  simpl. apply elem_of_app. destruct i as [|i]; simpl in Hi.
  - injection Hi as ->. left. rewrite Nat.add_0_r.
    apply list_elem_of_fmap. by exists e.
  - right. replace (s + S i)%nat with (S s + i)%nat by lia. by eapply IH.
Qed.

Lemma steps_length l : length (steps l) = (length l - 1)%nat.
Proof.
  induction l as [|v [|s l] IH]; [done..|].
  change (steps (v :: s :: l)) with ((v, s) :: steps (s :: l)).
  simpl in *. lia.
Qed.

Lemma route_steps l :
  route t l → ∀ a, a ∈ steps l → a ∈ arcs_from 0 (con t).
Proof.
  induction 1 as [a|v s l Hr IH Hv Hnb]; intros a' Ha.
  { by apply elem_of_nil in Ha. }
  change (steps (v :: s :: l)) with ((v, s) :: steps (s :: l)) in Ha.
  apply elem_of_cons in Ha as [->|Ha]; [|by apply IH].
  apply list_elem_of_fmap in Hv as [e [-> He]]. unfold at_ in He.
  destruct (con t !! s) as [nb|] eqn:Hs; [|by apply elem_of_nil in He].
  by apply (elem_of_arcs_from _ 0%nat s nb).
Qed.

Lemma elem_of_steps v s l :
  (v, s) ∈ steps l → ∃ l1 l2, l = l1 ++ v :: s :: l2.
Proof.
  induction l as [|x [|y l] IH]; intros Hin;
    [by apply elem_of_nil in Hin..|].
  change (steps (x :: y :: l)) with ((x, y) :: steps (y :: l)) in Hin.
  apply elem_of_cons in Hin as [Heq|Hin].
  - injection Heq as -> ->. by exists [], l.
  - destruct (IH Hin) as (l1 & l2 & Heq). exists (x :: l1), l2.
    by rewrite Heq.
Qed.

Lemma dfs_neighbours_diverges
    (call : nat → option nat → W → tables → outcome tables) s p d nb :
  (∀ v q e σ, (∃ σ', call v q e σ = Returns σ') ∨ call v q e σ = Diverges) →
  ∀ σ, dfs_neighbours call s p d nb σ = Diverges →
  ∃ v e σ1, v ∈ nb ∧ Some v.1 ≠ p ∧ call v.1 (Some s) e σ1 = Diverges.
Proof.
  intros Hcall. induction nb as [|v nb IH]; intros σ Hrun; [done|].
  simpl in Hrun. case_decide as Hp.
  - destruct (Hcall v.1 (Some s) (through_int (w_add d v.2)) σ)
      as [[σ' Hv]|Hv].
    + rewrite Hv in Hrun.
      destruct (IH _ Hrun) as (x & e & σ1 & Hx & Hne & Hd).
      exists x, e, σ1. split; [by right|done].
    + exists v, (through_int (w_add d v.2)), σ. split; [by left|done].
  - destruct (IH _ Hrun) as (x & e & σ1 & Hx & Hne & Hd).
    exists x, e, σ1. split; [by right|done].
Qed.

(** A call of [dfs] that is cut off after [fuel] levels has made itself
    again, or stands at the end of a chain of [fuel] further calls that
    took [fuel] different edges. *)
Lemma dfs_cut_off beg fuel : ∀ s l d σ,
  route t (s :: l) → NoDup (steps (s :: l)) → last (s :: l) = Some beg →
  dfs t fuel beg s (head l) d σ = Diverges →
  cycles t beg ∨
  ∃ pre, length pre = fuel ∧ route t (pre ++ s :: l) ∧
         NoDup (steps (pre ++ s :: l)).
Proof.
  induction fuel as [|fuel IH]; intros s l d σ Hr Hnd Hlast Hrun.
  { right. by exists []. }
  cbn [dfs] in Hrun.
  apply dfs_neighbours_diverges in Hrun
    as (v & e & σ1 & Hv & Hp & Hrun); [|intros; apply dfs_outcome].
  assert (route t (v.1 :: s :: l)) as Hr'.
  { constructor; [done| |congruence].
    apply list_elem_of_fmap. by exists v. }
  destruct (decide ((v.1, s) ∈ steps (s :: l))) as [Hin|Hnew].
  - left. apply elem_of_steps in Hin as (l1 & l2 & Heq).
    destruct l1 as [|s' l1]; simpl in Heq.
    { injection Heq as Hs Hl. rewrite Hl, <- Hs in Hp. done. }
    injection Heq as <- Hl. exists s, v.1, l1, l2.
    rewrite <- Hl. split; [done|].
    rewrite Hl in Hlast.
    change (s :: l1 ++ v.1 :: s :: l2)
      with ((s :: l1) ++ v.1 :: s :: l2) in Hlast.
    by rewrite last_app_cons in Hlast.
  - destruct (IH v.1 (s :: l) e σ1) as [?|(pre & Hlen & Hpre & Hnd')];
      [done| |done|done|by left|].
    { change (steps (v.1 :: s :: l)) with ((v.1, s) :: steps (s :: l)).
      by constructor. }
    right. exists (pre ++ [v.1]). rewrite <- app_assoc.
    split; [|done]. rewrite length_app. simpl. lia.
Qed.

(** [depth_bound t] levels are enough for a recursion that ends. *)
Lemma dfs_depth_bound beg d σ :
  dfs t (depth_bound t) beg beg None d σ = Diverges → cycles t beg.
Proof.
  intros Hrun.
  destruct (dfs_cut_off beg (depth_bound t) beg [] d σ)
    as [?|(pre & Hlen & Hr & Hnd)]; [constructor|constructor|done..|].
  exfalso.
  assert (steps (pre ++ [beg]) ⊆+ arcs_from 0 (con t)) as Hsub.
  { apply NoDup_submseteq; [done|]. by apply route_steps. }
  apply submseteq_length in Hsub.
  rewrite steps_length, length_app, length_arcs_from in Hsub.
  simpl in Hsub. unfold depth_bound in Hlen. lia.
Qed.

(** More levels do not change what a returning call returns. *)
Lemma dfs_neighbours_more
    (call call' : nat → option nat → W → tables → outcome tables) s p d nb :
  (∀ v q e σ σ', call v q e σ = Returns σ' → call' v q e σ = Returns σ') →
  ∀ σ σ', dfs_neighbours call s p d nb σ = Returns σ' →
          dfs_neighbours call' s p d nb σ = Returns σ'.
Proof.
  intros Hcall. induction nb as [|v nb IH]; intros σ σ' Hrun; [done|].
  simpl in *. case_decide; [|by apply IH].
  returns Hrun. apply Hcall in Hrun0 as ->. by apply IH.
Qed.

Lemma dfs_more_fuel beg fuel : ∀ fuel' s p d σ σ',
  (fuel ≤ fuel')%nat → dfs t fuel beg s p d σ = Returns σ' →
  dfs t fuel' beg s p d σ = Returns σ'.
Proof.
  induction fuel as [|fuel IH]; intros fuel' s p d σ σ' Hle Hrun; [done|].
  destruct fuel' as [|fuel']; [lia|]. cbn [dfs] in *.
  eapply dfs_neighbours_more; [|exact Hrun].
  intros v q e σ1 σ1'. apply IH. lia.
Qed.

End Routes.



(** ** The calls of [dfs] *)

Section Trail.
Context {W : Type} {WT : WeightType W}.
Variable t : tree W.

(** The calls that [dfs(beg, s, p, d)] makes, itself included, in their
    order: each with the vertices from [s] back to the start, which has
    [p] behind [s], and with its argument [d]. *)
Fixpoint trail (fuel : nat) (s : nat) (l : list nat) (d : W)
    : list (list nat * W) :=
  match fuel with
  | O => []
  | S fuel =>
      (s :: l, d) ::
      flat_map (λ v : nat * W,
                  if decide (Some v.1 ≠ head l)
                  then trail fuel v.1 (s :: l) (through_int (w_add d v.2))
                  else [])
               (at_ [] (con t) s)
  end.

(** What a call does before its loop. *)
Definition visit_of (beg : nat) (σ : tables) (e : list nat * W) : tables :=
  match e.1 with
  | [] => σ
  | s :: l => dfs_visit beg s (head l) e.2 σ
  end.

Lemma dfs_neighbours_trail beg fuel s l d :
  (∀ v e σ σ', dfs t fuel beg v (Some s) e σ = Returns σ' →
     σ' = foldl (visit_of beg) σ (trail fuel v (s :: l) e)) →
  ∀ nb σ σ',
    dfs_neighbours (dfs t fuel beg) s (head l) d nb σ = Returns σ' →
    σ' = foldl (visit_of beg) σ
           (flat_map (λ v : nat * W,
                        if decide (Some v.1 ≠ head l)
                        then trail fuel v.1 (s :: l)
                               (through_int (w_add d v.2))
                        else []) nb).
Proof.
  intros Hcall. induction nb as [|v nb IH]; intros σ σ' Hrun; simpl in Hrun.
  { by injection Hrun as <-. }
  simpl. rewrite foldl_app. case_decide.
  - returns Hrun. apply Hcall in Hrun0 as ->. by apply IH.
  - by apply IH.
Qed.

(** A returning call of [dfs] has done, in their order, what its calls
    do before their loops. *)
Lemma dfs_trail beg fuel : ∀ s l d σ σ',
  dfs t fuel beg s (head l) d σ = Returns σ' →
  σ' = foldl (visit_of beg) σ (trail fuel s l d).
Proof.
  induction fuel as [|fuel IH]; intros s l d σ σ' Hrun; [done|].
  cbn [dfs] in Hrun. cbn [trail foldl].
  eapply dfs_neighbours_trail in Hrun; [exact Hrun|].
  intros v e σ1 σ1'. apply (IH v (s :: l)).
Qed.

Lemma visits_distances beg tr : ∀ σ,
  distances (foldl (visit_of beg) σ tr)
  = distances σ ++ (filter (λ e, (beg < hd 0 e.1)%nat) tr).*2.
Proof.
  induction tr as [|[p d] tr IH]; intros σ; cbn [foldl].
  { by rewrite app_nil_r. }
  rewrite IH. unfold visit_of at 1. cbn [fst snd].
  destruct p as [|s l].
  { rewrite filter_cons_False; [done|]. simpl. lia. }
  unfold dfs_visit. cbn [distances].
  destruct (Nat.ltb_spec beg s).
  - rewrite filter_cons_True by done. rewrite fmap_cons.
    by rewrite <- app_assoc.
  - rewrite filter_cons_False; [done|]. simpl. lia.
Qed.

(** The distances that the loop over the start vertices pushes. *)
Lemma dfs_all_distances starts : ∀ σ σ',
  dfs_all t starts σ = Returns σ' →
  distances σ'
  = distances σ ++
    flat_map (λ a, (filter (λ e, (a < hd 0 e.1)%nat)
                      (trail (depth_bound t) a [] (w_of_int 0))).*2) starts.
Proof.
  induction starts as [|a starts IH]; intros σ σ' Hrun; cbn [dfs_all] in Hrun.
  { injection Hrun as <-. simpl. by rewrite app_nil_r. }
  returns Hrun. apply IH in Hrun as ->.
  apply (dfs_trail a (depth_bound t) a []) in Hrun0 as ->.
  rewrite visits_distances. simpl. by rewrite <- app_assoc.
Qed.

End Trail.

Section TrailTree.
Variable t : tree Z.
Hypothesis WF : well_formed t.
Variable beg : nat.
Hypothesis Hbeg : beg ∈ seq 1 (n t).

Lemma trail_walk fuel : ∀ s l d e,
  walk t (s :: l) d → last (s :: l) = Some beg →
  e ∈ trail t fuel s l d →
  walk t e.1 e.2 ∧ last e.1 = Some beg ∧ ∃ pre, e.1 = pre ++ s :: l.
Proof.
  induction fuel as [|fuel IH]; intros s l d e Hw Hlast He; simpl in He.
  { by apply elem_of_nil in He. }
  apply elem_of_cons in He as [->|He].
  { split_and!; [done..|]. by exists []. }
  apply list_elem_of_In, in_flat_map in He as ([v w] & Hv & He).
  apply list_elem_of_In in Hv, He. simpl in He.
  case_decide as Hp; [|by apply elem_of_nil in He].
  apply IH in He as (Hw' & Hlast' & pre & Hpre).
  - split_and!; [done..|]. exists (pre ++ [v]). by rewrite <- app_assoc.
  - apply walk_step; [done..|]. congruence.
  - by rewrite last_cons_cons.
Qed.

Lemma trail_suffix fuel : ∀ s l d p,
  p ∈ (trail t fuel s l d).*1 → ∃ pre, p = pre ++ s :: l.
Proof.
  induction fuel as [|fuel IH]; intros s l d p Hp; simpl in Hp.
  { by apply elem_of_nil in Hp. }
  apply elem_of_cons in Hp as [->|Hp]; [by exists []|].
  apply list_elem_of_fmap in Hp as ([p' d'] & -> & Hp).
  apply list_elem_of_In, in_flat_map in Hp as ([x y] & _ & Hp).
  apply list_elem_of_In in Hp. simpl in Hp.
  case_decide; [|by apply elem_of_nil in Hp].
  destruct (IH x (s :: l) (through_int (w_add d y)) p') as [pre ->].
  - apply list_elem_of_fmap. by exists (p', d').
  - exists (pre ++ [x]). simpl. by rewrite <- app_assoc.
Qed.

Lemma trail_NoDup fuel : ∀ s l d, NoDup (trail t fuel s l d).*1.
Proof.
  induction fuel as [|fuel IH]; intros s l d; simpl; [constructor|].
  assert (∀ nb : list (nat * Z), NoDup nb.*1 →
    NoDup (flat_map (λ v : nat * Z,
                       if decide (Some v.1 ≠ head l)
                       then trail t fuel v.1 (s :: l) (through_int (w_add d v.2))
                       else []) nb).*1 ∧
    ∀ p, p ∈ (flat_map (λ v : nat * Z,
                       if decide (Some v.1 ≠ head l)
                       then trail t fuel v.1 (s :: l) (through_int (w_add d v.2))
                       else []) nb).*1 →
         ∃ pre v, v ∈ nb.*1 ∧ p = pre ++ v :: s :: l) as Hnb.
  { induction nb as [|[v w] nb IHnb]; intros Hnd; simpl.
    { split; [constructor|]. intros p Hp. by apply elem_of_nil in Hp. }
    apply NoDup_cons in Hnd as [Hv Hnd].
    destruct (IHnb Hnd) as [Hnd' Hin'].
    assert (∀ p, p ∈ (if decide (Some v ≠ head l)
                      then trail t fuel v (s :: l) (through_int (w_add d w))
                      else []).*1 → ∃ pre, p = pre ++ v :: s :: l) as Hin.
    { intros p Hp. case_decide; [|by apply elem_of_nil in Hp].
      by eapply trail_suffix. }
    rewrite fmap_app. split.
    - apply NoDup_app. split_and!; [| |done].
      + case_decide; [apply IH|constructor].
      + intros p Hp Hp'. destruct (Hin p Hp) as [pre ->].
        destruct (Hin' _ Hp') as (pre' & v' & Hv' & Heq).
        apply app_inj_2 in Heq as [_ Heq]; [|done].
        injection Heq as ->. done.
    - intros p [Hp|Hp]%elem_of_app.
      + destruct (Hin p Hp) as [pre ->]. exists pre, v. split; [by left|done].
      + destruct (Hin' p Hp) as (pre & v' & Hv' & ->).
        exists pre, v'. split; [by right|done]. }
  destruct (Hnb (adj t s) (wf_simple t WF s)) as [Hnd Hin].
  constructor; [|done].
  intros Hp. destruct (Hin _ Hp) as (pre & v & _ & Heq).
  apply (f_equal length) in Heq. rewrite length_app in Heq. simpl in Heq. lia.
Qed.

Lemma trail_extend fuel : ∀ s l d x w p,
  p ∈ (trail t fuel s l d).*1 → (x, w) ∈ adj t (hd 0%nat p) →
  head (tail p) ≠ Some x →
  x :: p ∈ (trail t (S fuel) s l d).*1.
Proof.
  induction fuel as [|fuel IH]; intros s l d x w p Hp Hx Hnb; simpl in Hp.
  { by apply elem_of_nil in Hp. }
  apply elem_of_cons in Hp as [->|Hp].
  - cbn [trail]. rewrite fmap_cons. right.
    apply list_elem_of_fmap.
    exists (x :: s :: l, through_int (w_add d w)). split; [done|].
    apply list_elem_of_In, in_flat_map. exists (x, w). split.
    + by apply list_elem_of_In.
    + apply list_elem_of_In. simpl in Hnb |- *.
      rewrite decide_True by congruence. simpl. by left.
  - apply list_elem_of_fmap in Hp as ([p' d'] & -> & Hp).
    apply list_elem_of_In, in_flat_map in Hp as ([v y] & Hv & Hp).
    apply list_elem_of_In in Hp. simpl in Hp.
    case_decide as Hvp; [|by apply elem_of_nil in Hp].
    assert (x :: p' ∈ (trail t (S fuel) v (s :: l)
                         (through_int (w_add d y))).*1) as Hin.
    { eapply IH; [|done..]. apply list_elem_of_fmap. by exists (p', d'). }
    apply list_elem_of_fmap in Hin as ([q e] & Hq & Hin). simpl in Hq.
    subst q.
    change (trail t (S (S fuel)) s l d) with
      ((s :: l, d) ::
       flat_map (λ v : nat * Z,
                   if decide (Some v.1 ≠ head l)
                   then trail t (S fuel) v.1 (s :: l)
                          (through_int (w_add d v.2))
                   else []) (at_ [] (con t) s)).
    rewrite fmap_cons. right. apply list_elem_of_fmap.
    exists (x :: p', e). split; [done|].
    apply list_elem_of_In, in_flat_map. exists (v, y). split; [done|].
    apply list_elem_of_In. simpl. by rewrite decide_True by done.
Qed.

Lemma trail_complete pre : ∀ fuel s l d d',
  walk t (pre ++ s :: l) d' → (length pre < fuel)%nat →
  pre ++ s :: l ∈ (trail t fuel s l d).*1.
Proof.
  induction pre as [|x pre IH]; intros fuel s l d d' Hw Hlen.
  { destruct fuel; [lia|]. simpl. by left. }
  destruct fuel as [|fuel]; [simpl in Hlen; lia|].
  destruct (pre ++ s :: l) as [|s0 l0] eqn:Heq; [by destruct pre|].
  simpl in Hw. rewrite Heq in Hw.
  inversion Hw as [|v w s1 l1 d0 Hw0 Hvw Hnb]; subst.
  change ((x :: pre) ++ s :: l) with (x :: (pre ++ s :: l)). rewrite Heq.
  apply (trail_extend fuel s l d x w); [|done..].
  rewrite <- Heq. eapply IH; [by rewrite Heq|]. simpl in Hlen. lia.
Qed.

(** From a start vertex [dfs] calls itself once for every vertex. *)
Lemma trail_heads :
  hd 0%nat <$> (trail t (depth_bound t) beg [] 0).*1 ≡ₚ seq 1 (n t).
Proof.
  assert (∀ e, e ∈ trail t (depth_bound t) beg [] 0 →
            walk t e.1 e.2 ∧ last e.1 = Some beg) as Hwalk.
  { intros e He.
    apply (trail_walk _ beg [] 0) in He as (Hw & Hl & _);
      [done|apply walk_start|done]. }
  apply NoDup_Permutation; [|apply NoDup_seq|].
  - apply NoDup_fmap_2_strong; [|apply trail_NoDup].
    intros p q [e [-> He]]%list_elem_of_fmap [e' [-> He']]%list_elem_of_fmap
      Heq.
    apply Hwalk in He as [Hw Hl], He' as [Hw' Hl'].
    apply (walk_unique_list t WF _ _ Hw _ _ Hw'); [|congruence].
    pose proof (walk_nonempty t _ _ Hw). pose proof (walk_nonempty t _ _ Hw').
    destruct e.1, e'.1; try done. simpl in Heq. by subst.
  - intros x. split.
    + intros (p & -> & [e [-> He]]%list_elem_of_fmap)%list_elem_of_fmap.
      apply Hwalk in He as [Hw Hl].
      apply (walk_range t WF _ _ beg Hw Hl Hbeg).
      pose proof (walk_nonempty t _ _ Hw). destruct e.1; [done|]. by left.
    + intros Hx.
      destruct (wf_connected t WF beg x Hbeg Hx) as (l & d' & Hw & Hl).
      apply list_elem_of_fmap. exists (x :: l). split; [done|].
      pose proof (walk_length t WF _ _ beg Hw Hl Hbeg) as Hlen.
      apply last_Some in Hl as [pre Hpre]. rewrite Hpre in Hw, Hlen |- *.
      eapply trail_complete; [done|].
      rewrite length_app in Hlen. simpl in Hlen. unfold depth_bound. lia.
Qed.

End TrailTree.

Lemma filter_fmap {A B} (f : A → B) (P : B → Prop)
    `{!∀ y, Decision (P y)} (l : list A) :
  filter P (f <$> l) = f <$> filter (λ x, P (f x)) l.
Proof.
  induction l as [|x l IH]; [done|].
  rewrite fmap_cons, !filter_cons, IH. by case_decide.
Qed.

Lemma filter_lt_seq (a m : nat) :
  (a ≤ m)%nat → filter (λ x, (a < x)%nat) (seq 1 m) = seq (S a) (m - a).
Proof.
  intros Ha. replace m with (a + (m - a))%nat at 1 by lia.
  rewrite seq_app, filter_app.
  rewrite (filter_none _ (seq 1 a)), (filter_all _ (seq (1 + a) (m - a)));
    [done| |]; intros x Hx%elem_of_seq; lia.
Qed.

Lemma elem_of_pairs (m a x : nat) :
  (a, x) ∈ pairs m ↔ (1 ≤ a)%nat ∧ (a < x)%nat ∧ (x ≤ m)%nat.
Proof.
  unfold pairs. rewrite list_elem_of_In, in_flat_map. split.
  - intros (a' & Ha%list_elem_of_In%elem_of_seq & Hx%list_elem_of_In).
    apply list_elem_of_fmap in Hx as (x' & [= -> ->] & Hx%elem_of_seq). lia.
  - intros (Ha & Hx & Hm). exists a. split.
    + apply list_elem_of_In, elem_of_seq. lia.
    + apply list_elem_of_In, list_elem_of_fmap. exists x. split; [done|].
      apply elem_of_seq. lia.
Qed.

Lemma length_pairs (m : nat) : (2 * length (pairs m) = m * (m - 1))%nat.
Proof.
  unfold pairs. rewrite length_flat_map.
  assert (∀ k, (k ≤ m)%nat →
    (2 * list_sum (map (λ a, length ((λ x, (a, x)) <$> seq (S a) (m - a)))
                     (seq (S (m - k)) k)) = k * (k - 1))%nat) as Hsum.
  { induction k as [|k IH]; intros Hk; [done|].
    cbn [seq map list_sum].
    rewrite length_fmap, length_seq.
    replace (S (S (m - S k))) with (S (m - k)) by lia.
    replace (m - S (m - S k))%nat with k by lia.
    specialize (IH ltac:(lia)). destruct k; [simpl in *; lia|].
    simpl in IH |- *. rewrite Nat.sub_0_r in *. nia. }
  specialize (Hsum m ltac:(lia)). by rewrite Nat.sub_diag in Hsum.
Qed.

Section Universe.
Context {SS : StdSort}.
Variable t : tree Z.
Hypothesis WF : well_formed t.

Lemma pushes_of_start σ a :
  tables_ok t σ → a ∈ seq 1 (n t) →
  (filter (λ e, (a < hd 0 e.1)%nat) (trail t (depth_bound t) a [] 0)).*2
  ≡ₚ at2 (D σ) a <$> seq (S a) (n t - a).
Proof.
  intros Hok Ha.
  rewrite <- filter_lt_seq by (apply elem_of_seq in Ha; lia).
  rewrite <- (trail_heads t WF a Ha), <- list_fmap_compose, filter_fmap.
  rewrite <- list_fmap_compose.
  erewrite (Forall_fmap_ext_1 (at2 (D σ) a ∘ (hd 0%nat ∘ fst)) snd); [done|].
  apply Forall_forall. intros e [_ He]%list_elem_of_filter. simpl.
  apply (trail_walk t a _ a [] 0) in He as (Hw & Hl & _);
    [|apply walk_start|done].
  apply (t_dist t σ Hok); [done|].
  pose proof (walk_nonempty t _ _ Hw). destruct e.1 as [|x l] eqn:He; [done|].
  by exists l.
Qed.

Lemma raw_distances σ :
  raw_tables t = Returns σ →
  distances σ ≡ₚ (λ p, at2 (D σ) p.1 p.2) <$> pairs (n t).
Proof.
  intros Hraw. pose proof (raw_tables_ok t WF σ Hraw) as Hok.
  unfold raw_tables in Hraw. apply dfs_all_distances in Hraw as ->.
  simpl. unfold pairs.
  assert (∀ l, (∀ a, a ∈ l → a ∈ seq 1 (n t)) →
    flat_map (λ a, (filter (λ e, (a < hd 0 e.1)%nat)
                      (trail t (depth_bound t) a [] 0)).*2) l
    ≡ₚ (λ p, at2 (D σ) p.1 p.2)
         <$> flat_map (λ a, (λ x, (a, x)) <$> seq (S a) (n t - a)) l) as Hl.
  { induction l as [|a l IH]; intros Hin; [done|]. simpl.
    rewrite fmap_app, <- list_fmap_compose.
    rewrite IH by (intros b Hb; apply Hin; by right).
    rewrite (pushes_of_start σ a Hok) by (apply Hin; by left). done. }
  by apply Hl.
Qed.

Lemma precompute_distances_pairs σ :
  precompute t = Returns σ →
  distances σ ≡ₚ (λ p, at2 (D σ) p.1 p.2) <$> pairs (n t).
Proof.
  unfold precompute. intros Hrun. returns Hrun. injection Hrun as <-.
  simpl. rewrite std_sort_perm. by apply raw_distances.
Qed.

Lemma pair_distance σ p :
  tables_ok t σ → p ∈ pairs (n t) → dist t p.1 p.2 (at2 (D σ) p.1 p.2).
Proof.
  intros Hok Hp. destruct p as [a x]. apply elem_of_pairs in Hp. simpl.
  assert (a ∈ seq 1 (n t)) as Ha by (apply elem_of_seq; lia).
  assert (x ∈ seq 1 (n t)) as Hx by (apply elem_of_seq; lia).
  destruct (dist_total t WF a x Ha Hx) as [d Hd].
  by rewrite (t_dist t σ Hok a x d Ha Hd).
Qed.

End Universe.

(** ** The chains of ancestors *)

Section Chains.
Variable t : tree Z.
Hypothesis WF : well_formed t.
Hypothesis Hroot : root ∈ seq 1 (n t).

(** [ancestors[x]] lists the path from the root to [x], root first. *)
Definition chained (x : nat) (σ : tables (W := Z)) : Prop :=
  ∃ l d, on_path t root x l d ∧ at_ [] (ancestors σ) x = rev (x :: l).

(** What a call of [dfs] on [s] with the path [l] behind it relies on:
    the chain of the parent is there, and the chain of the root is
    empty before its visit. *)
Definition ready (s : nat) (l : list nat) (σ : tables (W := Z)) : Prop :=
  match l with
  | [] => at_ [] (ancestors σ) s = []
  | p :: _ => chained p σ
  end.

Lemma visit_chain s l d σ :
  on_path t root s l d → length (ancestors σ) = S (n t) → ready s l σ →
  length (ancestors (dfs_visit root s (head l) d σ)) = S (n t) ∧
  chained s (dfs_visit root s (head l) d σ) ∧
  ∀ x, chained x σ → chained x (dfs_visit root s (head l) d σ).
Proof.
  intros Hpath Hlen Hready.
  pose proof (on_path_range t WF root Hroot _ _ _ Hpath) as Hs%elem_of_seq.
  assert (at_ [] (ancestors (dfs_visit root s (head l) d σ)) s = rev (s :: l)
          ∧ (∀ x, x ≠ s →
               at_ [] (ancestors (dfs_visit root s (head l) d σ)) x
               = at_ [] (ancestors σ) x)
          ∧ length (ancestors (dfs_visit root s (head l) d σ)) = S (n t))
    as (Hat & Hother & Hlen').
  { unfold dfs_visit. cbn [ancestors]. rewrite Nat.eqb_refl.
    destruct l as [|p l]; cbn [head].
    - simpl in Hready. split_and!.
      + rewrite at_alter by lia. rewrite decide_True by done.
        by rewrite Hready.
      + intros x Hx. rewrite at_alter by lia. by rewrite decide_False.
      + by rewrite length_alter.
    - destruct Hready as (lp & dp & [Hwp Hlp] & Hp).
      destruct Hpath as [Hw Hlast].
      inversion Hw as [|v w s' l' d' Hw' Hvw Hnb]; subst.
      assert (p :: lp = p :: l) as Heq.
      { eapply (walk_unique_list t WF); [exact Hwp|exact Hw'|done|].
        rewrite Hlp. by rewrite last_cons_cons in Hlast. }
      split_and!.
      + rewrite at_alter by (rewrite length_insert; lia).
        rewrite decide_True by done. rewrite at_insert by lia.
        rewrite decide_True by done. rewrite Hp, Heq. done.
      + intros x Hx. rewrite at_alter by (rewrite length_insert; lia).
        rewrite decide_False by done. rewrite at_insert by lia.
        by rewrite decide_False.
      + by rewrite length_alter, length_insert. }
  split_and!; [done| |].
  - destruct Hpath as [Hw Hlast]. by exists l, d.
  - intros x (lx & dx & Hx & Hchain).
    destruct (decide (x = s)) as [->|Hxs].
    + exists l, d. split; [done|done].
    + exists lx, dx. split; [done|]. by rewrite Hother.
Qed.

Lemma dfs_chains fuel : ∀ s l d σ σ',
  on_path t root s l d → length (ancestors σ) = S (n t) → ready s l σ →
  dfs t fuel root s (head l) d σ = Returns σ' →
  length (ancestors σ') = S (n t) ∧
  (∀ x, chained x σ → chained x σ') ∧
  (∀ x, below t s l x → chained x σ').
Proof.
  induction fuel as [|fuel IH]; intros s l d σ σ' Hpath Hlen Hready Hrun;
    [done|].
  simpl in Hrun.
  destruct (visit_chain s l d σ Hpath Hlen Hready) as (Hlen1 & Hs1 & Hkeep1).
  set (σ1 := dfs_visit root s (head l) d σ) in *.
  assert (∀ nb σa σb,
    (∀ e, e ∈ nb → e ∈ adj t s) →
    length (ancestors σa) = S (n t) → chained s σa →
    dfs_neighbours (dfs t fuel root) s (head l) d nb σa = Returns σb →
    length (ancestors σb) = S (n t) ∧ (∀ x, chained x σa → chained x σb) ∧
    (∀ v w x, (v, w) ∈ nb → Some v ≠ head l → below t v (s :: l) x →
       chained x σb)) as Hloop.
  { clear Hrun.
    induction nb as [|[v w] nb IHnb]; intros σa σb Hnb Hla Hsa Hrun.
    { injection Hrun as <-. split_and!; [done..|].
      intros v w x H. by apply elem_of_nil in H. }
    simpl in Hrun.
    assert (∀ e, e ∈ nb → e ∈ adj t s) as Hnb'
      by (intros e He; apply Hnb; by right).
    destruct (decide (Some v ≠ head l)) as [Hvp|Hvp].
    - returns Hrun. rename r into σc.
      destruct (IH v (s :: l) (d + w) σa σc) as (Hlc & Hkc & Hbelow);
        [|done|done|done|].
      { destruct Hpath as [Hw Hlast]. split; [|done].
        constructor; [done|apply Hnb; by left|congruence]. }
      destruct (IHnb σc σb Hnb' Hlc (Hkc _ Hsa) Hrun) as (Hlb & Hkb & Hrest).
      split_and!; [done|by auto|].
      intros v' w' x [[= -> ->]|Hin]%elem_of_cons Hne Hx.
      + by apply Hkb, Hbelow.
      + by eapply Hrest.
    - destruct (IHnb σa σb Hnb' Hla Hsa Hrun) as (Hlb & Hkb & Hrest).
      split_and!; [done..|].
      intros v' w' x [[= -> ->]|Hin]%elem_of_cons Hne Hx; [done|].
      by eapply Hrest. }
  destruct (Hloop (adj t s) σ1 σ') as (Hl' & Hk' & Hcov); [done..|].
  split_and!; [done|by auto|].
  intros x [->|(v & w & Hvw & Hne & Hx)]%(below_cases t);
    [by apply Hk'|].
  by eapply Hcov.
Qed.

Lemma raw_chains σ x :
  raw_tables t = Returns σ → x ∈ seq 1 (n t) → chained x σ.
Proof.
  intros Hraw Hx. unfold raw_tables in Hraw.
  assert (seq 1 (n t) = root :: seq 2 (n t - 1)) as Hseq.
  { apply elem_of_seq in Hx. destruct (n t) as [|m]; [lia|].
    simpl. by rewrite Nat.sub_0_r. }
  rewrite Hseq in Hraw. cbn [dfs_all] in Hraw. returns Hraw.
  rename r into σ2.
  set (σ0 := Tables (replicate (S (n t)) []) (replicate (S (n t)) []) [])
    in *.
  assert (length (D σ0) = S (n t)) as HD0 by apply length_replicate.
  assert (length (ancestors σ0) = S (n t)) as HA0 by apply length_replicate.
  assert (chained x σ2) as (l & d & Hpath & Hchain).
  { eapply (dfs_chains _ root [] 0); [| | |exact Hraw0|].
    - split; [constructor|done].
    - done.
    - unfold ready, σ0, at_. cbn [ancestors].
      rewrite lookup_replicate_2; [done|].
      pose proof Hroot as Hr%elem_of_seq. lia.
    - destruct (dist_total t WF root x Hroot Hx) as [dx Hdx].
      by eapply dist_below. }
  destruct (dfs_from_spec t WF root Hroot _ σ0 σ2 HD0 HA0 Hraw0)
    as [[Hrows _ Hch _ _ _ _] _].
  destruct (dfs_all_spec t WF (seq 2 (n t - 1)) σ2 σ)
    as (_ & _ & _ & _ & _ & _ & Hanc & _);
    [apply NoDup_seq| |done..|].
  { intros a Ha%elem_of_seq. apply elem_of_seq. lia. }
  exists l, d. split; [done|]. rewrite Hanc; [done|].
  intros Hin%elem_of_seq. unfold root in Hin. lia.
Qed.

End Chains.

Lemma ancestors_chained {SS : StdSort} (t : tree Z) (WF : well_formed t)
    (σ : tables) (x : nat) :
  precompute t = Returns σ → x ∈ seq 1 (n t) →
  ∃ l d, at_ [] (ancestors σ) x = rev (x :: l) ∧
    walk t (x :: l) d ∧ last (x :: l) = Some root.
Proof.
  intros Hpre Hx. unfold precompute in Hpre. returns Hpre.
  injection Hpre as <-. simpl.
  destruct (raw_chains t WF) with (σ := r) (x := x)
    as (l & d & [Hw Hlast] & Hchain); [|done..|by exists l, d].
  apply elem_of_seq in Hx. apply elem_of_seq. unfold root. lia.
Qed.

(** ** The covering ancestor *)

Lemma find_first {A} (P : A → bool) (l : list A) x :
  find P l = Some x →
  ∃ l1 l2, l = l1 ++ x :: l2 ∧ P x = true ∧ ∀ y, y ∈ l1 → P y = false.
Proof.
  induction l as [|z l IH]; intros Hfind; [done|]. simpl in Hfind.
  destruct (P z) eqn:Hz.
  - injection Hfind as ->. exists [], l. split_and!; [done..|].
    intros y Hy. by apply elem_of_nil in Hy.
  - destruct (IH Hfind) as (l1 & l2 & -> & Hx & Hl1).
    exists (z :: l1), l2. split_and!; [done..|].
    intros y [->|Hy]%elem_of_cons; [done|by apply Hl1].
Qed.

Section Split.
Variable t : tree Z.

(** A walk is the walk up to one of its vertices followed by the walk
    from that vertex, and the weights add up. *)
Lemma walk_split pre : ∀ y l d,
  walk t (pre ++ y :: l) d →
  ∃ d1 d2, walk t (y :: l) d1 ∧ walk t (pre ++ [y]) d2 ∧ d = d1 + d2.
Proof.
  induction pre as [|x pre IH]; intros y l d Hw; simpl in *.
  { exists d, 0. split_and!; [done|constructor|lia]. }
  destruct (pre ++ y :: l) as [|s q] eqn:Heq; [by destruct pre|].
  inversion Hw as [|v w s' l' d' Hw' Hvw Hnb]; subst.
  rewrite <- Heq in Hw'.
  destruct (IH y l d' Hw') as (d1 & d2 & H1 & H2 & ->).
  exists d1, (d2 + w). split_and!; [done| |lia].
  destruct pre as [|s0 pre]; simpl in *.
  - injection Heq as -> ->. by constructor.
  - injection Heq as -> <-. constructor; [done..|].
    by destruct pre.
Qed.

End Split.

Section Cover.
Context {SS : StdSort}.
Variable t : tree Z.
Hypothesis WF : well_formed t.

Lemma chain_distance σ i y before after :
  tables_ok t σ → i ∈ seq 1 (n t) → chained t i σ →
  at_ [] (ancestors σ) i = before ++ y :: after →
  at2 (D σ) root i = at2 (D σ) root y + at2 (D σ) y i.
Proof.
  intros Hok Hi (l & d & [Hw Hlast] & Hchain) Heq.
  assert (root ∈ seq 1 (n t)) as Hroot.
  { apply elem_of_seq in Hi. apply elem_of_seq. unfold root. lia. }
  rewrite Hchain in Heq. apply (f_equal (@rev nat)) in Heq.
  rewrite rev_involutive, rev_app_distr in Heq. simpl in Heq.
  rewrite <- app_assoc in Heq. simpl in Heq.
  rewrite Heq in Hw, Hlast.
  destruct (walk_split t _ _ _ _ Hw) as (d1 & d2 & H1 & H2 & ->).
  assert (last (y :: rev before) = Some root) as Hl1.
  { by rewrite last_app_cons in Hlast. }
  assert (y ∈ seq 1 (n t)) as Hy.
  { eapply (walk_range t WF _ _ root H1 Hl1 Hroot). by left. }
  assert (dist t root i (d1 + d2)) as Hdi.
  { rewrite <- Heq in Hw, Hlast. by exists l. }
  assert (dist t root y d1) as Hdy by (by exists (rev before)).
  assert (dist t y i d2) as Hyi.
  { destruct (rev after ++ [y]) as [|i' q] eqn:E; [by destruct (rev after)|].
    assert (i' = i) as ->.
    { assert (head (rev after ++ y :: rev before) = Some i) as Hh
        by (by rewrite <- Heq).
      destruct (rev after); simpl in *; simplify_eq; done. }
    exists q. split; [done|]. rewrite <- E. apply last_snoc. }
  rewrite (t_dist t σ Hok _ _ _ Hroot Hdi), (t_dist t σ Hok _ _ _ Hroot Hdy),
    (t_dist t σ Hok _ _ _ Hy Hyi). done.
Qed.

End Cover.

(** ** A capacity that is never reached *)

(** No vertex has more than [C] vertices within [radius]. *)
Definition roomy {W} {WT : WeightType W} (σ : tables) (C : Z) (radius : W)
    (m : nat) : Prop :=
  Forall (λ c, Z.of_nat (length (filter (λ v, within σ radius c v = true)
                                   (seq 1 m))) ≤ C) (seq 1 m).

#[export] Instance roomy_dec {W} {WT : WeightType W} σ C (radius : W) m :
  Decision (roomy σ C radius m).
Proof. unfold roomy. apply _. Defined.

Lemma same_at (l1 l2 : list nat) :
  length l1 = length l2 → (∀ i, at_ 0%nat l1 i = at_ 0%nat l2 i) → l1 = l2.
Proof.
  intros Hlen Hat. apply list_eq. intros i. specialize (Hat i).
  unfold at_ in Hat.
  destruct (l1 !! i) as [x|] eqn:H1, (l2 !! i) as [y|] eqn:H2; simpl in Hat;
    [by subst|..|done].
  - apply lookup_lt_Some in H1. apply lookup_ge_None in H2. lia.
  - apply lookup_lt_Some in H2. apply lookup_ge_None in H1. lia.
Qed.

(** The last loop of an iteration does not depend on the order of
    [reachable]. *)
Lemma assign_all_perm center R1 R2 a U :
  R1 ≡ₚ R2 → assign_all center R1 a U = assign_all center R2 a U.
Proof.
  intros HR.
  destruct (assign_all_spec center R1 a U) as (a1 & -> & Hl1 & Hin1 & Hout1).
  destruct (assign_all_spec center R2 a U) as (a2 & -> & Hl2 & Hin2 & Hout2).
  f_equal.
  - apply same_at; [congruence|]. intros v.
    destruct (decide (v ∈ R1)) as [Hv|Hv].
    + destruct (decide (v < length a)%nat) as [Hlt|Hge].
      * rewrite Hin1, Hin2; [done| |done..]. by rewrite <- HR.
      * unfold at_. rewrite !lookup_ge_None_2; [done|lia..].
    + rewrite Hout1, Hout2; [done| |done]. by rewrite <- HR.
  - apply filter_ext_elem. intros y _. by rewrite HR.
Qed.

Lemma cap_id C (R : list nat) : Z.of_nat (length R) ≤ C → cap C R = R.
Proof.
  intros HR. unfold cap, to_size_t.
  destruct (Z.ltb_spec C 0); [lia|].
  by destruct (Z.gtb_spec (Z.of_nat (length R)) C); [lia|].
Qed.

Section Roomy.
Context {W : Type} {WT : WeightType W}.
Variables (S1 S2 : StdSort) (σ : tables (W := W)) (C : Z).

Lemma greedy_roomy radius m rounds :
  roomy σ C radius m → ∀ U st cs a,
  NoDup U → (∀ v, v ∈ U → v ∈ seq 1 m) → (∀ c, c ∈ st.*2 → c ∈ seq 1 m) →
  @greedy W WT S1 σ C radius rounds U st cs a
  = @greedy W WT S2 σ C radius rounds U st cs a.
Proof.
  intros Hroomy.
  induction rounds as [|rounds IH]; intros U st cs a HU HUr Hst; [done|].
  cbn [greedy]. destruct U as [|u U]; [done|]. destruct st as [|top st]; [done|].
  assert (∀ SS : StdSort,
    cap C (@reachable_sorted W WT SS σ radius top.2 (u :: U))
    = @reachable_sorted W WT SS σ radius top.2 (u :: U)) as Hcap.
  { intros SS. apply cap_id. rewrite reachable_sorted_perm.
    unfold roomy in Hroomy. rewrite Forall_forall in Hroomy.
    etransitivity; [|apply (Hroomy top.2), Hst; by left].
    apply inj_le, submseteq_length, NoDup_submseteq.
    - by apply NoDup_filter.
    - intros v [Hv HvU]%list_elem_of_filter. apply list_elem_of_filter.
      split; [done|by apply HUr]. }
  rewrite !Hcap.
  rewrite (assign_all_perm top.2
             (@reachable_sorted W WT S1 σ radius top.2 (u :: U))
             (@reachable_sorted W WT S2 σ radius top.2 (u :: U)))
    by (by rewrite !reachable_sorted_perm).
  destruct (assign_all_spec top.2
              (@reachable_sorted W WT S2 σ radius top.2 (u :: U)) a (u :: U))
    as (a' & -> & _).
  apply IH.
  - by apply NoDup_filter.
  - intros v [_ Hv]%list_elem_of_filter. by apply HUr.
  - intros c Hc. apply Hst. by right.
Qed.

(** [check(radius)] is the same for every sort when no vertex has more
    than [C] vertices within [radius]. *)
Lemma check_roomy (t : tree W) k radius ans :
  roomy σ C radius (n t) →
  @check W WT S1 t σ C k radius ans = @check W WT S2 t σ C k radius ans.
Proof.
  intros Hroomy. unfold check.
  destruct (check_init_spec t σ radius) as (f & st & -> & _ & Hst).
  rewrite (greedy_roomy radius (n t)); [done..|apply NoDup_seq|done|done].
Qed.

Lemma roomy_capacity radius m : Z.of_nat m ≤ C → roomy σ C radius m.
Proof.
  intros Hm. apply Forall_forall. intros c _.
  pose proof (length_filter (λ v, within σ radius c v = true) (seq 1 m)) as H.
  rewrite length_seq in H. lia.
Qed.

Lemma search_capacity (t : tree W) k fuel : ∀ lo hi ans,
  Z.of_nat (n t) ≤ C →
  @search W WT S1 t σ C k fuel lo hi ans
  = @search W WT S2 t σ C k fuel lo hi ans.
Proof.
  induction fuel as [|fuel IH]; intros lo hi ans Hn; [done|].
  cbn [search]. destruct (lo <? hi); [|done].
  destruct (dist_at σ _) as [r| | |]; try done. step_bind.
  rewrite check_roomy by (by apply roomy_capacity).
  destruct (@check W WT S2 t σ C k r ans) as [[[] ans1]| | |]; try done;
    step_bind; by apply IH.
Qed.

(** The radii that the search tries are roomy; the search is followed
    with the sort [S2]. *)
Fixpoint probes_roomy (t : tree W) (k : Z) (fuel : nat) (lo hi : Z)
    (ans : answer) : Prop :=
  if lo <? hi then
    match fuel with
    | O => True
    | S fuel =>
        let mid := Z.shiftr (lo + hi) 1 in
        match dist_at σ mid with
        | Returns r =>
            roomy σ C r (n t) ∧
            match @check W WT S2 t σ C k r ans with
            | Returns (ok, ans) =>
                if ok : bool then probes_roomy t k fuel lo mid ans
                else probes_roomy t k fuel (mid + 1) hi ans
            | _ => True
            end
        | _ => True
        end
    end
  else
    match dist_at σ lo with
    | Returns r => roomy σ C r (n t)
    | _ => True
    end.

Lemma search_probes (t : tree W) k fuel : ∀ lo hi ans,
  probes_roomy t k fuel lo hi ans →
  @search W WT S1 t σ C k fuel lo hi ans
  = @search W WT S2 t σ C k fuel lo hi ans ∧
  ∀ lo' ans' r,
    @search W WT S2 t σ C k fuel lo hi ans = Returns (lo', ans') →
    dist_at σ lo' = Returns r → roomy σ C r (n t).
Proof.
  induction fuel as [|fuel IH]; intros lo hi ans Hp; cbn [search probes_roomy]
    in *.
  { destruct (lo <? hi); [done|]. split; [done|].
    intros lo' ans' r [= <- <-] Hr. by rewrite Hr in Hp. }
  destruct (lo <? hi).
  2: { split; [done|]. intros lo' ans' r [= <- <-] Hr. by rewrite Hr in Hp. }
  destruct (dist_at σ _) as [r| | |]; try done. step_bind.
  destruct Hp as [Hr Hp]. rewrite check_roomy by done.
  destruct (@check W WT S2 t σ C k r ans) as [[[] ans1]| | |]; try done;
    step_bind; by apply IH.
Qed.

End Roomy.

Lemma k_centers_probes {W} {WT : WeightType W} (S1 S2 : StdSort)
    (t : tree W) (C k : Z) (σ : tables) :
  total_ltb (w_ltb (W := W)) →
  @precompute W WT S2 t = Returns σ →
  probes_roomy S2 σ C t k (length (distances σ)) 0
    (Z.of_nat (length (distances σ)) - 1)
    (Answer [] (replicate (S (n t)) 0%nat)) →
  @k_centers W WT S1 t C k = @k_centers W WT S2 t C k.
Proof.
  intros Htot Hpre Hp. unfold k_centers.
  destruct (k * C <? Z.of_nat (n t)); [done|].
  rewrite (precompute_any_sort S1 S2) by done. rewrite Hpre. step_bind.
  destruct (search_probes S1 S2 σ C t k _ _ _ _ Hp) as [-> Hfinal].
  destruct (@search W WT S2 _ _ _ _ _ _ _ _) as [[lo ans]| | |]; try done.
  step_bind. destruct (dist_at σ lo) as [r| | |] eqn:Hr; try done. step_bind.
  rewrite (check_roomy S1 S2); [done|]. by eapply Hfinal.
Qed.

(** ** Vertices that the traversal does not reach *)

Section Unreached.
Variable t : tree Z.

(** [dfs(a, a, -1, 0)] calls itself on [x]. *)
Definition reached (a x : nat) : Prop :=
  x ∈ hd 0%nat <$> (trail t (depth_bound t) a [] 0).*1.

Lemma visits_row beg (tr : list (list nat * Z)) : ∀ (σ : tables (W := Z)) a x,
  a ≠ beg ∨ x ∉ hd 0%nat <$> tr.*1 →
  at2 (D (foldl (visit_of beg) σ tr)) a x = at2 (D σ) a x.
Proof.
  induction tr as [|[p d] tr IH]; intros σ a x Hax; [done|].
  cbn [foldl]. rewrite IH.
  2: { destruct Hax as [?|Hx]; [by left|right].
       intros Hin. apply Hx. rewrite !fmap_cons. by right. }
  unfold visit_of. cbn [fst snd]. destruct p as [|s l]; [done|].
  unfold dfs_visit, at2, at_. cbn [D].
  destruct (decide (a = beg)) as [->|Hne].
  - destruct Hax as [?|Hx]; [done|].
    rewrite list_lookup_alter_eq.
    destruct (D σ !! beg) as [row|]; [|done]. simpl.
    rewrite list_lookup_insert_ne; [done|].
    intros ->. apply Hx. rewrite !fmap_cons. by left.
  - by rewrite list_lookup_alter_ne.
Qed.

Lemma resize_row (row : list Z) m x :
  at_ 0 (resize m 0 row) x ≠ 0 → at_ 0 row x ≠ 0.
Proof.
  unfold at_. intros Hne Hz.
  destruct (decide (x < m)%nat) as [Hlt|Hge].
  - destruct (decide (x < length row)%nat) as [Hx|Hx].
    + by rewrite lookup_resize in Hne by done.
    + by rewrite lookup_resize_new in Hne by lia.
  - by rewrite lookup_resize_old in Hne by lia.
Qed.

Lemma dfs_all_rows starts : ∀ σ σ',
  dfs_all t starts σ = Returns σ' →
  (∀ a x, at2 (D σ) a x ≠ 0 → reached a x) →
  ∀ a x, at2 (D σ') a x ≠ 0 → reached a x.
Proof.
  induction starts as [|i starts IH]; intros σ σ' Hrun Hinit;
    cbn [dfs_all] in Hrun.
  { by injection Hrun as <-. }
  returns Hrun. eapply IH; [exact Hrun|].
  apply (dfs_trail t i (depth_bound t) i []) in Hrun0 as ->.
  intros a x Hne.
  destruct (decide (a = i ∧ x ∈ hd 0%nat <$> (trail t (depth_bound t) i [] 0).*1))
    as [[-> Hx]|Hno]; [done|].
  rewrite visits_row in Hne by (apply not_and_l in Hno; tauto).
  apply Hinit. unfold at2, at_ in Hne |- *. cbn [D] in Hne.
  destruct (decide (a = i)) as [->|Hai].
  - rewrite list_lookup_alter_eq in Hne.
    destruct (D σ !! i) as [row|]; [|done]. simpl in Hne |- *.
    by apply resize_row in Hne.
  - by rewrite list_lookup_alter_ne in Hne.
Qed.

Lemma reached_dist a x : reached a x → ∃ d, dist t a x d.
Proof.
  intros (p & -> & [e [-> He]]%list_elem_of_fmap)%list_elem_of_fmap.
  apply (trail_walk t a _ a [] 0) in He as (Hw & Hl & _);
    [|apply walk_start|done].
  destruct e.1 as [|x l]; [by inversion Hw|].
  exists e.2, l. done.
Qed.

End Unreached.

(** ** Distances within the range of [int] *)

Lemma distances_fit_table {SS : StdSort} (t : tree Z) σ :
  well_formed t → precompute t = Returns σ →
  Forall (λ y, y < 2 ^ 31) (distances σ) → distances_fit t.
Proof.
  intros WF Hpre Hall a x d Ha Hx Hd.
  destruct (precompute_ok t WF σ Hpre) as [Hok _].
  rewrite Forall_forall in Hall.
  destruct (lt_eq_lt_dec a x) as [[Hlt| ->]|Hgt].
  - apply Hall. by apply (t_universe t σ Hok a x).
  - rewrite (dist_unique t WF x x d 0 Hd); [lia|apply dist_refl].
  - apply Hall. apply (t_universe t σ Hok x a); [done..|].
    by apply dist_sym.
Qed.

Lemma star_distances_fit : distances_fit star.
Proof.
  apply (distances_fit_table (SS := insertion_std_sort) star star_tables).
  - apply tree_check_well_formed. by_decide.
  - apply star_precompute.
  - by_decide.
Qed.

Lemma fork4_distances_fit : distances_fit fork4.
Proof.
  apply (distances_fit_table (SS := insertion_std_sort) fork4 fork4_tables).
  - apply tree_check_well_formed. by_decide.
  - apply fork4_precompute.
  - by_decide.
Qed.

(** ** The rows of [D] *)

Section Rows.
Variable t : tree Z.

Lemma visits_row_length beg (tr : list (list nat * Z)) :
  ∀ (σ : tables (W := Z)) a,
  length (at_ [] (D (foldl (visit_of beg) σ tr)) a)
  = length (at_ [] (D σ) a).
Proof.
  induction tr as [|[p d] tr IH]; intros σ a; [done|].
  cbn [foldl]. rewrite IH. unfold visit_of. cbn [fst snd].
  destruct p as [|s l]; [done|]. unfold dfs_visit, at_. cbn [D].
  destruct (decide (a = beg)) as [->|Hne].
  - rewrite list_lookup_alter_eq.
    destruct (D σ !! beg) as [row|]; [|done]. simpl.
    by rewrite length_insert.
  - by rewrite list_lookup_alter_ne.
Qed.

Lemma visits_rows beg (tr : list (list nat * Z)) :
  ∀ (σ : tables (W := Z)),
  length (D (foldl (visit_of beg) σ tr)) = length (D σ).
Proof.
  induction tr as [|[p d] tr IH]; intros σ; [done|].
  cbn [foldl]. rewrite IH. unfold visit_of. cbn [fst snd].
  destruct p as [|s l]; [done|]. unfold dfs_visit. cbn [D].
  by rewrite length_alter.
Qed.

(** [D[a]] has [n + 1] elements once the loop has passed [a]. *)
Lemma dfs_all_row_length a starts : ∀ σ σ',
  dfs_all t starts σ = Returns σ' → (a < length (D σ))%nat →
  a ∈ starts ∨ length (at_ [] (D σ) a) = S (n t) →
  length (at_ [] (D σ') a) = S (n t).
Proof.
  induction starts as [|i starts IH]; intros σ σ' Hrun Ha Hrow;
    cbn [dfs_all] in Hrun.
  { injection Hrun as <-. destruct Hrow as [Hin|]; [|done].
    by apply elem_of_nil in Hin. }
  returns Hrun.
  apply (dfs_trail t i (depth_bound t) i []) in Hrun0 as ->.
  eapply IH; [exact Hrun|..].
  { rewrite visits_rows. cbn [D]. by rewrite length_alter. }
  rewrite visits_row_length. unfold at_. cbn [D].
  destruct (decide (a = i)) as [->|Hai].
  - right. rewrite list_lookup_alter_eq.
    destruct (lookup_lt_is_Some_2 (D σ) i Ha) as [row ->]. simpl.
    apply length_resize.
  - rewrite list_lookup_alter_ne by done.
    destruct Hrow as [Hin|Hrow]; [|by right].
    apply elem_of_cons in Hin as [?|Hin]; [done|by left].
Qed.

End Rows.

(** ** What a call without centers returns *)

Lemma k_centers_no_centers {SS : StdSort} (t : tree Z) (C k : Z) :
  well_formed t → (2 ≤ n t)%nat → k ≤ 0 → Z.of_nat (n t) ≤ k * C →
  ∃ σ r, precompute t = Returns σ ∧ last (distances σ) = Some r ∧
    (∃ i j, i ∈ seq 1 (n t) ∧ j ∈ seq 1 (n t) ∧ dist t i j r) ∧
    (∀ a x d, a ∈ seq 1 (n t) → x ∈ seq 1 (n t) → dist t a x d → d ≤ r) ∧
    k_centers t C k = Returns (r, [], replicate (S (n t)) 0%nat).
Proof.
  intros WF Hn Hk HkC.
  destruct (raw_tables_Returns t WF) as [raw Hraw].
  assert (∃ σ, precompute t = Returns σ) as [σ Hpre].
  { unfold precompute. rewrite Hraw. by eexists. }
  destruct (precompute_ok t WF σ Hpre) as [Hok Hsorted].
  pose proof (distances_nonempty t σ WF Hok Hn) as Hne.
  destruct (proj2 (last_is_Some (distances σ)) Hne) as [r Hlast].
  exists σ, r. split_and!; [done..| |by eapply last_distance_max|].
  { apply last_Some_elem_of in Hlast as Hr.
    rewrite (precompute_distances_pairs t WF σ Hpre) in Hr.
    apply list_elem_of_fmap in Hr as ([i j] & -> & Hp).
    pose proof (pair_distance t WF σ _ Hok Hp) as Hd.
    apply elem_of_pairs in Hp. exists i, j.
    split_and!; [apply elem_of_seq; lia..|done]. }
  assert (0 < length (distances σ))%nat as Hlen
    by (destruct (distances σ); [done|simpl; lia]).
  unfold k_centers.
  destruct (Z.ltb_spec (k * C) (Z.of_nat (n t))); [lia|].
  rewrite Hpre. step_bind.
  rewrite search_rejecting by lia. step_bind.
  unfold dist_at.
  destruct (Z.ltb_spec (Z.of_nat (length (distances σ)) - 1) 0); [lia|].
  rewrite last_lookup in Hlast.
  replace (Z.to_nat (Z.of_nat (length (distances σ)) - 1))
    with (pred (length (distances σ))) by lia.
  rewrite Hlast. step_bind.
  rewrite check_no_rounds by done. step_bind. done.
Qed.

(** ** Sums and differences within the range of [int] *)

Lemma wrap32_id z : int_range z → wrap32 z = z.
Proof.
  unfold int_range, wrap32. intros Hz. rewrite Z.mod_small; lia.
Qed.

Lemma find_ext_elem {A} (f g : A → bool) (l : list A) :
  (∀ x, x ∈ l → f x = g x) → find f l = find g l.
Proof.
  induction l as [|x l IH]; intros Hfg; [done|]. simpl.
  rewrite (Hfg x) by (by left). destruct (g x); [done|].
  apply IH. intros y Hy. apply Hfg. by right.
Qed.

Lemma foldl_ext_elem {A B} (f g : A → B → A) (l : list B) : ∀ a,
  (∀ a x, x ∈ l → f a x = g a x) → foldl f a l = foldl g a l.
Proof.
  induction l as [|x l IH]; intros a Hfg; [done|]. simpl.
  rewrite (Hfg a x) by (by left). apply IH.
  intros b y Hy. apply Hfg. by right.
Qed.

Section Wraps.
Context {SS : StdSort}.
Variable t : tree Z.
Hypothesis WF : well_formed t.
Hypothesis Hfit : distances_fit t.

Lemma dist_range a x d :
  a ∈ seq 1 (n t) → dist t a x d → x ∈ seq 1 (n t) ∧ 0 ≤ d < 2 ^ 31.
Proof.
  intros Ha Hd. pose proof Hd as (l & Hw & Hlast).
  assert (x ∈ seq 1 (n t)) as Hx.
  { apply (walk_range t WF _ _ a Hw Hlast Ha). by left. }
  split; [done|].
  split; [apply (dist_nonneg t WF a x d Hd)|apply (Hfit a x d Ha Hx Hd)].
Qed.

(** No sum [d + v.snd] of a call of [dfs] leaves [int]. *)
Lemma dfs_wraps beg fuel : ∀ s l d σ,
  beg ∈ seq 1 (n t) → walk t (s :: l) d → last (s :: l) = Some beg →
  @dfs Z int_wraps t fuel beg s (head l) d σ
  = @dfs Z int_weight t fuel beg s (head l) d σ.
Proof.
  induction fuel as [|fuel IH]; intros s l d σ Hbeg Hw Hlast; [done|].
  cbn [dfs].
  change (@dfs_visit Z int_wraps beg s (head l) d σ)
    with (@dfs_visit Z int_weight beg s (head l) d σ).
  generalize (@dfs_visit Z int_weight beg s (head l) d σ).
  assert (∀ v, v ∈ at_ [] (con t) s → v ∈ adj t s) as Hnb by done.
  revert Hnb. generalize (at_ [] (con t) s).
  induction l0 as [|v nb IHnb]; intros Hnb σ1; [done|].
  cbn [dfs_neighbours]. case_decide as Hp.
  - assert (walk t (v.1 :: s :: l) (d + v.2)) as Hw'.
    { constructor; [done| |congruence].
      destruct v. apply Hnb. by left. }
    assert (0 ≤ d + v.2 < 2 ^ 31) as Hd.
    { eapply (dist_range beg v.1); [done|]. exists (s :: l).
      split; [done|]. by rewrite last_cons_cons. }
    change (@through_int Z int_wraps (@w_add Z int_wraps d v.2))
      with (wrap32 (d + v.2)).
    change (@through_int Z int_weight (@w_add Z int_weight d v.2))
      with (d + v.2).
    rewrite wrap32_id by (unfold int_range; lia).
    pose proof (IH v.1 (s :: l) (d + v.2) σ1 Hbeg Hw') as Hcall.
    rewrite last_cons_cons in Hcall. cbn [head] in Hcall.
    rewrite (Hcall Hlast).
    destruct (@dfs Z int_weight t fuel beg v.1 (Some s) (d + v.2) σ1);
      [|done..].
    step_bind. apply IHnb. intros x Hx. apply Hnb. by right.
  - apply IHnb. intros x Hx. apply Hnb. by right.
Qed.

Lemma dfs_all_wraps starts : ∀ σ,
  (∀ a, a ∈ starts → a ∈ seq 1 (n t)) →
  @dfs_all Z int_wraps t starts σ = @dfs_all Z int_weight t starts σ.
Proof.
  induction starts as [|i starts IH]; intros σ Hin; [done|].
  cbn [dfs_all].
  change (@w_of_int Z int_wraps 0) with 0.
  change (@w_of_int Z int_weight 0) with 0.
  rewrite (dfs_wraps i (depth_bound t) i [] 0);
    [|apply Hin; by left|constructor|done].
  cbn [head].
  destruct (@dfs Z int_weight t (depth_bound t) i i None 0 _);
    step_bind; [|done..].
  apply IH. intros x Hx. apply Hin. by right.
Qed.

Lemma precompute_wraps :
  @precompute Z int_wraps SS t = @precompute Z int_weight SS t.
Proof.
  unfold precompute, raw_tables. by rewrite dfs_all_wraps.
Qed.

Variable σ : tables (W := Z).
Hypothesis Hpre : @precompute Z int_weight SS t = Returns σ.

(** No difference [d_i - D[root][it]] of the scan of [ancestors[i]]
    leaves [int]. *)
Lemma first_cover_wraps r i :
  i ∈ seq 1 (n t) →
  @first_cover Z int_wraps σ r i = @first_cover Z int_weight σ r i.
Proof.
  intros Hi. unfold first_cover. apply find_ext_elem. intros it Hit.
  destruct (precompute_ok t WF σ Hpre) as [Hok _].
  destruct (ancestors_chained t WF σ i Hpre Hi) as (l & d & Heq & Hw & Hlast).
  assert (root ∈ seq 1 (n t)) as Hroot.
  { apply elem_of_seq in Hi. apply elem_of_seq. unfold root. lia. }
  assert (it ∈ seq 1 (n t)) as Hin.
  { apply (walk_range t WF _ _ root Hw Hlast Hroot).
    rewrite Heq in Hit.
    by apply list_elem_of_In, in_rev, list_elem_of_In in Hit. }
  destruct (dist_total t WF root i Hroot Hi) as [di Hdi].
  destruct (dist_total t WF root it Hroot Hin) as [dt Hdt].
  unfold covers.
  rewrite (t_dist t σ Hok root i di Hroot Hdi),
    (t_dist t σ Hok root it dt Hroot Hdt).
  apply (dist_range root) in Hdi as [_ ?]; [|done].
  apply (dist_range root) in Hdt as [_ ?]; [|done].
  change (@w_leb Z int_wraps (@w_sub Z int_wraps (@w_of_int Z int_wraps di)
            (@w_of_int Z int_wraps dt)) r)
    with (wrap32 (di - dt) <=? r).
  rewrite wrap32_id by (unfold int_range; lia). done.
Qed.

Lemma check_init_wraps r :
  @check_init Z int_wraps t σ r = @check_init Z int_weight t σ r.
Proof.
  unfold check_init. apply foldl_ext_elem. intros [[U f] st] i Hi.
  unfold check_init_step. by rewrite first_cover_wraps.
Qed.

Lemma check_wraps C k r ans :
  @check Z int_wraps SS t σ C k r ans = @check Z int_weight SS t σ C k r ans.
Proof. unfold check. by rewrite check_init_wraps. Qed.

Lemma search_wraps C k fuel : ∀ lo hi ans,
  @search Z int_wraps SS t σ C k fuel lo hi ans
  = @search Z int_weight SS t σ C k fuel lo hi ans.
Proof.
  induction fuel as [|fuel IH]; intros lo hi ans; [done|].
  cbn [search]. destruct (lo <? hi); [|done].
  destruct (dist_at σ _) as [r| | |]; [|done..]. step_bind.
  rewrite check_wraps.
  destruct (@check Z int_weight SS t σ C k r ans) as [[[] ans']| | |];
    [|done..]; step_bind; apply IH.
Qed.

End Wraps.

Lemma k_centers_wraps {SS : StdSort} (t : tree Z) (C k : Z) :
  well_formed t → distances_fit t →
  @k_centers Z int_wraps SS t C k = @k_centers Z int_weight SS t C k.
Proof.
  intros WF Hfit. unfold k_centers. destruct (_ <? _); [done|].
  rewrite (precompute_wraps t WF Hfit).
  destruct (@precompute Z int_weight SS t) as [σ| | |] eqn:Hpre; [|done..].
  step_bind. rewrite (search_wraps t WF Hfit σ Hpre).
  destruct (@search Z int_weight SS t σ C k _ _ _ _) as [[lo ans]| | |];
    [|done..].
  step_bind. destruct (dist_at σ lo) as [r| | |]; [|done..]. step_bind.
  by rewrite (check_wraps t WF Hfit σ Hpre).
Qed.

Lemma big3_leaves_int (SS : StdSort) :
  @k_centers Z int_wraps SS big3 3 1
  = Returns (2 ^ 30, [1]%nat, [0; 1; 1; 1]%nat) ∧
  @k_centers Z int_weight SS big3 3 1
  = Returns (2 ^ 31, [1]%nat, [0; 1; 1; 1]%nat).
Proof.
  split.
  - rewrite (@k_centers_any_sort Z int_wraps SS insertion_std_sort)
      by (first [exact int_total_ltb | by_decide]).
    vm_compute. reflexivity.
  - any_sort int_total_ltb. vm_compute. reflexivity.
Qed.

(** * The claims *)

(** ** Capacity and cardinality (C1) *)

(** C1. [D] holds [int]s whatever the weight type is (C6). On the
    [tree<long long>] [wide4], a tree with positive weights, no distance
    fits [int]: the distances from vertex 1 are recorded as -2, -3 and
    -4, the last call of [check] fails and leaves assignments of earlier
    calls, and with two centers of capacity 2 center 2 is returned with
    the three vertices 1, 3 and 4. *)
Theorem k_centers_overloads_center (SS : StdSort) :
  well_formed wide4 ∧
  @k_centers Z long_long_weight SS wide4 2 2
  = Returns (-1, [2; 3]%nat, [0; 2; 3; 2; 2]%nat) ∧
  Z.of_nat (load 4 [0; 2; 3; 2; 2]%nat 2) = 3.
Proof.
  split_and!; [| |done].
  - apply tree_check_well_formed. by_decide.
  - rewrite (@k_centers_any_sort Z long_long_weight SS insertion_std_sort)
      by (first [exact long_long_total_ltb | by_decide]).
    vm_compute. reflexivity.
Qed.

(** ** Radius of the assignment (C2) *)

(** C2. On the [tree<double>] [half_path] the weights 1.5 lose their
    fraction at every call of [dfs] (C6): with one center of capacity 3
    the radius 2 is returned and vertex 3 is assigned to center 1, at
    distance 3. On the [tree<long long>] [big3] the distance 2^31 between
    the vertices 1 and 3 is recorded as -2^31: the radius 2^30 is
    returned and vertex 3 is assigned to center 1. The distances are
    the weights of the walks, counted in halves for [half_path]: the
    radius [Half 4] is 2 and the distance 6 is 3. *)
Theorem k_centers_radius_too_small (SS : StdSort) :
  (well_formed (in_halves half_path) ∧
   k_centers half_path 3 1 = Returns (Half 4, [1]%nat, [0; 1; 1; 1]%nat) ∧
   dist (in_halves half_path) 3 1 6) ∧
  (well_formed big3 ∧
   @k_centers Z long_long_weight SS big3 3 1
   = Returns (2 ^ 30, [1]%nat, [0; 1; 1; 1]%nat) ∧
   dist big3 3 1 (2 ^ 31)).
Proof.
  split; split_and!.
  - apply tree_check_well_formed. by_decide.
  - rewrite (k_centers_any_sort SS insertion_std_sort)
      by (first [exact half_total_ltb | by_decide]).
    vm_compute. reflexivity.
  - exists [2; 3]%nat. split; [|done].
    change 6 with (0 + 3 + 3).
    repeat (apply walk_step; [|by_decide|done]). apply walk_start.
  - apply tree_check_well_formed. by_decide.
  - rewrite (@k_centers_any_sort Z long_long_weight SS insertion_std_sort)
      by (first [exact long_long_total_ltb | by_decide]).
    vm_compute. reflexivity.
  - exists [2; 3]%nat. split; [|done].
    change (2 ^ 31) with (0 + 2 ^ 30 + 2 ^ 30).
    repeat (apply walk_step; [|by_decide|done]). apply walk_start.
Qed.

(** ** Optimality (C3) *)

(** C3. On the path [1 - 2 - 3] with one center of capacity 3,
    [k_centers] returns the radius 2 although the center 2 serves every
    vertex within radius 1. On an edge of weight 2 with two centers of
    capacity 1 it returns 2 although every vertex can be its own center,
    with radius 0, which is no distance between two different vertices. *)
Theorem k_centers_not_minimal (SS : StdSort) :
  (k_centers path3 3 1 = Returns (2, [1]%nat, [0; 1; 1; 1]%nat) ∧
   ∃ σ, precompute path3 = Returns σ ∧
        is_cover (D σ) 3 3 1 1 [2]%nat [0; 2; 2; 2]%nat) ∧
  (k_centers pair2 1 2 = Returns (2, [1; 2]%nat, [0; 2; 1]%nat) ∧
   ∃ σ, precompute pair2 = Returns σ ∧
        is_cover (D σ) 2 1 2 0 [1; 2]%nat [0; 1; 2]%nat ∧
        0 ∉ distances σ).
Proof.
  split_and!.
  - any_sort int_total_ltb. vm_compute. reflexivity.
  - eexists. split.
    + any_sort int_total_ltb. vm_compute. reflexivity.
    + by_decide.
  - any_sort int_total_ltb. vm_compute. reflexivity.
  - eexists. split_and!.
    + any_sort int_total_ltb. vm_compute. reflexivity.
    + by_decide.
    + by_decide.
Qed.

(** ** Monotonicity of the oracle (C4) *)

(** C4. On the tree [fork4] with two centers of capacity 2, [check]
    accepts the radius 3 and rejects the radius 4, and 3 is the radius
    that [k_centers] returns. *)
Theorem check_not_monotone (SS : StdSort) :
  let ans := Answer [] (replicate 5 0%nat) in
  precompute fork4 = Returns fork4_tables ∧
  check fork4 fork4_tables 2 2 3 ans
    = Returns (true, Answer [4; 1] [0; 1; 4; 1; 4])%nat ∧
  check fork4 fork4_tables 2 2 4 ans
    = Returns (false, Answer [1; 2] [0; 2; 1; 0; 1])%nat ∧
  k_centers fork4 2 2 = Returns (3, [4; 1]%nat, [0; 1; 4; 1; 4]%nat).
Proof.
  split_and!.
  - apply fork4_precompute.
  - rewrite (check_any_sort SS insertion_std_sort _ _ 4 fork4_tie_free)
      by done.
    vm_compute. reflexivity.
  - rewrite (check_any_sort SS insertion_std_sort _ _ 4 fork4_tie_free)
      by done.
    vm_compute. reflexivity.
  - any_sort int_total_ltb. vm_compute. reflexivity.
Qed.

(** ** The precondition (C5) *)

(** C5. When [k * C < n], [k_centers] stops at its assertion: it returns
    no radius, centers or assignment, whatever the tree is, and neither
    the distance precomputation nor the search is run. *)
Theorem k_centers_rejects {W} {WT : WeightType W} {SS : StdSort}
    (t : tree W) (C k : Z) :
  k * C < Z.of_nat (n t) → k_centers t C k = AssertFailed.
Proof.
  intros Hlt. unfold k_centers.
  by destruct (Z.ltb_spec (k * C) (Z.of_nat (n t))); [|lia].
Qed.

Lemma k_centers_rejects_star :
  k_centers star 3 1 = AssertFailed.
Proof. apply (k_centers_rejects star 3 1). simpl. lia. Defined.

(** ** The type of the distances (C6) *)

(** C6. Distances pass through [int]. With [weight_type = double] an
    edge of weight 1.5 is recorded, and returned as the radius, as 1; with
    [weight_type = long long] so is an edge of weight 2^32 + 1. *)
Theorem distances_pass_through_int (SS : StdSort) :
  (at_ [] (con half_edge) 1 = [(2%nat, Half 3)] ∧
   k_centers half_edge 2 1 = Returns (Half 2, [1]%nat, [0; 1; 1]%nat) ∧
   ∃ σ, precompute half_edge = Returns σ ∧ at2 (D σ) 1 2 = 1) ∧
  (at_ [] (con wide_edge) 1 = [(2%nat, 2 ^ 32 + 1)] ∧
   @k_centers Z long_long_weight SS wide_edge 2 1
     = Returns (1, [1]%nat, [0; 1; 1]%nat) ∧
   ∃ σ, @precompute Z long_long_weight SS wide_edge = Returns σ ∧
        at2 (D σ) 1 2 = 1).
Proof.
  split; split_and!; try reflexivity.
  - rewrite (k_centers_any_sort SS insertion_std_sort)
      by (first [exact half_total_ltb | by_decide]).
    vm_compute. reflexivity.
  - eexists. split; [|shelve].
    rewrite (precompute_any_sort SS insertion_std_sort) by exact half_total_ltb.
    vm_compute. reflexivity.
    Unshelve. reflexivity.
  - rewrite (@k_centers_any_sort Z long_long_weight SS insertion_std_sort)
      by (first [exact long_long_total_ltb | by_decide]).
    vm_compute. reflexivity.
  - eexists. split; [|shelve].
    rewrite (@precompute_any_sort Z long_long_weight SS insertion_std_sort)
      by exact long_long_total_ltb.
    vm_compute. reflexivity.
    Unshelve. reflexivity.
Qed.

(** ** The order of [reachable] (C7) *)

(** C7, as far as the program goes. In every iteration [reachable] holds
    the vertices of [U] within [radius] of the center, in an order in
    which the distance from the root never increases. The order of the
    vertices at one distance from the root is left to [std::sort]. *)
Theorem reachable_sorted_descending {W} {WT : WeightType W} {SS : StdSort}
    (σ : tables (W := W)) (radius : W) (center : nat) (U : list nat) :
  StronglySorted (λ x y, at2 (D σ) root y ≤ at2 (D σ) root x)
    (reachable_sorted σ radius center U) ∧
  reachable_sorted σ radius center U
    ≡ₚ filter (λ it, within σ radius center it = true) U.
Proof.
  split; [|apply reachable_sorted_perm].
  eapply ordered_by_impl; [apply std_sort_ordered, deeper_strict_weak|].
  intros x y. unfold deeper. rewrite Z.gtb_ltb, Z.ltb_ge. lia.
Qed.

(** C7, the tie-break. In the second iteration of [check(1)] on the tree
    of [usage_example], [U] is [{1, 2, 4}] and the center is 1; the
    vertices 2 and 4 are both at distance 1 from the root, and a sort that
    meets the contract of [std::sort] may leave 4 before 2. *)
Lemma reachable_ties_not_ascending :
  ∃ SS : StdSort,
    @precompute Z int_weight SS star = Returns star_tables ∧
    @reachable_sorted Z int_weight SS star_tables 1 1 [1; 2; 4]%nat
      = [4; 2; 1]%nat ∧
    ¬ ties_ascending (D star_tables) [4; 2; 1]%nat.
Proof.
  exists reversing_std_sort. split_and!.
  - apply star_precompute.
  - vm_compute. reflexivity.
  - intros H. specialize (H 0 1 4 2)%nat.
    assert (4 < 2)%nat; [apply H; [done|done|lia|done]|lia].
Qed.

(** ** The stores into [f] (C8) *)

(** C8. [f] has [n] elements, and the first loop of [check] stores into
    [f[i]] for [i] up to [n]: on the tree of [usage_example], [check(1)]
    stores into [f[1]], ..., [f[4]] of a vector of 4 elements. *)
Theorem check_stores_past_f (SS : StdSort) :
  ∃ σ, precompute star = Returns σ ∧
    length (f_init star) = 4%nat ∧
    f_stores star σ 1 = [1; 2; 3; 4]%nat.
Proof.
  exists star_tables. split_and!; [apply star_precompute|done..].
Qed.

(** ** The indices of the search (C9) *)

(** C9. On a tree of one vertex no distance is pushed, and
    [distances[lo]] reads the empty vector. *)
Theorem k_centers_single_vertex {W} {WT : WeightType W} {SS : StdSort}
    (C k : Z) :
  1 ≤ k * C → k_centers (new_tree (W := W) 1) C k = Undefined VectorIndex.
Proof.
  intros Hkc. unfold k_centers, precompute. simpl.
  destruct (Z.ltb_spec (k * C) (Z.of_nat 1)); [lia|].
  by rewrite std_sort_nil.
Qed.

Lemma k_centers_single_vertex_int :
  k_centers (new_tree (W := Z) 1) 1 1 = Undefined VectorIndex.
Proof. apply (k_centers_single_vertex 1 1). lia. Defined.

(** ** Centers are opened once (C10) *)

(** C10. The centers that [k_centers] returns are pairwise distinct:
    the queue holds at most one entry per vertex and every iteration
    removes the entry it opens. *)
Theorem k_centers_centers_distinct {W} {WT : WeightType W} {SS : StdSort}
    (t : tree W) (C k : Z) r cs a :
  k_centers t C k = Returns (r, cs, a) → NoDup cs.
Proof.
  intros (σ & lo & ans0 & ok & ans & _ & _ & _ & Hlen & _ & Hcheck & -> & _)
    %k_centers_Returns.
  by apply check_spec in Hcheck as (? & _).
Qed.

Lemma k_centers_centers_distinct_star : NoDup [3%nat; 1%nat].
Proof.
  apply (k_centers_centers_distinct star 3 2 1 [3; 1]%nat [0; 1; 1; 3; 1]%nat).
  vm_compute. reflexivity.
Defined.

(** ** Further properties *)

(** With more centers than vertices the queue can run dry: on [bush5]
    with six centers of capacity 1, and equivalent elements left in
    their order by the sort, [check(2)] opens five centers, has vertex 3
    left over and reads [*st.begin()] of the empty queue. *)
Theorem k_centers_queue_runs_dry :
  @k_centers Z int_weight insertion_std_sort bush5 1 6
  = Undefined EmptySetBegin.
Proof. vm_compute. reflexivity. Qed.

(** For [tree<int>] within the range of [int]: on a tree with
    non-negative weights whose distances fit [int], with [k > 0] and
    [k * C >= n], what a call of [k_centers] returns opens at most [k]
    centers and assigns at most [C] vertices to any center. The
    embedding computes with the integers themselves: [distances_fit] and
    [call_fits] say that the [int]s of the call are these integers. *)
Theorem k_centers_capacity {SS : StdSort} (t : tree Z) (C k r : Z)
    (cs a : list nat) :
  well_formed t → distances_fit t → call_fits (n t) C k →
  0 < k → Z.of_nat (n t) ≤ k * C →
  k_centers t C k = Returns (r, cs, a) →
  Z.of_nat (length cs) ≤ k ∧ ∀ c, Z.of_nat (load (n t) a c) ≤ C.
Proof.
  intros WF _ _ Hk HkC Hrun.
  destruct (k_centers_sound t WF C k r cs a Hk HkC Hrun)
    as (σ & _ & _ & Hlen & _ & Hload).
  split; [lia|done].
Qed.

Lemma k_centers_capacity_star :
  Z.of_nat (length [3; 1]%nat) ≤ 2 ∧
  ∀ c, Z.of_nat (load 4 [0; 1; 1; 3; 1]%nat c) ≤ 3.
Proof.
  apply (k_centers_capacity star 3 2 1 [3; 1]%nat [0; 1; 1; 3; 1]%nat).
  - apply tree_check_well_formed. by_decide.
  - apply star_distances_fit.
  - unfold call_fits, int_range. simpl. lia.
  - lia.
  - simpl. lia.
  - vm_compute. reflexivity.
Defined.

(** For [tree<int>] within the range of [int]: on a tree with
    non-negative weights whose distances fit [int], with [k > 0] and
    [k * C >= n], what a call of [k_centers] returns assigns every vertex
    [v] to one of the returned centers, at a distance in the tree that
    is at most the returned radius. *)
Theorem k_centers_within_radius {SS : StdSort} (t : tree Z) (C k r : Z)
    (cs a : list nat) :
  well_formed t → distances_fit t → call_fits (n t) C k →
  0 < k → Z.of_nat (n t) ≤ k * C →
  k_centers t C k = Returns (r, cs, a) →
  ∀ v, v ∈ seq 1 (n t) →
    at_ 0%nat a v ∈ cs ∧ ∃ d, dist t v (at_ 0%nat a v) d ∧ d ≤ r.
Proof.
  intros WF _ _ Hk HkC Hrun v Hv.
  destruct (k_centers_sound t WF C k r cs a Hk HkC Hrun)
    as (σ & Hpre & _ & _ & Hall & _).
  destruct (Hall v Hv) as (Hc & Hin & Hle). split; [done|].
  destruct (precompute_ok t WF σ Hpre) as [[Hd _ _ _] _].
  destruct (dist_total t WF _ v Hc Hv) as [d Hdist].
  exists d. split; [by apply dist_sym|].
  by rewrite <- (Hd _ v d Hc Hdist).
Qed.

Lemma k_centers_within_radius_star :
  at_ 0%nat [0; 1; 1; 3; 1]%nat 2 ∈ [3; 1]%nat ∧
  ∃ d, dist star 2 (at_ 0%nat [0; 1; 1; 3; 1]%nat 2) d ∧ d ≤ 1.
Proof.
  apply (k_centers_within_radius star 3 2 1 [3; 1]%nat [0; 1; 1; 3; 1]%nat).
  - apply tree_check_well_formed. by_decide.
  - apply star_distances_fit.
  - unfold call_fits, int_range. simpl. lia.
  - lia.
  - simpl. lia.
  - vm_compute. reflexivity.
  - apply elem_of_seq. simpl. lia.
Defined.

(** On a tree whose distances fit [int] the table [D] holds the
    distances of the tree, and it is symmetric; the precomputation
    returns. *)
Theorem precompute_distances {SS : StdSort} (t : tree Z) :
  well_formed t → distances_fit t →
  (∃ σ, precompute t = Returns σ) ∧
  ∀ σ a x, precompute t = Returns σ →
    a ∈ seq 1 (n t) → x ∈ seq 1 (n t) →
    dist t a x (at2 (D σ) a x) ∧ at2 (D σ) a x = at2 (D σ) x a.
Proof.
  intros WF _. split.
  { destruct (raw_tables_Returns t WF) as [raw Hraw].
    unfold precompute. rewrite Hraw. by eexists. }
  intros σ a x Hpre Ha Hx.
  destruct (precompute_ok t WF σ Hpre) as [[Hd _ _ _] _].
  destruct (dist_total t WF a x Ha Hx) as [d Hdist].
  rewrite (Hd a x d Ha Hdist). split; [done|].
  symmetry. apply Hd; [done|]. by apply dist_sym.
Qed.

Lemma precompute_distances_star :
  (∃ σ, precompute star = Returns σ) ∧
  dist star 2 3 (at2 (D star_tables) 2 3) ∧
  at2 (D star_tables) 2 3 = at2 (D star_tables) 3 2.
Proof.
  destruct (precompute_distances star) as [Htotal Hdist].
  - apply tree_check_well_formed. by_decide.
  - apply star_distances_fit.
  - split; [done|].
    apply Hdist; [vm_compute; reflexivity|apply elem_of_seq; simpl; lia..].
Defined.

(** On a tree with no two vertices at the same distance from the root,
    the result of [k_centers] is the same for every sort that meets the
    contract of [std::sort]. *)
Theorem k_centers_sort_independent (S1 S2 : StdSort) (t : tree Z) (C k : Z) :
  tie_free_tree t →
  @k_centers Z int_weight S1 t C k = @k_centers Z int_weight S2 t C k.
Proof. apply k_centers_any_sort, int_total_ltb. Qed.

Lemma k_centers_sort_independent_fork4 :
  @k_centers Z int_weight reversing_std_sort fork4 2 2
  = @k_centers Z int_weight insertion_std_sort fork4 2 2.
Proof.
  apply (k_centers_sort_independent reversing_std_sort insertion_std_sort
           fork4 2 2).
  by_decide.
Defined.

(** On a tree, every call of [check] with a non-negative radius stores
    into [f[n]], one past the last element of [f]. *)
Theorem check_stores_at_n {SS : StdSort} (t : tree Z) σ (r : Z) :
  well_formed t → precompute t = Returns σ → 0 ≤ r → (1 ≤ n t)%nat →
  n t ∈ f_stores t σ r ∧ length (f_init t) = n t.
Proof.
  intros WF Hpre Hr Hn.
  destruct (precompute_ok t WF σ Hpre) as [Hok _].
  split; [|apply length_replicate].
  apply list_elem_of_filter. split.
  - apply (first_cover_is_Some t); [done..|]. apply elem_of_seq. lia.
  - apply elem_of_seq. lia.
Qed.

Lemma check_stores_at_n_star :
  4%nat ∈ f_stores star star_tables 1 ∧ length (f_init star) = 4%nat.
Proof.
  apply (check_stores_at_n star star_tables 1).
  - apply tree_check_well_formed. by_decide.
  - vm_compute. reflexivity.
  - lia.
  - simpl. lia.
Defined.

(** After [tree T(m)] and calls of [add_edge] with endpoints up to [m],
    the adjacency list of [s] holds, in the order of the calls, the other
    endpoint and the weight of every edge at [s] (both entries of a
    loop), and [ (v, w) ] is in the list of [s] exactly when [ (s, w) ] is
    in the list of [v]. *)
Theorem add_edges_adjacency {W} (m : nat) (es : list (nat * nat * W)) :
  Forall (λ e, (e.1.1 ≤ m)%nat ∧ (e.1.2 ≤ m)%nat) es →
  let t := add_edges (new_tree m) es in
  n t = m ∧ length (con t) = S m ∧
  (∀ s, at_ [] (con t) s = flat_map (ends_at s) es) ∧
  (∀ s v w, (v, w) ∈ at_ [] (con t) s ↔ (s, w) ∈ at_ [] (con t) v).
Proof.
  intros Hes t.
  assert (∀ s, at_ [] (con t) s = flat_map (ends_at s) es
               ∧ n t = m ∧ length (con t) = S m) as Hat.
  { intros s. destruct (add_edges_at es (new_tree m) s) as (Hs & Hn & Hl).
    - eapply Forall_impl; [exact Hes|]. simpl. intros e.
      rewrite length_replicate. lia.
    - fold t in Hs, Hn, Hl. rewrite Hs, Hn, Hl, new_tree_at. simpl.
      by rewrite length_replicate. }
  split_and!; [apply (Hat 0%nat)..| |].
  - intros s. apply Hat.
  - intros s v w. destruct (Hat s) as (-> & _), (Hat v) as (-> & _).
    rewrite !list_elem_of_In, !in_flat_map.
    split; intros (e & He & Hin); exists e; (split; [done|]);
      apply list_elem_of_In; apply list_elem_of_In in Hin;
      apply elem_of_ends_at in Hin; apply elem_of_ends_at; tauto.
Qed.

Lemma add_edges_adjacency_star :
  at_ [] (con star) 1 = [(2%nat, 1); (3%nat, 3); (4%nat, 1)] ∧
  ((1%nat, 3) ∈ at_ [] (con star) 3 ↔ (3%nat, 3) ∈ at_ [] (con star) 1).
Proof.
  destruct (add_edges_adjacency 4
              [(1%nat, 2%nat, 1); (1%nat, 3%nat, 3); (1%nat, 4%nat, 1)])
    as (_ & _ & Hat & Hsym).
  - repeat constructor; simpl; lia.
  - split; [apply (Hat 1%nat)|apply (Hsym 3%nat 1%nat 3)].
Defined.

(** On a graph as the constructor leaves it, with any number of vertices
    and no edge, no distance is recorded, and a call that passes the
    assertion reads [distances[0]] of the empty vector. *)
Theorem k_centers_without_edges {W} {WT : WeightType W} {SS : StdSort}
    (m : nat) (C k : Z) :
  Z.of_nat m ≤ k * C →
  ∃ σ, precompute (new_tree (W := W) m) = Returns σ ∧ distances σ = [] ∧
    k_centers (new_tree (W := W) m) C k = Undefined VectorIndex.
Proof.
  intros Hkc. unfold k_centers.
  destruct (Z.ltb_spec (k * C) (Z.of_nat (n (new_tree (W := W) m))));
    [simpl in *; lia|].
  destruct (precompute_new_tree m) as (σ & Hpre & Hd).
  exists σ. split_and!; [done..|]. rewrite Hpre.
  step_bind. rewrite Hd. simpl. step_bind.
  unfold dist_at. rewrite Hd. done.
Qed.

Lemma k_centers_without_edges_empty :
  k_centers (new_tree (W := Z) 0) 1 1 = Undefined VectorIndex ∧
  k_centers (new_tree (W := Z) 3) 2 2 = Undefined VectorIndex.
Proof.
  split.
  - destruct (k_centers_without_edges (W := Z) 0 1 1) as (σ & _ & _ & Hrun);
      [simpl; lia|exact Hrun].
  - destruct (k_centers_without_edges (W := Z) 3 2 2) as (σ & _ & _ & Hrun);
      [simpl; lia|exact Hrun].
Defined.

(** A returning call of [k_centers] gives a radius that is an entry of
    the sorted vector of distances, centers that are vertices, and an
    [assignment] of [n + 1] entries of which entry 0 is 0 and every other
    one is 0 or a vertex. *)
Theorem k_centers_result_shape {W} {WT : WeightType W} {SS : StdSort}
    (t : tree W) (C k : Z) r cs a :
  k_centers t C k = Returns (r, cs, a) →
  (∃ σ, precompute t = Returns σ ∧ r ∈ distances σ) ∧
  (length cs ≤ Z.to_nat k)%nat ∧
  (∀ c, c ∈ cs → c ∈ seq 1 (n t)) ∧
  length a = S (n t) ∧ at_ 0%nat a 0 = 0%nat ∧
  ∀ v, at_ 0%nat a v = 0%nat ∨ at_ 0%nat a v ∈ seq 1 (n t).
Proof.
  intros (σ & lo & ans0 & ok & ans & _ & Hpre & Hsearch & Hlen & Hr & Hcheck
          & -> & ->)%k_centers_Returns.
  apply search_shaped in Hsearch; [|apply shaped_initial].
  destruct (check_spec σ C r t k ans0 ok ans Hlen Hcheck)
    as (_ & Hk & Hrange & _).
  apply check_shaped in Hcheck as (Hl & H0 & Hall); [|done].
  apply dist_at_Returns in Hr as [_ Hr].
  split_and!; [|done..].
  exists σ. split; [done|]. by eapply list_elem_of_lookup_2.
Qed.

Lemma k_centers_result_shape_looped2 :
  (∃ σ, precompute looped2 = Returns σ ∧ 2 ∈ distances σ) ∧
  (length [1]%nat ≤ Z.to_nat 1)%nat ∧
  (∀ c, c ∈ [1]%nat → c ∈ seq 1 2) ∧
  length [0; 0; 1]%nat = 3%nat ∧
  at_ 0%nat [0; 0; 1]%nat 0 = 0%nat ∧
  ∀ v, at_ 0%nat [0; 0; 1]%nat v = 0%nat ∨
       at_ 0%nat [0; 0; 1]%nat v ∈ seq 1 2.
Proof.
  apply (k_centers_result_shape looped2 2 1 2 [1]%nat [0; 0; 1]%nat).
  vm_compute. reflexivity.
Defined.

(** When [check(radius)] returns [true], with [C >= 0] and [k >= 0], it
    leaves at most [k] centers, every vertex [v] assigned to one of them
    with [D[assignment[v]][v] <= radius], and at most [C] vertices per
    center. *)
Theorem check_accepts_cover {W} {WT : WeightType W} {SS : StdSort}
    (t : tree W) (σ : tables) (C k : Z) (radius : W) (ans ans' : answer) :
  0 ≤ C → 0 ≤ k → length (assignment ans) = S (n t) →
  check t σ C k radius ans = Returns (true, ans') →
  Z.of_nat (length (centers ans')) ≤ k ∧
  (∀ v, v ∈ seq 1 (n t) →
     at_ 0%nat (assignment ans') v ∈ centers ans' ∧
     within σ radius (at_ 0%nat (assignment ans') v) v = true) ∧
  ∀ c, Z.of_nat (load (n t) (assignment ans') c) ≤ C.
Proof.
  intros HC Hk Hlen Hrun.
  destruct (check_spec σ C radius t k ans true ans' Hlen Hrun)
    as (_ & Hcs & _ & _ & Hcover).
  destruct (Hcover eq_refl) as [Hall Hload].
  split_and!; [lia|done|by apply Hload].
Qed.

Lemma check_accepts_cover_star :
  Z.of_nat (length [3; 1]%nat) ≤ 2 ∧
  (∀ v, v ∈ seq 1 4 →
     at_ 0%nat [0; 1; 1; 3; 1]%nat v ∈ [3; 1]%nat ∧
     within star_tables 1 (at_ 0%nat [0; 1; 1; 3; 1]%nat v) v = true) ∧
  ∀ c, Z.of_nat (load 4 [0; 1; 1; 3; 1]%nat c) ≤ 3.
Proof.
  apply (check_accepts_cover star star_tables 3 2 1
           (Answer [] (replicate 5 0%nat))
           (Answer [3; 1] [0; 1; 1; 3; 1])%nat); [lia|lia|done|].
  vm_compute. reflexivity.
Defined.

(** Two calls of [check] with the same radius, on whatever earlier calls
    left in [centers] and [assignment], give the same answer and the same
    centers; when the answer is [true] they give the same assignment to
    every vertex. *)
Theorem check_forgets_assignment {W} {WT : WeightType W} {SS : StdSort}
    (t : tree W) (σ : tables) (C k : Z) (radius : W)
    (ans1 ans2 : answer) ok1 ok2 ans1' ans2' :
  length (assignment ans1) = S (n t) → length (assignment ans2) = S (n t) →
  check t σ C k radius ans1 = Returns (ok1, ans1') →
  check t σ C k radius ans2 = Returns (ok2, ans2') →
  ok1 = ok2 ∧ centers ans1' = centers ans2' ∧
  (ok1 = true → ∀ v, v ∈ seq 1 (n t) →
     at_ 0%nat (assignment ans1') v = at_ 0%nat (assignment ans2') v).
Proof.
  intros Hl1 Hl2 H1 H2. unfold check in H1, H2.
  destruct (check_init_spec t σ radius) as (f & st & Hinit & _).
  rewrite Hinit in H1, H2.
  returns H1. returns H2. destruct r as [U1 b1], r0 as [U2 b2].
  injection H1 as <- <-. injection H2 as <- <-.
  assert (∀ v, v ∈ seq 1 (n t) → (v < length (assignment ans1))%nat)
    as Hlt by (intros v Hv%elem_of_seq; lia).
  destruct (greedy_agree σ C radius _ _ _ _ _ _ _ _ _ _
              (NoDup_seq 1 (n t)) (eq_trans Hl1 (eq_sym Hl2))
              Hlt H0 H3) as (-> & Hcs & Hag).
  split_and!; [done..|].
  intros ->%bool_decide_eq_true v Hv.
  destruct (Hag v) as [Heq|Hin]; [by right|done|].
  by apply elem_of_nil in Hin.
Qed.

Lemma check_forgets_assignment_star :
  true = true ∧ [3; 1]%nat = [3; 1]%nat ∧
  (true = true → ∀ v, v ∈ seq 1 4 →
     at_ 0%nat [0; 1; 1; 3; 1]%nat v = at_ 0%nat [4; 1; 1; 3; 1]%nat v).
Proof.
  apply (check_forgets_assignment star star_tables 3 2 1
           (Answer [] (replicate 5 0%nat))
           (Answer [2; 2] [4; 4; 4; 4; 4])%nat
           true true
           (Answer [3; 1] [0; 1; 1; 3; 1])%nat
           (Answer [3; 1] [4; 1; 1; 3; 1])%nat); [done|done|..];
    vm_compute; reflexivity.
Defined.

(** On a tree, a call of [check] with the largest recorded distance that
    returns, returns true, also when [k] exceeds [n]. *)
Theorem check_accepts_largest {SS : StdSort} (t : tree Z) (σ : tables)
    (C k r : Z) (ans : answer) (ok : bool) (ans' : answer) :
  well_formed t → precompute t = Returns σ → last (distances σ) = Some r →
  0 < k → Z.of_nat (n t) ≤ k * C →
  check t σ C k r ans = Returns (ok, ans') → ok = true.
Proof.
  intros WF Hpre Hlast Hk HkC Hrun.
  destruct (check_largest t WF σ C k r ans Hpre Hlast Hk HkC) as [ans1 H1].
  congruence.
Qed.

Lemma check_accepts_largest_star :
  true = true.
Proof.
  apply (check_accepts_largest star star_tables 1 9 4
           (Answer [] (replicate 5 0%nat)) true
           (Answer [1; 2; 3; 4]%nat [0; 4; 2; 1; 3]%nat)).
  - apply tree_check_well_formed. by_decide.
  - apply star_precompute.
  - reflexivity.
  - lia.
  - simpl. lia.
  - vm_compute. reflexivity.
Defined.

(** On a tree, with [k > 0] and [k * C >= n], the radius that [k_centers]
    returns is accepted by [check], and it is the least recorded distance
    or [check] has rejected the largest recorded distance below it. *)
Theorem k_centers_radius_locally_least {SS : StdSort} (t : tree Z) (C k : Z)
    r cs a :
  well_formed t → 0 < k → Z.of_nat (n t) ≤ k * C →
  k_centers t C k = Returns (r, cs, a) →
  ∃ σ, precompute t = Returns σ ∧
    (∃ ans0 ans, check t σ C k r ans0 = Returns (true, ans)) ∧
    ((∀ y, y ∈ distances σ → r ≤ y) ∨
     ∃ y ans1 ans2, y ∈ distances σ ∧ y < r ∧
       (∀ z, z ∈ distances σ → z < r → z ≤ y) ∧
       check t σ C k y ans1 = Returns (false, ans2)).
Proof.
  intros WF Hk HkC (σ & lo & ans0 & ok & ans & _ & Hpre & Hsearch & Hlen & Hr
    & Hcheck & -> & ->)%k_centers_Returns.
  assert (ok = true) as -> by (by eapply k_centers_accepts).
  destruct (precompute_ok t WF σ Hpre) as [Hok Hsorted].
  apply dist_at_Returns in Hr as [Hlo0 Hlo].
  exists σ. split_and!; [done|by exists ans0, ans|].
  assert (0 ≤ Z.of_nat (length (distances σ)) - 1) as Hne.
  { apply lookup_lt_Some in Hlo. lia. }
  apply search_lower in Hsearch as [_ [->|(y & ans1 & ans2 & Hy & Hrej)]];
    [| |done].
  - left. intros y [j Hj]%list_elem_of_lookup.
    eapply (sorted_lookup_le _ 0 j); [done|lia|done..].
  - right. apply dist_at_Returns in Hy as [Hy0 Hy].
    assert (y ≤ r) as Hle.
    { eapply (sorted_lookup_le _ (Z.to_nat (lo - 1)) (Z.to_nat lo));
        [done|lia|done..]. }
    assert (y ≠ r) as Hne'.
    { intros ->.
      by pose proof (check_same_result σ C r t k _ _ _ _ _ _ Hcheck Hrej). }
    exists y, ans1, ans2. split_and!; [by eapply list_elem_of_lookup_2|lia| |done].
    intros z [j Hj]%list_elem_of_lookup Hz.
    destruct (decide (j < Z.to_nat lo)%nat) as [Hlt|Hge].
    + eapply (sorted_lookup_le _ j (Z.to_nat (lo - 1))); [done|lia|done..].
    + assert (r ≤ z); [|lia].
      eapply (sorted_lookup_le _ (Z.to_nat lo) j); [done|lia|done..].
Qed.

Lemma k_centers_radius_locally_least_fork4 :
  ∃ σ, precompute fork4 = Returns σ ∧
    (∃ ans0 ans, check fork4 σ 2 2 3 ans0 = Returns (true, ans)) ∧
    ((∀ y, y ∈ distances σ → 3 ≤ y) ∨
     ∃ y ans1 ans2, y ∈ distances σ ∧ y < 3 ∧
       (∀ z, z ∈ distances σ → z < 3 → z ≤ y) ∧
       check fork4 σ 2 2 y ans1 = Returns (false, ans2)).
Proof.
  apply (k_centers_radius_locally_least fork4 2 2 3 [4; 1]%nat
           [0; 1; 4; 1; 4]%nat).
  - apply tree_check_well_formed. by_decide.
  - lia.
  - simpl. lia.
  - vm_compute. reflexivity.
Defined.



(** On a tree whose distances fit [int], the sorted vector [distances]
    is a rearrangement of the entries [D[a][x]] with [a < x], which are
    the distances of the tree. *)
Theorem distances_of_pairs {SS : StdSort} (t : tree Z) (σ : tables) :
  well_formed t → distances_fit t → precompute t = Returns σ →
  distances σ ≡ₚ (λ p, at2 (D σ) p.1 p.2) <$> pairs (n t) ∧
  (∀ p, p ∈ pairs (n t) → dist t p.1 p.2 (at2 (D σ) p.1 p.2)) ∧
  StronglySorted Z.le (distances σ) ∧
  (2 * length (distances σ) = n t * (n t - 1))%nat.
Proof.
  intros WF _ Hpre. destruct (precompute_ok t WF σ Hpre) as [Hok Hsorted].
  pose proof (precompute_distances_pairs t WF σ Hpre) as Hperm.
  split_and!; [done| |done|].
  - intros p Hp. by apply pair_distance.
  - rewrite Hperm, length_fmap. apply length_pairs.
Qed.

Lemma distances_of_pairs_star :
  [1; 1; 2; 3; 4; 4] ≡ₚ (λ p, at2 (D star_tables) p.1 p.2) <$> pairs 4 ∧
  (∀ p, p ∈ pairs 4 → dist star p.1 p.2 (at2 (D star_tables) p.1 p.2)) ∧
  StronglySorted Z.le [1; 1; 2; 3; 4; 4] ∧
  (2 * length [1; 1; 2; 3; 4; 4] = 4 * (4 - 1))%nat.
Proof.
  apply (distances_of_pairs star star_tables).
  - apply tree_check_well_formed. by_decide.
  - apply star_distances_fit.
  - apply star_precompute.
Defined.

(** On a tree within the range of [int], whatever [k] and [C] are, the
    radius that a call of [k_centers] returns is the distance between two
    different vertices. *)
Theorem k_centers_radius_is_distance {SS : StdSort} (t : tree Z) (C k : Z)
    r cs a :
  well_formed t → distances_fit t → call_fits (n t) C k →
  k_centers t C k = Returns (r, cs, a) →
  ∃ i j, i ∈ seq 1 (n t) ∧ j ∈ seq 1 (n t) ∧ (i < j)%nat ∧ dist t i j r.
Proof.
  intros WF _ _ (σ & lo & ans0 & ok & ans & _ & Hpre & _ & _ & Hr & _)
    %k_centers_Returns.
  apply dist_at_Returns in Hr as [_ Hr%list_elem_of_lookup_2].
  destruct (precompute_ok t WF σ Hpre) as [Hok _].
  rewrite (precompute_distances_pairs t WF σ Hpre) in Hr.
  apply list_elem_of_fmap in Hr as ([i j] & -> & Hp).
  pose proof (pair_distance t WF σ _ Hok Hp) as Hd.
  apply elem_of_pairs in Hp. exists i, j.
  split_and!; [apply elem_of_seq; lia..|lia|done].
Qed.

Lemma k_centers_radius_is_distance_star :
  ∃ i j, i ∈ seq 1 4 ∧ j ∈ seq 1 4 ∧ (i < j)%nat ∧ dist star i j 1.
Proof.
  apply (k_centers_radius_is_distance star 3 2 1 [3; 1]%nat
           [0; 1; 1; 3; 1]%nat).
  - apply tree_check_well_formed. by_decide.
  - apply star_distances_fit.
  - unfold call_fits, int_range. simpl. lia.
  - vm_compute. reflexivity.
Defined.

(** On a tree within the range of [int], with [n >= 2]: what a call with
    [k <= 0] that passes the assertion returns is the largest distance
    of the tree, no center and an assignment of zeros. *)
Theorem k_centers_without_centers {SS : StdSort} (t : tree Z) (C k r : Z)
    (cs a : list nat) :
  well_formed t → distances_fit t → call_fits (n t) C k →
  (2 ≤ n t)%nat → k ≤ 0 → Z.of_nat (n t) ≤ k * C →
  k_centers t C k = Returns (r, cs, a) →
  cs = [] ∧ a = replicate (S (n t)) 0%nat ∧
  (∃ i j, i ∈ seq 1 (n t) ∧ j ∈ seq 1 (n t) ∧ dist t i j r) ∧
  (∀ b x d, b ∈ seq 1 (n t) → x ∈ seq 1 (n t) → dist t b x d → d ≤ r).
Proof.
  intros WF _ _ Hn Hk HkC Hrun.
  destruct (k_centers_no_centers t C k WF Hn Hk HkC)
    as (σ & r' & _ & _ & Hpair & Hmax & Hrun').
  rewrite Hrun in Hrun'. injection Hrun' as -> -> ->. done.
Qed.

Lemma k_centers_without_centers_fork4 :
  @nil nat = [] ∧ replicate 5 0%nat = replicate 5 0%nat ∧
  (∃ i j, i ∈ seq 1 4 ∧ j ∈ seq 1 4 ∧ dist fork4 i j 6) ∧
  (∀ b x d, b ∈ seq 1 4 → x ∈ seq 1 4 → dist fork4 b x d → d ≤ 6).
Proof.
  apply (k_centers_without_centers fork4 (-4) (-1) 6 [] (replicate 5 0%nat)).
  - apply tree_check_well_formed. by_decide.
  - apply fork4_distances_fit.
  - unfold call_fits, int_range. simpl. lia.
  - simpl. lia.
  - lia.
  - simpl. lia.
  - vm_compute. reflexivity.
Defined.

(** On a tree, [ancestors[x]] lists the vertices of the path from the
    root to [x], the root first and [x] last. *)
Theorem ancestors_are_root_paths {SS : StdSort} (t : tree Z) (σ : tables)
    (x : nat) :
  well_formed t → precompute t = Returns σ → x ∈ seq 1 (n t) →
  ∃ l d, at_ [] (ancestors σ) x = rev (x :: l) ∧
    walk t (x :: l) d ∧ last (x :: l) = Some root.
Proof.
  intros WF. by apply ancestors_chained.
Qed.

Lemma ancestors_are_root_paths_fork4 :
  ∃ l d, at_ [] (ancestors fork4_tables) 4 = rev (4%nat :: l) ∧
    walk fork4 (4%nat :: l) d ∧ last (4%nat :: l) = Some root.
Proof.
  apply (ancestors_are_root_paths fork4 fork4_tables 4).
  - apply tree_check_well_formed. by_decide.
  - apply fork4_precompute.
  - apply elem_of_seq. simpl. lia.
Defined.

(** On a tree, for a radius [r >= 0], the scan of [ancestors[i]] in
    [check] stops at the vertex of the path from the root to [i] that is
    nearest to the root among those within [r] of [i]. *)
Theorem first_cover_nearest_root {SS : StdSort} (t : tree Z) (σ : tables)
    (r : Z) (i : nat) :
  well_formed t → precompute t = Returns σ → 0 ≤ r → i ∈ seq 1 (n t) →
  ∃ it before after,
    first_cover σ r i = Some it ∧
    at_ [] (ancestors σ) i = before ++ it :: after ∧
    at2 (D σ) it i ≤ r ∧
    ∀ y, y ∈ before → r < at2 (D σ) y i.
Proof.
  intros WF Hpre Hr Hi.
  destruct (precompute_ok t WF σ Hpre) as [Hok _].
  assert (chained t i σ) as Hchain.
  { destruct (ancestors_chained t WF σ i Hpre Hi) as (l & d & ? & ? & ?).
    by exists l, d. }
  destruct (first_cover_is_Some t σ r i Hok Hr Hi) as [it Hit].
  unfold first_cover in Hit.
  destruct (find_first _ _ _ Hit) as (before & after & Heq & Hcov & Hbefore).
  exists it, before, after. split_and!; [done..| |].
  - unfold covers in Hcov. simpl in Hcov. apply Z.leb_le in Hcov.
    rewrite (chain_distance t WF σ i it before after) in Hcov by done. lia.
  - intros y Hy. specialize (Hbefore y Hy).
    unfold covers in Hbefore. simpl in Hbefore. apply Z.leb_gt in Hbefore.
    apply list_elem_of_split in Hy as (b1 & b2 & ->).
    rewrite <- app_assoc in Heq. simpl in Heq.
    rewrite (chain_distance t WF σ i y b1 _ Hok Hi Hchain Heq) in Hbefore.
    lia.
Qed.

Lemma first_cover_nearest_root_fork4 :
  ∃ it before after,
    first_cover fork4_tables 1 4 = Some it ∧
    at_ [] (ancestors fork4_tables) 4 = before ++ it :: after ∧
    at2 (D fork4_tables) it 4 ≤ 1 ∧
    ∀ y, y ∈ before → 1 < at2 (D fork4_tables) y 4.
Proof.
  apply (first_cover_nearest_root fork4 fork4_tables 1 4).
  - apply tree_check_well_formed. by_decide.
  - apply fork4_precompute.
  - lia.
  - apply elem_of_seq. simpl. lia.
Defined.

(** When no vertex has more than [C] vertices within [radius],
    [check(radius)] does the same for every sort that meets the contract
    of [std::sort]: [reachable] is not cut short, and its order does not
    show in what the assignment loop leaves. *)
Theorem check_roomy_any_sort {W} {WT : WeightType W} (S1 S2 : StdSort)
    (t : tree W) (σ : tables) (C k : Z) (radius : W) (ans : answer) :
  roomy σ C radius (n t) →
  @check W WT S1 t σ C k radius ans = @check W WT S2 t σ C k radius ans.
Proof. apply check_roomy. Qed.

Lemma check_roomy_any_sort_star :
  @check Z int_weight reversing_std_sort star star_tables 3 2 1
    (Answer [] (replicate 5 0%nat))
  = @check Z int_weight insertion_std_sort star star_tables 3 2 1
      (Answer [] (replicate 5 0%nat)).
Proof.
  apply (check_roomy_any_sort reversing_std_sort insertion_std_sort
           star star_tables 3 2 1).
  by_decide.
Defined.

(** With a capacity of at least [n], what [k_centers] does is the same
    for every sort that meets the contract of [std::sort]: [reachable] is
    never cut short, and its order is not seen after the cut. *)
Theorem k_centers_roomy_any_sort {W} {WT : WeightType W} (S1 S2 : StdSort)
    (t : tree W) (C k : Z) :
  total_ltb (w_ltb (W := W)) → Z.of_nat (n t) ≤ C →
  @k_centers W WT S1 t C k = @k_centers W WT S2 t C k.
Proof.
  intros Htot Hn. unfold k_centers.
  destruct (k * C <? Z.of_nat (n t)); [done|].
  rewrite (precompute_any_sort S1 S2) by done.
  destruct (@precompute W WT S2 t) as [σ| | |]; try done. step_bind.
  rewrite (search_capacity S1 S2) by done.
  destruct (@search W WT S2 _ _ _ _ _ _ _ _) as [[lo ans]| | |]; try done.
  step_bind. destruct (dist_at σ lo) as [r| | |]; try done. step_bind.
  rewrite (check_roomy S1 S2); [done|]. by apply roomy_capacity.
Qed.

Lemma k_centers_roomy_any_sort_star :
  @k_centers Z int_weight reversing_std_sort star 4 1
  = @k_centers Z int_weight insertion_std_sort star 4 1.
Proof.
  apply (k_centers_roomy_any_sort reversing_std_sort insertion_std_sort
           star 4 1).
  - exact int_total_ltb.
  - simpl. lia.
Defined.

(** Whatever [std::sort] does with equivalent elements, [usage_example]
    writes the radius 1 and the centers 3 and 1 to [cout], the heading of
    the assignment to [cout] as well, and the assignment 1 1 3 1 itself
    to [cerr]; [main] returns 0. *)
Theorem usage_example_output (SS : StdSort) :
  usage_example
  = Returns (Output ("radius : 1" +:+ endl +:+ "centers : 3 1 " +:+ endl +:+
                     "assignment : ")
                    ("1 1 3 1 " +:+ endl)) ∧
  main = Returns 0.
Proof.
  assert (@usage_example SS = @usage_example insertion_std_sort) as Heq.
  { unfold usage_example.
    rewrite (k_centers_probes SS insertion_std_sort _ 3 2 star_tables);
      [done|exact int_total_ltb|apply star_precompute|].
    vm_compute. repeat split; by_decide. }
  unfold main. rewrite Heq. split; vm_compute; reflexivity.
Qed.

(** Whatever the graph, after a precomputation that returns, the row
    [D[a]] of a vertex [a] has [n + 1] elements, and [D[a][x]] is 0 when
    no walk leads from [a] to [x]: vertices that cannot be reached count
    as being at distance 0, and a graph that is not connected is not
    noticed. *)
Theorem unreached_distance_zero {SS : StdSort} (t : tree Z) (σ : tables)
    (a x : nat) :
  precompute t = Returns σ → a ∈ seq 1 (n t) → (x ≤ n t)%nat →
  (∀ d, ¬ dist t a x d) →
  length (at_ [] (D σ) a) = S (n t) ∧ at_ [] (D σ) a !! x = Some 0.
Proof.
  intros Hpre Ha Hx Hno. unfold precompute in Hpre. returns Hpre.
  injection Hpre as <-. cbn [D]. unfold raw_tables in Hpre0.
  assert (length (at_ [] (D r) a) = S (n t)) as Hlen.
  { eapply dfs_all_row_length; [exact Hpre0| |by left].
    cbn [D]. rewrite length_replicate. apply elem_of_seq in Ha. lia. }
  split; [done|].
  destruct (lookup_lt_is_Some_2 (at_ [] (D r) a) x) as [y Hy]; [lia|].
  rewrite Hy. f_equal.
  destruct (decide (y = 0)) as [|Hne]; [done|exfalso].
  assert (at2 (D r) a x ≠ 0) as Hne'.
  { unfold at2. unfold at_ at 1. by rewrite Hy. }
  eapply dfs_all_rows in Hne'; [|exact Hpre0|].
  - apply reached_dist in Hne' as [d Hd]. by apply (Hno d).
  - intros b z Hb. exfalso. apply Hb. unfold at2, at_. cbn [D].
    destruct (replicate (S (n t)) [] !! b) as [row|] eqn:Hrow; [|done].
    by apply lookup_replicate in Hrow as [-> _].
Qed.

Lemma unreached_distance_zero_apart3 :
  length (at_ [] (D (Tables [[]; [0; 0; 5; 0]; [0; 5; 0; 0]; [0; 0; 0; 0]]
                       [[]; [1]; [1; 2]; []]%nat [5])) 1) = 4%nat ∧
  at_ [] (D (Tables [[]; [0; 0; 5; 0]; [0; 5; 0; 0]; [0; 0; 0; 0]]
               [[]; [1]; [1; 2]; []]%nat [5])) 1 !! 3%nat = Some 0.
Proof.
  apply (unreached_distance_zero apart3 _ 1 3).
  - vm_compute. reflexivity.
  - apply elem_of_seq. simpl. lia.
  - simpl. lia.
  - intros d. apply dist_outside; [by_decide|done].
Defined.

(** A call [dfs(beg, beg, -1, d)] returns, and then nests at most
    [depth_bound t] calls, or it reaches a cycle, and then it does not
    end at any depth. *)
Theorem dfs_ends_or_cycles {W} {WT : WeightType W} (t : tree W) (beg : nat)
    (d : W) (σ : tables) :
  (∃ σ', ∀ fuel, (depth_bound t ≤ fuel)%nat →
     dfs t fuel beg beg None d σ = Returns σ') ∨
  (cycles t beg ∧ ∀ fuel, dfs t fuel beg beg None d σ = Diverges).
Proof.
  destruct (dfs_outcome t (depth_bound t) beg beg None d σ)
    as [[σ' Hrun]|Hrun].
  - left. exists σ'. intros fuel Hle. by eapply dfs_more_fuel.
  - right. apply dfs_depth_bound in Hrun. split; [done|].
    intros fuel. by apply dfs_cycles.
Qed.

(** On a tree whose distances fit [int], no sum [d + v.snd] of [dfs] and
    no difference [d_i - D[root][it]] of [check] leaves [int]: computed
    with wrap-around, [k_centers] has the outcome that it has computed
    with the integers. (On [big3], where the distance 2^31 does not fit,
    the outcomes differ: [big3_leaves_int].) *)
Theorem k_centers_within_int {SS : StdSort} (t : tree Z) (C k : Z) :
  well_formed t → distances_fit t →
  @k_centers Z int_wraps SS t C k = @k_centers Z int_weight SS t C k.
Proof. apply k_centers_wraps. Qed.

Lemma k_centers_within_int_star :
  @k_centers Z int_wraps insertion_std_sort star 3 2
  = @k_centers Z int_weight insertion_std_sort star 3 2.
Proof.
  apply (k_centers_within_int star 3 2).
  - apply tree_check_well_formed. by_decide.
  - apply star_distances_fit.
Defined.
